(** * crcengine.calc: a shallow embedding of the CRC calculation engines

    The Python module [crcengine/calc.py] is embedded function by function.
    Python integers are unbounded, so they are modelled by [Z]; the bit
    operations [&], [|], [^], [~], [<<] and [>>] are [Z.land], [Z.lor],
    [Z.lxor], [Z.lnot], [Z.shiftl] and [Z.shiftr], which agree with Python's
    two's-complement semantics on negative numbers too.  Python exceptions
    are modelled by the [result] type. *)

From Stdlib Require Import ZArith List Bool Lia String.
From Stdlib Require Import Strings.Ascii Strings.Byte.
Import ListNotations.
Local Open Scope Z_scope.

(** ** Python primitives *)

Module Py.

(** The exceptions the module can raise.  [OutOfFuel] is not a Python
    exception: it is what a fuel-bounded [while] loop of the model returns
    when the fuel is used up (shown below never to happen). *)
Inductive exn : Type :=
| ValueError
| IndexError
| AssertionError
| OutOfFuel.

Inductive result (A : Type) : Type :=
| Ok (a : A)
| Raise (e : exn).

Arguments Ok {A} a.
Arguments Raise {A} e.

Definition bind {A B : Type} (m : result A) (f : A -> result B) : result B :=
  match m with
  | Ok a => f a
  | Raise e => Raise e
  end.

(** [a << n]: raises [ValueError] ("negative shift count") when [n < 0]. *)
Definition lshift (a n : Z) : result Z :=
  if n <? 0 then Raise ValueError else Ok (Z.shiftl a n).

(** [a >> n]: raises [ValueError] ("negative shift count") when [n < 0]. *)
Definition rshift (a n : Z) : result Z :=
  if n <? 0 then Raise ValueError else Ok (Z.shiftr a n).

(** Truth value of an integer in a condition. *)
Definition truthy (a : Z) : bool := negb (a =? 0).

Definition len {A : Type} (l : list A) : Z := Z.of_nat (List.length l).

(** [l[i]]: a negative index counts from the end, an index outside the list
    raises [IndexError]. *)
Definition getitem (l : list Z) (i : Z) : result Z :=
  let k := if i <? 0 then i + len l else i in
  if (0 <=? k) && (k <? len l) then Ok (nth (Z.to_nat k) l 0)
  else Raise IndexError.

Fixpoint update (l : list Z) (n : nat) (v : Z) : list Z :=
  match l, n with
  | [], _ => []
  | _ :: l', O => v :: l'
  | x :: l', S n' => x :: update l' n' v
  end.

(** [l[i] = v] *)
Definition setitem (l : list Z) (i : Z) (v : Z) : result (list Z) :=
  let k := if i <? 0 then i + len l else i in
  if (0 <=? k) && (k <? len l) then Ok (update l (Z.to_nat k) v)
  else Raise IndexError.

(** [range(start, stop, step)] for a positive [step]. *)
Definition range3 (start stop step : Z) : list Z :=
  map (fun k => start + Z.of_nat k * step)
      (seq 0 (Z.to_nat ((stop - start + step - 1) / step))).

Definition range2 (start stop : Z) : list Z := range3 start stop 1.

Definition range (stop : Z) : list Z := range3 0 stop 1.

(** A [for] loop whose body may raise. *)
Fixpoint for_each {A S : Type} (l : list A) (body : S -> A -> result S) (s : S)
  : result S :=
  match l with
  | [] => Ok s
  | a :: l' => bind (body s a) (for_each l' body)
  end.

(** [for _ in range(n): s = body(s)] *)
Definition repeat_n {S : Type} (n : Z) (body : S -> S) (s : S) : S :=
  Nat.iter (Z.to_nat n) body s.

(** [l[a:b]]: a negative bound counts from the end, and both bounds are
    clipped to the list. *)
Definition slice {A : Type} (l : list A) (a b : Z) : list A :=
  let clip i := Z.max 0 (Z.min (len l) (if i <? 0 then i + len l else i)) in
  firstn (Z.to_nat (clip b - clip a)) (skipn (Z.to_nat (clip a)) l).

(** The value of a byte of a [bytes] object: an integer in 0..255. *)
Definition byte_val (b : byte) : Z := Z.of_N (Byte.to_N b).

End Py.

Import Py.

Declare Scope py_scope.
Notation "x <- m ;; k" := (bind m (fun x => k))
  (at level 61, m at next level, right associativity) : py_scope.
Local Open Scope py_scope.

Definition _BYTEBITS : Z := 8.

(** ** Bit reversal *)

(** [bit_reverse_byte]: the loop over [i] in [range(8)] sets bit [7 - i] of
    the result for every set bit [i] of [byte]. *)
Definition bit_reverse_byte (byte : Z) : Z :=
  let result :=
    fold_left (fun result i =>
                 if truthy (Z.land byte (Z.shiftl 1 i))
                 then Z.lor result (Z.shiftl 1 (7 - i))
                 else result)
              (range 8) 0 in
  Z.land result 0xFF.

(** Table of bit-reversed bytes, initialised on loading. *)
Definition _REV8BITS : list Z := Eval vm_compute in map bit_reverse_byte (range 256).

(** [_REV8BITS[i]] where the index is known to lie in 0..255 (a masked value
    or a byte of the input, see [REV8BITS_getitem]). *)
Definition rev8 (i : Z) : Z := nth (Z.to_nat i) _REV8BITS 0.

(** [bit_reverse_n(value, num_bits)].  The first shift count [(8 - num_bits) & 7]
    is never negative, so no shift of this function can raise. *)
Definition bit_reverse_n (value num_bits : Z) : Z :=
  let value := Z.shiftl value (Z.land (8 - num_bits) 7) in
  let num_bytes := Z.shiftr (num_bits + 7) 3 in
  fst (repeat_n num_bytes
         (fun '(result, value) =>
            let result := Z.shiftl result 8 in
            let result := Z.lor result (rev8 (Z.land value 0xFF)) in
            (result, Z.shiftr value 8))
         (0, value)).

(** [_calc_end_mask(last_bit)]: [~((1 << (7 - last_bit)) - 1) & 0xFF]. *)
Definition _calc_end_mask (last_bit : Z) : result Z :=
  m <- lshift 1 (7 - last_bit) ;;
  Ok (Z.land (Z.lnot (m - 1)) 0xFF).

(** [get_bits_max_value(nbits)] *)
Definition get_bits_max_value (nbits : Z) : result Z :=
  m <- lshift 1 nbits ;;
  Ok (m - 1).

(** ** Table generation *)

(** One round of the most-significant-bit-first shift register, as written
    in every MSB-first loop of the module:
    [if crc & ms_bit: crc = (crc << 1) ^ poly else: crc <<= 1]. *)
Definition msb_round (poly ms_bit crc : Z) : Z :=
  if truthy (Z.land crc ms_bit) then Z.lxor (Z.shiftl crc 1) poly
  else Z.shiftl crc 1.

(** One round of the least-significant-bit-first shift register:
    [if crc & 1: crc = (crc >> 1) ^ poly else: crc >>= 1]. *)
Definition lsb_round (poly crc : Z) : Z :=
  if truthy (Z.land crc 1) then Z.lxor (Z.shiftr crc 1) poly
  else Z.shiftr crc 1.

(** [create_msb_table_individual(poly, width)] *)
Definition create_msb_table_individual (poly width : Z) : result (list Z) :=
  let msb_lshift := width - 8 in
  ms_bit <- lshift 1 (width - 1) ;;
  m <- lshift 1 width ;;
  let result_mask := m - 1 in
  let table := repeat 0 256 in
  for_each (range2 1 256)
    (fun table n =>
       crc <- lshift n msb_lshift ;;
       let crc := repeat_n 8 (msb_round poly ms_bit) crc in
       setitem table n (Z.land crc result_mask))
    table.

(** The [while i <= 128] loop of [create_msb_table]; the state is
    [(table, crc, i)]. *)
Fixpoint msb_table_while (fuel : nat) (poly ms_bit result_mask : Z)
    (table : list Z) (crc i : Z) : result (list Z) :=
  match fuel with
  | O => Raise OutOfFuel
  | S fuel' =>
      if i <=? 128 then
        let crc := msb_round poly ms_bit crc in
        let crc := Z.land crc result_mask in
        table <- for_each (range2 0 i)
                   (fun table j =>
                      tj <- getitem table j ;;
                      setitem table (i + j) (Z.lxor tj crc))
                   table ;;
        msb_table_while fuel' poly ms_bit result_mask table crc (Z.shiftl i 1)
      else Ok table
  end.

(** [create_msb_table(poly, width)].  The loop variable [i] runs through
    1, 2, 4, ..., 128, so nine tests of the loop condition are made. *)
Definition create_msb_table (poly width : Z) : result (list Z) :=
  ms_bit <- lshift 1 (width - 1) ;;
  m <- lshift 1 width ;;
  let result_mask := m - 1 in
  let table := repeat 0 256 in
  let crc := ms_bit in
  msb_table_while 9 poly ms_bit result_mask table crc 1.

(** The [while i > 0] loop of [create_lsb_table]. *)
Fixpoint lsb_table_while (fuel : nat) (poly : Z) (table : list Z) (crc i : Z)
  : result (list Z) :=
  match fuel with
  | O => Raise OutOfFuel
  | S fuel' =>
      if i >? 0 then
        let crc := lsb_round poly crc in
        table <- for_each (range3 0 256 (2 * i))
                   (fun table j =>
                      tj <- getitem table j ;;
                      setitem table (i + j) (Z.lxor crc tj))
                   table ;;
        lsb_table_while fuel' poly table crc (Z.shiftr i 1)
      else Ok table
  end.

(** [create_lsb_table(poly, width)].  [i] runs through 0x80, 0x40, ..., 1. *)
Definition create_lsb_table (poly width : Z) : result (list Z) :=
  let table := repeat 0 256 in
  let crc := 1 in
  let i := 0x80 in
  let poly := bit_reverse_n poly width in
  lsb_table_while 9 poly table crc i.

(** ** Calculation engines *)

(** *** [_CrcLsbfTable] *)
Module CrcLsbfTable.

Record t : Type := {
  _table : list Z;
  _seed : Z;
  _width : Z;
  _xor_out : Z;
  _result_mask : Z;
  _reverse_result : bool;
  name : string
}.

(** [__init__(self, table, width, seed, xor_out, reverse_result, name)] *)
Definition init (table : list Z) (width seed xor_out : Z)
    (reverse_result : bool) (name : string) : result t :=
  m <- lshift 1 width ;;
  Ok {| _table := table; _seed := seed; _width := width;
        _xor_out := xor_out; _result_mask := m - 1;
        _reverse_result := reverse_result; name := name |}.

(** [calculate(self, data)] *)
Definition calculate (self : t) (data : list byte) : result Z :=
  let crc := bit_reverse_n (_seed self) (_width self) in
  crc <- for_each data
           (fun crc byte =>
              e <- getitem (_table self)
                     (Z.lxor (Z.land crc 0xFF) (byte_val byte)) ;;
              let crc := Z.lxor (Z.shiftr crc 8) e in
              Ok (Z.land crc (_result_mask self)))
           crc ;;
  let crc := if _reverse_result self then bit_reverse_n crc (_width self)
             else crc in
  Ok (Z.lxor crc (_xor_out self)).

End CrcLsbfTable.

(** *** [_CrcMsbfTable] *)
Module CrcMsbfTable.

Record t : Type := {
  _table : list Z;
  _seed : Z;
  _width : Z;
  _xor_out : Z;
  _result_mask : Z;
  _msb_lshift : Z;
  _reverse_result : bool;
  name : string
}.

Definition init (table : list Z) (width seed xor_out : Z)
    (reverse_result : bool) (name : string) : result t :=
  m <- lshift 1 width ;;
  Ok {| _table := table; _seed := seed; _width := width;
        _xor_out := xor_out; _result_mask := m - 1;
        _msb_lshift := width - 8;
        _reverse_result := reverse_result; name := name |}.

Definition calculate (self : t) (data : list byte) : result Z :=
  let remainder := _seed self in
  remainder <- for_each data
           (fun remainder value =>
              hi <- rshift remainder (_msb_lshift self) ;;
              e <- getitem (_table self) (Z.lxor hi (byte_val value)) ;;
              let remainder := Z.lxor (Z.shiftl remainder 8) e in
              Ok (Z.land remainder (_result_mask self)))
           remainder ;;
  let remainder := if _reverse_result self
                   then bit_reverse_n remainder (_width self)
                   else remainder in
  Ok (Z.lxor remainder (_xor_out self)).

End CrcMsbfTable.

(** *** [_CrcGeneric] *)
Module CrcGeneric.

Record t : Type := {
  _poly : Z;
  _width : Z;
  _default_seed : Z;
  _xor_out : Z;
  _result_mask : Z;
  _crc_lshift : Z;
  _msb_lshift : Z;
  _msbit_mask : Z;
  _crc_mask : Z;
  _ref_in : bool;
  _ref_out : bool;
  name : string
}.

(** [__init__(self, poly, width, seed, ref_in, ref_out, xor_out, name)] *)
Definition init (poly width seed : Z) (ref_in ref_out : bool) (xor_out : Z)
    (name : string) : result t :=
  m <- lshift 1 width ;;
  let result_mask := m - 1 in
  let '(crc_lshift, msb_lshift) :=
    if width <? 8 then (8 - width, 0) else (0, width - 8) in
  msbit_mask <- lshift 1 (width + crc_lshift - 1) ;;
  cm <- lshift 1 (width + crc_lshift) ;;
  Ok {| _poly := poly; _width := width; _default_seed := seed;
        _xor_out := xor_out; _result_mask := result_mask;
        _crc_lshift := crc_lshift; _msb_lshift := msb_lshift;
        _msbit_mask := msbit_mask; _crc_mask := cm - 1;
        _ref_in := ref_in; _ref_out := ref_out; name := name |}.

(** [calculate(self, data, seed=None)] *)
Definition calculate (self : t) (data : list byte) (seed : option Z)
  : result Z :=
  let crc := match seed with Some s => s | None => _default_seed self end in
  crc <- lshift crc (_crc_lshift self) ;;
  poly <- lshift (_poly self) (_crc_lshift self) ;;
  crc <- for_each data
           (fun crc byte =>
              let byte := if _ref_in self then rev8 (byte_val byte)
                          else byte_val byte in
              b <- lshift byte (_msb_lshift self) ;;
              let crc := Z.lxor crc b in
              let crc := repeat_n _BYTEBITS
                           (msb_round poly (_msbit_mask self)) crc in
              Ok (Z.land crc (_crc_mask self)))
           crc ;;
  crc <- rshift crc (_crc_lshift self) ;;
  let crc := if _ref_out self then bit_reverse_n crc (_width self) else crc in
  Ok (Z.lxor crc (_xor_out self)).

End CrcGeneric.

(** *** [_CrcGenericLsbf] *)
Module CrcGenericLsbf.

Record t : Type := {
  _poly : Z;
  _width : Z;
  _seed : Z;
  _xor_out : Z;
  _result_mask : Z;
  _msbit : Z;
  _msb_lshift : Z;
  _ref_in : bool;
  _ref_out : bool;
  name : string
}.

Definition init (poly width seed : Z) (ref_in ref_out : bool) (xor_out : Z)
    (name : string) : result t :=
  m <- lshift 1 width ;;
  msbit <- lshift 1 (width - 1) ;;
  Ok {| _poly := poly; _width := width; _seed := seed; _xor_out := xor_out;
        _result_mask := m - 1; _msbit := msbit; _msb_lshift := width - 8;
        _ref_in := ref_in; _ref_out := ref_out; name := name |}.

Definition calculate (self : t) (data : list byte) (seed : option Z) : Z :=
  let crc := match seed with Some s => s | None => _seed self end in
  let poly := if _ref_in self then bit_reverse_n (_poly self) (_width self)
              else _poly self in
  let crc := fold_left
               (fun crc byte =>
                  let byte := if _ref_in self then rev8 (byte_val byte)
                              else byte_val byte in
                  let crc := Z.lxor crc byte in
                  let crc := repeat_n 8 (lsb_round poly) crc in
                  Z.land crc (_result_mask self))
               data crc in
  let crc := if _ref_out self then bit_reverse_n crc (_width self) else crc in
  Z.lxor crc (_xor_out self).

End CrcGenericLsbf.

(** Modelled from the spec: the declaration of [CrcParams] lives in
    [crcengine/algorithms.py], which is not among the sources; the spec's
    Parameter Set gives its attributes, and [_CrcWindowed.__init__] reads
    [polynomial], [width], [seed], [reflect_in], [reflect_out] and
    [xor_out] from it. *)
Module CrcParams.

Record t : Type := {
  polynomial : Z;
  width : Z;
  seed : Z;
  reflect_in : bool;
  reflect_out : bool;
  xor_out : Z;
  name : string;
  check : option Z
}.

End CrcParams.

(** *** Output of the [print] calls

    [_CrcWindowed.calculate] prints from inside its loops.  A traced
    computation is the list of lines printed so far together with the
    outcome; a line is recorded by the integers it formats (the text
    formatting itself, ["{:08b}"] and ["{:02x}"], is not modelled). *)
Inductive line : Type :=
| ByteLine (shifted_byte : Z)        (* print(f"byte {byte_string}") *)
| CrcLine (crc : Z)                  (* print(f"crc {crc_string}") *)
| InputLine (byte crc : Z).          (* print(f"input={byte:02x} crc={crc:02x}") *)

Definition traced (A : Type) : Type := (list line * result A)%type.

Definition tret {A : Type} (a : A) : traced A := ([], Ok a).

Definition traise {A : Type} (e : exn) : traced A := ([], Raise e).

Definition lift {A : Type} (r : result A) : traced A := ([], r).

Definition print (l : line) : traced unit := ([l], Ok tt).

Definition tbind {A B : Type} (m : traced A) (f : A -> traced B) : traced B :=
  match m with
  | (out, Ok a) => let '(out', r) := f a in (out ++ out', r)
  | (out, Raise e) => (out, Raise e)
  end.

Notation "x <~ m ;; k" := (tbind m (fun x => k))
  (at level 61, m at next level, right associativity) : py_scope.
Notation "m ;;; k" := (tbind m (fun _ => k))
  (at level 61, right associativity) : py_scope.

Fixpoint tfor_each {A S : Type} (l : list A) (body : S -> A -> traced S) (s : S)
  : traced S :=
  match l with
  | [] => tret s
  | a :: l' => tbind (body s a) (tfor_each l' body)
  end.

(** *** [_CrcWindowed] *)
Module CrcWindowed.

Record t : Type := {
  _poly : Z;
  _width : Z;
  _default_seed : Z;
  _xor_out : Z;
  _result_mask : Z;
  _crc_lshift : Z;
  _msb_lshift : Z;
  _msbit_mask : Z;
  _crc_mask : Z;
  _ref_in : bool;
  _ref_out : bool;
  name : string
}.

(** [__init__(self, params, name)] *)
Definition init (params : CrcParams.t) (name : string) : result t :=
  let width := CrcParams.width params in
  m <- lshift 1 width ;;
  let result_mask := m - 1 in
  let '(crc_lshift, msb_lshift) :=
    if width <? 8 then (8 - width, 0) else (0, width - 8) in
  msbit_mask <- lshift 1 (width + crc_lshift - 1) ;;
  cm <- lshift 1 (width + crc_lshift) ;;
  Ok {| _poly := CrcParams.polynomial params; _width := width;
        _default_seed := CrcParams.seed params;
        _xor_out := CrcParams.xor_out params;
        _result_mask := result_mask;
        _crc_lshift := crc_lshift; _msb_lshift := msb_lshift;
        _msbit_mask := msbit_mask; _crc_mask := cm - 1;
        _ref_in := CrcParams.reflect_in params;
        _ref_out := CrcParams.reflect_out params;
        name := name |}.

(** The inner loop [for _ in range(block_width)]: one round, the mask, and
    the line printed for the round. *)
Fixpoint rounds (self : t) (poly : Z) (n : nat) (crc : Z) : traced Z :=
  match n with
  | O => tret crc
  | S n' =>
      let crc := msb_round poly (_msbit_mask self) crc in
      let crc := Z.land crc (_crc_mask self) in
      print (CrcLine crc) ;;;
      rounds self poly n' crc
  end.

(** The body of the loop [for index in check_range].  [first_bit] is a
    remainder modulo 8, so the shift [byte <<= first_bit] cannot raise. *)
Definition step (self : t) (data : list byte) (poly : Z)
    (first_byte first_bit last_byte last_bit end_mask : Z)
    (crc index : Z) : traced Z :=
  byte <~ lift (getitem (map byte_val data) index) ;;
  let byte := if _ref_in self then rev8 byte else byte in
  let '(byte, block_width) :=
    if index =? last_byte then (Z.land byte end_mask, last_bit + 1)
    else (byte, 8) in
  let '(byte, block_width) :=
    if index =? first_byte
    then (Z.shiftl byte first_bit, block_width - first_bit)
    else (byte, block_width) in
  b <~ lift (lshift byte (_msb_lshift self)) ;;
  let crc := Z.lxor crc b in
  b' <~ lift (lshift byte (_msb_lshift self)) ;;
  print (ByteLine b') ;;;
  crc <~ rounds self poly (Z.to_nat block_width) crc ;;
  print (InputLine byte crc) ;;;
  tret crc.

(** [calculate(self, data, start_bit=0, length_bits=None, seed=None)] *)
Definition calculate (self : t) (data : list byte) (start_bit : Z)
    (length_bits seed : option Z) : traced Z :=
  let crc := match seed with Some s => s | None => _default_seed self end in
  let num_input_bits := _BYTEBITS * len data in
  let length_bits := match length_bits with
                     | None => num_input_bits - start_bit
                     | Some l => l
                     end in
  if (start_bit >=? num_input_bits) || (start_bit <? 0) then traise ValueError
  else if length_bits <? 0 then traise ValueError
  else if start_bit + length_bits >? num_input_bits then traise ValueError
  else
    let first_byte := start_bit / _BYTEBITS in
    let first_bit := start_bit mod _BYTEBITS in
    let last_byte := (start_bit + length_bits - 1) / 8 in
    let last_bit := (start_bit + length_bits - 1) mod 8 in
    end_mask <~ lift (_calc_end_mask last_bit) ;;
    let check_range := range2 first_byte (last_byte + 1) in
    crc <~ lift (lshift crc (_crc_lshift self)) ;;
    poly <~ lift (lshift (_poly self) (_crc_lshift self)) ;;
    crc <~ tfor_each check_range
             (step self data poly first_byte first_bit last_byte last_bit
                end_mask)
             crc ;;
    m <~ lift (lshift 1 (_crc_lshift self)) ;;
    if Z.land crc (m - 1) =? 0 then
      crc <~ lift (rshift crc (_crc_lshift self)) ;;
      let crc := if _ref_out self then bit_reverse_n crc (_width self)
                 else crc in
      tret (Z.lxor crc (_xor_out self))
    else traise AssertionError.

End CrcWindowed.

(** ** Engine construction *)

(** The engine [create] returns is one of the two table-driven classes. *)
Inductive table_engine : Type :=
| Lsbf (e : CrcLsbfTable.t)
| Msbf (e : CrcMsbfTable.t).

Definition table_calculate (engine : table_engine) (data : list byte)
  : result Z :=
  match engine with
  | Lsbf e => CrcLsbfTable.calculate e data
  | Msbf e => CrcMsbfTable.calculate e data
  end.

(** [create(poly, width, seed, ref_in, ref_out, name, xor_out)] *)
Definition create (poly width seed : Z) (ref_in ref_out : bool)
    (name : string) (xor_out : Z) : result table_engine :=
  if ref_in then
    table <- create_lsb_table poly width ;;
    algorithm <- CrcLsbfTable.init table width seed xor_out
                   (negb (Bool.eqb ref_in ref_out)) name ;;
    Ok (Lsbf algorithm)
  else
    table <- create_msb_table poly width ;;
    algorithm <- CrcMsbfTable.init table width seed xor_out ref_out name ;;
    Ok (Msbf algorithm).

(** [create_generic(poly, width, seed, ref_in, ref_out, name, xor_out)] *)
Definition create_generic (poly width seed : Z) (ref_in ref_out : bool)
    (name : string) (xor_out : Z) : result CrcGeneric.t :=
  CrcGeneric.init poly width seed ref_in ref_out xor_out name.

(** [create_windowed_todo(params, name)] *)
Definition create_windowed_todo (params : CrcParams.t) (name : string)
  : result CrcWindowed.t :=
  CrcWindowed.init params name.

(** [create_generic_lsbf(poly, width, seed, ref_in, ref_out, name, xor_out)] *)
Definition create_generic_lsbf (poly width seed : Z) (ref_in ref_out : bool)
    (name : string) (xor_out : Z) : result CrcGenericLsbf.t :=
  CrcGenericLsbf.init poly width seed ref_in ref_out xor_out name.

(** ** Formatting *)

(** [f"{x:08b}"] for the value of a byte: its eight binary digits, the most
    significant first.  (For an integer of more than eight bits Python
    prints more digits; the elements of a [bytes] object are below 256.) *)
Definition format_08b (x : Z) : string :=
  fold_right
    (fun i s => String (if Z.testbit x i then "1" else "0")%char s)
    EmptyString [7; 6; 5; 4; 3; 2; 1; 0].

(** [bytes_to_bit_string(value, sep="_", add_prefix=False)] *)
Definition bytes_to_bit_string (value : list byte) (sep : string)
    (add_prefix : bool) : string :=
  let output :=
    String.concat sep (map (fun x => format_08b (byte_val x)) value) in
  if add_prefix then ("0b" ++ output)%string else output.

(** ** Code generation ([crcengine/codegen.py]) *)

(** [_get_datatype_bits(width)]: the width in bits of the smallest C data
    type chosen for a value of [width] bits. *)
Definition _get_datatype_bits (width : Z) : Z :=
  if width >? 32 then 64
  else if width >? 16 then 32
  else if width >? 8 then 16
  else 8.

(** The ASCII bytes of a string literal. *)
Definition ascii_bytes (s : string) : list byte := list_byte_of_string s.

(** * Vocabulary of the properties *)

(** Pick [c] when the bit is set, nothing otherwise. *)
Definition sel (t : bool) (c : Z) : Z := if t then c else 0.

(** The entry the MSB-first loop leaves at index [n]: the values [c b] of the
    set bits [b] of [n], combined in the order the loop combines them. *)
Definition combo_l (c : Z -> Z) (n : Z) : Z :=
  fold_left (fun acc b => if Z.testbit n b then Z.lxor acc (c b) else acc)
            (range 8) 0.

(** The same for the LSB-first loop. *)
Definition combo_r (c : Z -> Z) (n : Z) : Z :=
  fold_right (fun b acc => if Z.testbit n b then Z.lxor (c b) acc else acc)
             0 (range 8).

(** The order-free form of both. *)
Definition combo (c : Z -> Z) (n : Z) (l : list Z) : Z :=
  fold_right (fun b acc => Z.lxor (sel (Z.testbit n b) (c b)) acc) 0 l.

(** The masked round of [create_msb_table]. *)
Definition msb_step (poly ms_bit result_mask crc : Z) : Z :=
  Z.land (msb_round poly ms_bit crc) result_mask.

(** Entry [n] of the MSB-first table. *)
Definition msb_entry (poly ms_bit result_mask : Z) : Z -> Z :=
  combo_l (fun b => Nat.iter (S (Z.to_nat b))
                      (msb_step poly ms_bit result_mask) ms_bit).

(** Entry [n] of the LSB-first table. *)
Definition lsb_entry (poly : Z) : Z -> Z :=
  combo_r (fun b => Nat.iter (Z.to_nat (8 - b)) (lsb_round poly) 1).

(** [table[i ^ j] == table[i] ^ table[j]] for all indices in [0,256). *)
Definition xor_linear (table : list Z) : Prop :=
  forall i j, 0 <= i < 256 -> 0 <= j < 256 ->
    exists ti tj,
      getitem table i = Ok ti /\ getitem table j = Ok tj /\
      getitem table (Z.lxor i j) = Ok (Z.lxor ti tj).

(** The check made on every entry of [_REV8BITS]: it is a byte, and its
    bit [j] is bit [7 - j] of the index. *)
Definition rev8_ok (b : Z) : bool :=
  (0 <=? rev8 b) && (rev8 b <? 256) &&
  forallb (fun j => Bool.eqb (Z.testbit (rev8 b) j) (Z.testbit b (7 - j)))
          (range 8).

(** The body of the loop of [bit_reverse_n], on [(result, value)]. *)
Definition brn_body : Z * Z -> Z * Z :=
  fun '(result, value) =>
    let result := Z.shiftl result 8 in
    let result := Z.lor result (rev8 (Z.land value 0xFF)) in
    (result, Z.shiftr value 8).

(** The condition under which [create] raises. *)
Definition create_rejects (width : Z) (ref_in : bool) : Prop :=
  if ref_in then width < 0 else width <= 0.

(** What the spec calls a configuration error. *)
Definition invalid_configuration (poly width seed xor_out : Z) : Prop :=
  width <= 0 \/ ~ 0 <= poly < 2 ^ width \/ ~ 0 <= seed < 2 ^ width \/
  ~ 0 <= xor_out < 2 ^ width.

(** The parameters of the CRC-8 algorithm. *)
Definition crc8_params : CrcParams.t :=
  {| CrcParams.polynomial := 0x07; CrcParams.width := 8;
     CrcParams.seed := 0; CrcParams.reflect_in := false;
     CrcParams.reflect_out := false; CrcParams.xor_out := 0;
     CrcParams.name := "crc8"; CrcParams.check := Some 0xF4 |}.

(** The register an engine reports: reflected when [ref_out] is set. *)
Definition reported (ref_out : bool) (width crc : Z) : Z :=
  if ref_out then bit_reverse_n crc width else crc.

(** The byte the windowed loop feeds into the register at [index], and the
    number of rounds it runs for it. *)
Definition window_byte (ref_in : bool)
    (first_byte first_bit last_byte last_bit end_mask index byte : Z) : Z * Z :=
  let byte := if ref_in then rev8 byte else byte in
  let '(byte, block_width) :=
    if index =? last_byte then (Z.land byte end_mask, last_bit + 1)
    else (byte, 8) in
  if index =? first_byte
  then (Z.shiftl byte first_bit, block_width - first_bit)
  else (byte, block_width).

(** What [_CrcWindowed.__init__] establishes. *)
Record windowed_wf (self : CrcWindowed.t) : Prop := {
  wf_crc_lshift : 0 <= CrcWindowed._crc_lshift self <= 8;
  wf_msb_lshift : 0 <= CrcWindowed._msb_lshift self;
  wf_one_shift :
    CrcWindowed._crc_lshift self = 0 \/ CrcWindowed._msb_lshift self = 0;
  wf_width :
    CrcWindowed._width self + CrcWindowed._crc_lshift self
    = CrcWindowed._msb_lshift self + 8;
  wf_msbit_mask :
    CrcWindowed._msbit_mask self = 2 ^ (CrcWindowed._msb_lshift self + 7);
  wf_crc_mask :
    CrcWindowed._crc_mask self = Z.ones (CrcWindowed._msb_lshift self + 8)
}.

(** The low [k] bits of [x] are clear. *)
Definition lowzero (k x : Z) : Prop :=
  forall j, 0 <= j < k -> Z.testbit x j = false.

(** The bits the window selects, as [calculate] computes them. *)
Definition window_length (data : list byte) (start_bit : Z)
    (length_bits : option Z) : Z :=
  match length_bits with
  | None => _BYTEBITS * len data - start_bit
  | Some l => l
  end.

(** The condition under which [calculate] raises [ValueError]. *)
Definition out_of_range (data : list byte) (start_bit : Z)
    (length_bits : option Z) : Prop :=
  let total_bits := _BYTEBITS * len data in
  start_bit < 0 \/ start_bit >= total_bits \/
  window_length data start_bit length_bits < 0 \/
  start_bit + window_length data start_bit length_bits > total_bits.

(** What [_CrcGeneric.__init__] establishes. *)
Record generic_wf (self : CrcGeneric.t) : Prop := {
  gwf_crc_lshift : 0 <= CrcGeneric._crc_lshift self <= 8;
  gwf_msb_lshift : 0 <= CrcGeneric._msb_lshift self;
  gwf_one_shift :
    CrcGeneric._crc_lshift self = 0 \/ CrcGeneric._msb_lshift self = 0;
  gwf_width :
    CrcGeneric._width self + CrcGeneric._crc_lshift self
    = CrcGeneric._msb_lshift self + 8;
  gwf_msbit_mask :
    CrcGeneric._msbit_mask self = 2 ^ (CrcGeneric._msb_lshift self + 7);
  gwf_crc_mask :
    CrcGeneric._crc_mask self = Z.ones (CrcGeneric._msb_lshift self + 8)
}.

(** The body of the loop of [_CrcGeneric.calculate]. *)
Definition generic_body (self : CrcGeneric.t) (poly crc : Z) (byte : byte)
  : result Z :=
  let byte := if CrcGeneric._ref_in self then rev8 (byte_val byte)
              else byte_val byte in
  b <- lshift byte (CrcGeneric._msb_lshift self) ;;
  let crc := Z.lxor crc b in
  let crc := repeat_n _BYTEBITS (msb_round poly (CrcGeneric._msbit_mask self))
               crc in
  Ok (Z.land crc (CrcGeneric._crc_mask self)).

(** The windowed and the generic engine hold the same configuration. *)
Record same_config (w : CrcWindowed.t) (g : CrcGeneric.t) : Prop := {
  sc_poly : CrcWindowed._poly w = CrcGeneric._poly g;
  sc_width : CrcWindowed._width w = CrcGeneric._width g;
  sc_seed : CrcWindowed._default_seed w = CrcGeneric._default_seed g;
  sc_xor_out : CrcWindowed._xor_out w = CrcGeneric._xor_out g;
  sc_crc_lshift : CrcWindowed._crc_lshift w = CrcGeneric._crc_lshift g;
  sc_msb_lshift : CrcWindowed._msb_lshift w = CrcGeneric._msb_lshift g;
  sc_msbit_mask : CrcWindowed._msbit_mask w = CrcGeneric._msbit_mask g;
  sc_crc_mask : CrcWindowed._crc_mask w = CrcGeneric._crc_mask g;
  sc_ref_in : CrcWindowed._ref_in w = CrcGeneric._ref_in g;
  sc_ref_out : CrcWindowed._ref_out w = CrcGeneric._ref_out g
}.

(** Eight rounds of the MSB-first register, masked to [width] bits. *)
Definition msb_rounds8 (poly width x : Z) : Z :=
  Z.land (Nat.iter 8 (msb_round poly (2 ^ (width - 1))) x) (Z.ones width).

(** Eight rounds of the LSB-first register. *)
Definition lsb_rounds8 (poly x : Z) : Z := Nat.iter 8 (lsb_round poly) x.

(** The body of the loop of [_CrcMsbfTable.calculate]. *)
Definition msb_table_body (self : CrcMsbfTable.t) (remainder : Z) (value : byte)
  : result Z :=
  hi <- rshift remainder (CrcMsbfTable._msb_lshift self) ;;
  e <- getitem (CrcMsbfTable._table self) (Z.lxor hi (byte_val value)) ;;
  let remainder := Z.lxor (Z.shiftl remainder 8) e in
  Ok (Z.land remainder (CrcMsbfTable._result_mask self)).

(** The body of the loop of [_CrcLsbfTable.calculate]. *)
Definition lsb_table_body (self : CrcLsbfTable.t) (crc : Z) (byte : byte)
  : result Z :=
  e <- getitem (CrcLsbfTable._table self)
         (Z.lxor (Z.land crc 0xFF) (byte_val byte)) ;;
  let crc := Z.lxor (Z.shiftr crc 8) e in
  Ok (Z.land crc (CrcLsbfTable._result_mask self)).

(** The widths the table-driven engine of [create] handles: the LSB-first
    engine (reflected input) any width from 1, the MSB-first engine, which
    shifts the register right by [width - 8], any width from 8. *)
Definition table_width (ref : bool) (width : Z) : Prop :=
  if ref then 1 <= width else 8 <= width.

(** The byte of value [z mod 256]. *)
Definition to_byte (z : Z) : byte :=
  match Byte.of_N (Z.to_N (z mod 256)) with
  | Some b => b
  | None => x00
  end.

(** [v.to_bytes(k, "little")] for a value that fits in [k] bytes. *)
Definition le_bytes (k : nat) (v : Z) : list byte :=
  map (fun i => to_byte (Z.shiftr v (8 * Z.of_nat i))) (seq 0 k).

(** [v.to_bytes(k, "big")] for a value that fits in [k] bytes. *)
Definition be_bytes (k : nat) (v : Z) : list byte :=
  map (fun i => to_byte (Z.shiftr v (8 * (Z.of_nat k - 1 - Z.of_nat i))))
      (seq 0 k).

(** Byte-wise XOR of two messages of the same length. *)
Definition xor_bytes (a b : list byte) : list byte :=
  map (fun p => to_byte (Z.lxor (byte_val (fst p)) (byte_val (snd p))))
      (combine a b).

(** One round of a register of [W] bits for one bit of the message. *)
Definition bit_round (poly W reg : Z) (b : bool) : Z :=
  Z.land (Z.lxor (Z.shiftl reg 1)
            (sel (xorb (Z.testbit reg (W - 1)) b) poly))
         (Z.ones W).

(** Bit [p] of the message in the numbering of the windowed engine: bit 0 is
    the most significant bit of the first byte, after the byte is mirrored
    when [ref_in] is set. *)
Definition message_bit (ref_in : bool) (data : list byte) (p : Z) : bool :=
  let v := nth (Z.to_nat (p / 8)) (map byte_val data) 0 in
  Z.testbit (if ref_in then rev8 v else v) (7 - p mod 8).

(** The [k] leading bits of a byte value, most significant first. *)
Definition leading_bits (u : Z) (k : nat) : list bool :=
  map (fun i => Z.testbit u (7 - Z.of_nat i)) (seq 0 k).

(** The register of the windowed engine after the bits [start ..
    start + length - 1] of the buffer, from the seed [seed]. *)
Definition window_register (self : CrcWindowed.t) (data : list byte)
    (start length seed : Z) : Z :=
  fold_left
    (bit_round (Z.shiftl (CrcWindowed._poly self)
                  (CrcWindowed._crc_lshift self))
       (CrcWindowed._msb_lshift self + 8))
    (map (message_bit (CrcWindowed._ref_in self) data)
       (range2 start (start + length)))
    (Z.shiftl seed (CrcWindowed._crc_lshift self)).

(** * Properties *)

(** ** Known answer *)

(** C1: the engine built by
    [create(poly=0x04C11DB7, width=32, seed=0xFFFFFFFF, ref_in=True,
    ref_out=True, xor_out=0xFFFFFFFF)] computes 0xCBF43926 on the ASCII
    bytes of "123456789". *)
Theorem crc32_check_value :
  exists engine,
    create 0x04C11DB7 32 0xFFFFFFFF true true "" 0xFFFFFFFF = Ok engine /\
    table_calculate engine (ascii_bytes "123456789") = Ok 0xCBF43926.
Proof.
  eexists. split.
  - vm_compute. reflexivity.
  - vm_compute. reflexivity.
Qed.

(** ** Ranges and bits *)

Lemma in_range3_1 (a b x : Z) : a <= x < b -> In x (range3 a b 1).
Proof.
  intros H. unfold range3. apply in_map_iff.
  exists (Z.to_nat (x - a)). split; [lia|].
  apply in_seq. rewrite Z.div_1_r. lia.
Qed.

Lemma in_range (n x : Z) : 0 <= x < n -> In x (range n).
Proof. apply in_range3_1. Qed.

Lemma byte_val_range (b : byte) : 0 <= byte_val b < 256.
Proof.
  unfold byte_val. pose proof (Byte.to_N_bounded b). lia.
Qed.

Lemma testbit_above (a n j : Z) :
  0 <= a < 2 ^ n -> n <= j -> Z.testbit a j = false.
Proof.
  intros Ha Hj. destruct (Z.ltb_spec n 0) as [Hn|Hn].
  - rewrite Z.pow_neg_r in Ha by lia. lia.
  - rewrite <- (Z.mod_small a (2 ^ n)) by lia.
    apply Z.mod_pow2_bits_high. lia.
Qed.

Lemma bits_above_false (a n : Z) :
  0 <= n -> (forall j, n <= j -> Z.testbit a j = false) -> 0 <= a < 2 ^ n.
Proof.
  intros Hn H.
  assert (E : a = a mod 2 ^ n).
  { apply Z.bits_inj'. intros j Hj.
    destruct (Z.ltb_spec j n).
    - rewrite Z.mod_pow2_bits_low by lia. reflexivity.
    - rewrite Z.mod_pow2_bits_high by lia. apply H. lia. }
  rewrite E. apply Z.mod_pos_bound. apply Z.pow_pos_nonneg; lia.
Qed.

Lemma land_255_range (v : Z) : 0 <= Z.land v 0xFF < 256.
Proof.
  change 0xFF with (Z.ones 8). rewrite Z.land_ones by lia.
  change 256 with (2 ^ 8). apply Z.mod_pos_bound. lia.
Qed.

(** ** The byte-reversal table *)

Lemma REV8BITS_eq : _REV8BITS = map bit_reverse_byte (range 256).
Proof. vm_compute. reflexivity. Qed.

Lemma rev8_ok_all : forallb rev8_ok (range 256) = true.
Proof. vm_compute. reflexivity. Qed.

Lemma rev8_range (b : Z) : 0 <= b < 256 -> 0 <= rev8 b < 256.
Proof.
  intros Hb. pose proof rev8_ok_all as H.
  rewrite forallb_forall in H. specialize (H b (in_range _ _ Hb)).
  unfold rev8_ok in H. rewrite !andb_true_iff in H. lia.
Qed.

Lemma rev8_spec (b j : Z) :
  0 <= b < 256 -> 0 <= j -> Z.testbit (rev8 b) j = Z.testbit b (7 - j).
Proof.
  intros Hb Hj. destruct (Z.ltb_spec j 8) as [Hlt|Hge].
  - pose proof rev8_ok_all as H.
    rewrite forallb_forall in H. specialize (H b (in_range _ _ Hb)).
    unfold rev8_ok in H. rewrite !andb_true_iff in H.
    destruct H as [_ H]. rewrite forallb_forall in H.
    specialize (H j (in_range 8 j (conj Hj Hlt))).
    apply Bool.eqb_prop in H. exact H.
  - rewrite (testbit_above (rev8 b) 8 j) by (pose proof (rev8_range b Hb); lia).
    rewrite Z.testbit_neg_r by lia. reflexivity.
Qed.

(** The table lookups [_REV8BITS[i]] made by the module are within range. *)
Lemma REV8BITS_getitem (i : Z) :
  0 <= i < 256 -> getitem _REV8BITS i = Ok (rev8 i).
Proof.
  intros Hi. unfold getitem.
  replace (len _REV8BITS) with 256 by reflexivity.
  destruct (Z.ltb_spec i 0); [lia|].
  destruct (Z.leb_spec 0 i); [|lia].
  destruct (Z.ltb_spec i 256); [|lia]. reflexivity.
Qed.

(** ** [bit_reverse_n] *)

Lemma brn_loop (v : Z) (k : nat) :
  snd (Nat.iter k brn_body (0, v)) = Z.shiftr v (8 * Z.of_nat k) /\
  forall j, 0 <= j ->
    Z.testbit (fst (Nat.iter k brn_body (0, v))) j =
    if j <? 8 * Z.of_nat k then Z.testbit v (8 * Z.of_nat k - 1 - j) else false.
Proof.
  induction k as [|k [IHv IHr]].
  - change (Nat.iter 0 brn_body (0, v)) with (0, v).
    change (Z.of_nat 0) with 0. cbn [fst snd]. split.
    + rewrite Z.shiftr_0_r. reflexivity.
    + intros j Hj. destruct (Z.ltb_spec j (8 * 0)); [lia|]. apply Z.testbit_0_l.
  - rewrite Nat.iter_succ.
    destruct (Nat.iter k brn_body (0, v)) as [r v'] eqn:E.
    cbn [fst snd] in IHv, IHr. subst v'. unfold brn_body. cbn [fst snd]. split.
    + rewrite Z.shiftr_shiftr by lia. f_equal. lia.
    + intros j Hj. rewrite Z.lor_spec, Z.shiftl_spec by lia.
      pose proof (land_255_range (Z.shiftr v (8 * Z.of_nat k))) as Hb.
      rewrite rev8_spec by lia.
      destruct (Z.ltb_spec j 8) as [Hlt|Hge].
      * rewrite Z.testbit_neg_r by lia. rewrite orb_false_l.
        change 255 with (Z.ones 8). rewrite Z.land_spec, Z.testbit_ones by lia.
        destruct (Z.leb_spec 0 (7 - j)); [|lia].
        destruct (Z.ltb_spec (7 - j) 8); [|lia].
        rewrite Z.shiftr_spec by lia. rewrite andb_true_r.
        destruct (Z.ltb_spec j (8 * Z.of_nat (S k))); [|lia].
        f_equal. lia.
      * rewrite (Z.testbit_neg_r _ (7 - j)) by lia. rewrite orb_false_r.
        rewrite IHr by lia.
        destruct (Z.ltb_spec (j - 8) (8 * Z.of_nat k));
          destruct (Z.ltb_spec j (8 * Z.of_nat (S k))); try lia.
        f_equal. lia.
Qed.

(** Bit [j] of the mirrored value is bit [num_bits - 1 - j] of the value. *)
Lemma bit_reverse_n_spec (value num_bits j : Z) :
  0 <= j ->
  Z.testbit (bit_reverse_n value num_bits) j =
  Z.testbit value (num_bits - 1 - j).
Proof.
  intros Hj. unfold bit_reverse_n, repeat_n.
  fold brn_body.
  set (s := Z.land (8 - num_bits) 7).
  set (nb := Z.shiftr (num_bits + 7) 3).
  assert (Hs : s = (8 - num_bits) mod 8).
  { unfold s. change 7 with (Z.ones 3). rewrite Z.land_ones by lia. reflexivity. }
  assert (Hnb : nb = (num_bits + 7) / 8).
  { unfold nb. rewrite Z.shiftr_div_pow2 by lia. reflexivity. }
  destruct (brn_loop (Z.shiftl value s) (Z.to_nat nb)) as [_ H].
  rewrite H by lia. clear H.
  destruct (Z.ltb_spec nb 0) as [Hneg|Hpos].
  - replace (Z.to_nat nb) with 0%nat by lia. change (Z.of_nat 0) with 0.
    destruct (Z.ltb_spec j (8 * 0)); [lia|].
    rewrite Z.testbit_neg_r; [reflexivity|].
    subst nb. Z.div_mod_to_equations. lia.
  - rewrite Z2Nat.id by lia.
    assert (E : 8 * nb = num_bits + s).
    { subst s nb. Z.div_mod_to_equations. lia. }
    assert (0 <= s) by (subst s; Z.div_mod_to_equations; lia).
    destruct (Z.ltb_spec j (8 * nb)).
    + rewrite Z.shiftl_spec by lia. f_equal. lia.
    + rewrite Z.testbit_neg_r by lia. reflexivity.
Qed.

Lemma bit_reverse_n_range (value num_bits : Z) :
  0 <= num_bits -> 0 <= bit_reverse_n value num_bits < 2 ^ num_bits.
Proof.
  intros Hn. apply bits_above_false; [lia|].
  intros j Hj. rewrite bit_reverse_n_spec by lia.
  apply Z.testbit_neg_r. lia.
Qed.

Lemma bit_reverse_n_involutive (x n : Z) :
  0 <= x < 2 ^ n -> bit_reverse_n (bit_reverse_n x n) n = x.
Proof.
  intros Hx. apply Z.bits_inj'. intros j Hj.
  rewrite bit_reverse_n_spec by lia.
  destruct (Z.ltb_spec j n).
  - rewrite bit_reverse_n_spec by lia. f_equal. lia.
  - rewrite Z.testbit_neg_r by lia. symmetry. apply (testbit_above x n); lia.
Qed.

(** C6: [bit_reverse_n] is an involution on the values representable in
    [n] bits, for every [n] from 1 to 64. *)
Theorem bit_reverse_n_involution (x n : Z) :
  1 <= n <= 64 -> 0 <= x < 2 ^ n ->
  bit_reverse_n (bit_reverse_n x n) n = x.
Proof.
  intros _ Hx. apply bit_reverse_n_involutive. exact Hx.
Qed.

Lemma bit_reverse_n_involution_witness :
  (1 <= 5 <= 64 /\ 0 <= 0x1D < 2 ^ 5) /\
  bit_reverse_n (bit_reverse_n 0x1D 5) 5 = 0x1D.
Proof.
  split; [simpl; lia|].
  apply (bit_reverse_n_involution 0x1D 5); simpl; lia.
Defined.

(** ** The lookup tables in closed form *)

Lemma lxor_sel_xorb (a b : bool) (c : Z) :
  sel (xorb a b) c = Z.lxor (sel a c) (sel b c).
Proof.
  destruct a, b; unfold sel; cbn [xorb];
    rewrite ?Z.lxor_0_l, ?Z.lxor_0_r, ?Z.lxor_nilpotent; reflexivity.
Qed.

Lemma lxor_swap_inner (a b c d : Z) :
  Z.lxor (Z.lxor a b) (Z.lxor c d) = Z.lxor (Z.lxor a c) (Z.lxor b d).
Proof.
  rewrite !Z.lxor_assoc. f_equal.
  rewrite <- !Z.lxor_assoc. f_equal. apply Z.lxor_comm.
Qed.

Section Combination.

Variable c : Z -> Z.

Lemma combo_l_fold (n : Z) (l : list Z) (acc : Z) :
  fold_left (fun acc b => if Z.testbit n b then Z.lxor acc (c b) else acc) l acc
  = Z.lxor acc (combo c n l).
Proof.
  revert acc. induction l as [|b l IH]; intros acc; cbn [fold_left combo fold_right].
  - rewrite Z.lxor_0_r. reflexivity.
  - rewrite IH. fold (combo c n l). destruct (Z.testbit n b); unfold sel.
    + rewrite Z.lxor_assoc. reflexivity.
    + rewrite Z.lxor_0_l. reflexivity.
Qed.

Lemma combo_l_eq (n : Z) : combo_l c n = combo c n (range 8).
Proof. unfold combo_l. rewrite combo_l_fold. apply Z.lxor_0_l. Qed.

Lemma combo_r_eq (n : Z) : combo_r c n = combo c n (range 8).
Proof.
  unfold combo_r, combo. induction (range 8) as [|b l IH]; cbn [fold_right].
  - reflexivity.
  - rewrite IH. destruct (Z.testbit n b); unfold sel.
    + reflexivity.
    + rewrite Z.lxor_0_l. reflexivity.
Qed.

Lemma combo_lxor (i j : Z) (l : list Z) :
  combo c (Z.lxor i j) l = Z.lxor (combo c i l) (combo c j l).
Proof.
  induction l as [|b l IH]; cbn [combo fold_right].
  - reflexivity.
  - fold (combo c (Z.lxor i j) l) (combo c i l) (combo c j l).
    rewrite IH, Z.lxor_spec, lxor_sel_xorb. apply lxor_swap_inner.
Qed.

End Combination.

Lemma lxor_range (i j n : Z) :
  0 <= n -> 0 <= i < 2 ^ n -> 0 <= j < 2 ^ n -> 0 <= Z.lxor i j < 2 ^ n.
Proof.
  intros Hn Hi Hj. apply bits_above_false; [lia|].
  intros k Hk. rewrite Z.lxor_spec.
  rewrite (testbit_above i n k), (testbit_above j n k) by lia. reflexivity.
Qed.

Lemma length_range (n : Z) : List.length (range n) = Z.to_nat n.
Proof.
  unfold range, range3. rewrite length_map, length_seq, Z.div_1_r.
  f_equal. lia.
Qed.

Lemma nth_range (n i : Z) : 0 <= i < n -> nth (Z.to_nat i) (range n) 0 = i.
Proof.
  intros Hi. unfold range, range3. rewrite Z.div_1_r.
  change 0 with ((fun k => 0 + Z.of_nat k * 1) 0%nat) at 3.
  rewrite map_nth, seq_nth by lia. lia.
Qed.

Lemma getitem_map_range (f : Z -> Z) (i : Z) :
  0 <= i < 256 -> getitem (map f (range 256)) i = Ok (f i).
Proof.
  intros Hi. unfold getitem, len.
  rewrite length_map, length_range.
  destruct (Z.ltb_spec i 0); [lia|].
  destruct (Z.leb_spec 0 i); [|lia].
  destruct (Z.ltb_spec i (Z.of_nat (Z.to_nat 256))); [|lia].
  cbn [andb]. f_equal.
  rewrite (nth_indep _ 0 (f 0)) by (rewrite length_map, length_range; lia).
  rewrite map_nth, nth_range by lia. reflexivity.
Qed.

Lemma msb_table_while_eq (poly ms_bit result_mask : Z) :
  msb_table_while 9 poly ms_bit result_mask (repeat 0 256) ms_bit 1 =
  Ok (map (msb_entry poly ms_bit result_mask) (range 256)).
Proof.
  unfold msb_entry, msb_step.
  cbv -[msb_round Z.land Z.lxor]. reflexivity.
Qed.

Lemma lsb_table_while_eq (poly : Z) :
  lsb_table_while 9 poly (repeat 0 256) 1 0x80 =
  Ok (map (lsb_entry poly) (range 256)).
Proof.
  unfold lsb_entry.
  cbv -[lsb_round Z.lxor]. reflexivity.
Qed.

Lemma lshift_nonneg (a n : Z) : 0 <= n -> lshift a n = Ok (Z.shiftl a n).
Proof. intros H. unfold lshift. destruct (Z.ltb_spec n 0); [lia|reflexivity]. Qed.

Lemma lshift_neg (a n : Z) : n < 0 -> lshift a n = Raise ValueError.
Proof. intros H. unfold lshift. destruct (Z.ltb_spec n 0); [reflexivity|lia]. Qed.

Lemma rshift_nonneg (a n : Z) : 0 <= n -> rshift a n = Ok (Z.shiftr a n).
Proof. intros H. unfold rshift. destruct (Z.ltb_spec n 0); [lia|reflexivity]. Qed.

Lemma rshift_neg (a n : Z) : n < 0 -> rshift a n = Raise ValueError.
Proof. intros H. unfold rshift. destruct (Z.ltb_spec n 0); [reflexivity|lia]. Qed.

Lemma create_msb_table_eq (poly width : Z) :
  1 <= width ->
  create_msb_table poly width =
  Ok (map (msb_entry poly (Z.shiftl 1 (width - 1)) (Z.shiftl 1 width - 1))
          (range 256)).
Proof.
  intros Hw. unfold create_msb_table.
  rewrite !lshift_nonneg by lia. cbn [bind].
  apply msb_table_while_eq.
Qed.

(** The fuel given to the loops is never used up. *)
Lemma create_msb_table_terminates (poly width : Z) :
  create_msb_table poly width <> Raise OutOfFuel.
Proof.
  destruct (Z.ltb_spec width 1).
  - unfold create_msb_table. rewrite lshift_neg by lia. discriminate.
  - rewrite create_msb_table_eq by lia. discriminate.
Qed.

Lemma create_lsb_table_eq (poly width : Z) :
  create_lsb_table poly width =
  Ok (map (lsb_entry (bit_reverse_n poly width)) (range 256)).
Proof. unfold create_lsb_table. apply lsb_table_while_eq. Qed.

(** ** Table linearity *)

Lemma xor_linear_map (f : Z -> Z) :
  (forall i j, f (Z.lxor i j) = Z.lxor (f i) (f j)) ->
  xor_linear (map f (range 256)).
Proof.
  intros Hf i j Hi Hj. exists (f i), (f j).
  rewrite !getitem_map_range, Hf; try lia; [auto|].
  apply (lxor_range i j 8); lia.
Qed.

Lemma msb_entry_lxor (poly ms_bit result_mask i j : Z) :
  msb_entry poly ms_bit result_mask (Z.lxor i j) =
  Z.lxor (msb_entry poly ms_bit result_mask i)
         (msb_entry poly ms_bit result_mask j).
Proof. unfold msb_entry. rewrite !combo_l_eq. apply combo_lxor. Qed.

Lemma lsb_entry_lxor (poly i j : Z) :
  lsb_entry poly (Z.lxor i j) = Z.lxor (lsb_entry poly i) (lsb_entry poly j).
Proof. unfold lsb_entry. rewrite !combo_r_eq. apply combo_lxor. Qed.

(** C2: for every width of at least 1 and every polynomial that fits in
    [width] bits, [create_msb_table] and [create_lsb_table] return tables of
    256 entries that are XOR-linear. *)
Theorem tables_xor_linear (poly width : Z) :
  1 <= width -> 0 <= poly < 2 ^ width ->
  (exists table, create_msb_table poly width = Ok table /\
                 len table = 256 /\ xor_linear table) /\
  (exists table, create_lsb_table poly width = Ok table /\
                 len table = 256 /\ xor_linear table).
Proof.
  intros Hw _. split.
  - eexists. split; [apply create_msb_table_eq; exact Hw|]. split.
    + unfold len. rewrite length_map, length_range. reflexivity.
    + apply xor_linear_map. intros i j. apply msb_entry_lxor.
  - eexists. split; [apply create_lsb_table_eq|]. split.
    + unfold len. rewrite length_map, length_range. reflexivity.
    + apply xor_linear_map. intros i j. apply lsb_entry_lxor.
Qed.

Lemma tables_xor_linear_witness :
  (1 <= 16 /\ 0 <= 0x1021 < 2 ^ 16) /\
  (exists table, create_msb_table 0x1021 16 = Ok table /\
                 len table = 256 /\ xor_linear table) /\
  (exists table, create_lsb_table 0x1021 16 = Ok table /\
                 len table = 256 /\ xor_linear table).
Proof.
  split; [simpl; lia|].
  apply (tables_xor_linear 0x1021 16); simpl; lia.
Defined.

(** ** Engine construction *)

Lemma generic_init_ok (poly width seed : Z) (ref_in ref_out : bool)
    (xor_out : Z) (name : string) :
  0 <= width ->
  CrcGeneric.init poly width seed ref_in ref_out xor_out name =
  Ok {| CrcGeneric._poly := poly; CrcGeneric._width := width;
        CrcGeneric._default_seed := seed; CrcGeneric._xor_out := xor_out;
        CrcGeneric._result_mask := Z.shiftl 1 width - 1;
        CrcGeneric._crc_lshift := if width <? 8 then 8 - width else 0;
        CrcGeneric._msb_lshift := if width <? 8 then 0 else width - 8;
        CrcGeneric._msbit_mask :=
          Z.shiftl 1 (width + (if width <? 8 then 8 - width else 0) - 1);
        CrcGeneric._crc_mask :=
          Z.shiftl 1 (width + (if width <? 8 then 8 - width else 0)) - 1;
        CrcGeneric._ref_in := ref_in; CrcGeneric._ref_out := ref_out;
        CrcGeneric.name := name |}.
Proof.
  intros Hw. unfold CrcGeneric.init.
  rewrite lshift_nonneg by lia. cbn [bind].
  destruct (Z.ltb_spec width 8); rewrite !lshift_nonneg by lia; reflexivity.
Qed.

Lemma windowed_init_ok (params : CrcParams.t) (name : string) :
  let width := CrcParams.width params in
  0 <= width ->
  CrcWindowed.init params name =
  Ok {| CrcWindowed._poly := CrcParams.polynomial params;
        CrcWindowed._width := width;
        CrcWindowed._default_seed := CrcParams.seed params;
        CrcWindowed._xor_out := CrcParams.xor_out params;
        CrcWindowed._result_mask := Z.shiftl 1 width - 1;
        CrcWindowed._crc_lshift := if width <? 8 then 8 - width else 0;
        CrcWindowed._msb_lshift := if width <? 8 then 0 else width - 8;
        CrcWindowed._msbit_mask :=
          Z.shiftl 1 (width + (if width <? 8 then 8 - width else 0) - 1);
        CrcWindowed._crc_mask :=
          Z.shiftl 1 (width + (if width <? 8 then 8 - width else 0)) - 1;
        CrcWindowed._ref_in := CrcParams.reflect_in params;
        CrcWindowed._ref_out := CrcParams.reflect_out params;
        CrcWindowed.name := name |}.
Proof.
  intros width Hw. unfold CrcWindowed.init. fold width.
  rewrite lshift_nonneg by lia. cbn [bind].
  destruct (Z.ltb_spec width 8); rewrite !lshift_nonneg by lia;
    reflexivity.
Qed.

Lemma create_lsb_ok (poly width seed : Z) (ref_out : bool) (name : string)
    (xor_out : Z) :
  0 <= width ->
  create poly width seed true ref_out name xor_out =
  Ok (Lsbf {| CrcLsbfTable._table :=
                map (lsb_entry (bit_reverse_n poly width)) (range 256);
              CrcLsbfTable._seed := seed; CrcLsbfTable._width := width;
              CrcLsbfTable._xor_out := xor_out;
              CrcLsbfTable._result_mask := Z.shiftl 1 width - 1;
              CrcLsbfTable._reverse_result := negb ref_out;
              CrcLsbfTable.name := name |}).
Proof.
  intros Hw. unfold create. rewrite create_lsb_table_eq. cbn [bind].
  unfold CrcLsbfTable.init. rewrite lshift_nonneg by lia.
  destruct ref_out; reflexivity.
Qed.

Lemma create_msb_ok (poly width seed : Z) (ref_out : bool) (name : string)
    (xor_out : Z) :
  1 <= width ->
  create poly width seed false ref_out name xor_out =
  Ok (Msbf {| CrcMsbfTable._table :=
                map (msb_entry poly (Z.shiftl 1 (width - 1))
                       (Z.shiftl 1 width - 1)) (range 256);
              CrcMsbfTable._seed := seed; CrcMsbfTable._width := width;
              CrcMsbfTable._xor_out := xor_out;
              CrcMsbfTable._result_mask := Z.shiftl 1 width - 1;
              CrcMsbfTable._msb_lshift := width - 8;
              CrcMsbfTable._reverse_result := ref_out;
              CrcMsbfTable.name := name |}).
Proof.
  intros Hw. unfold create. rewrite create_msb_table_eq by lia. cbn [bind].
  unfold CrcMsbfTable.init. rewrite lshift_nonneg by lia. reflexivity.
Qed.

Lemma raise_or_ok (P : Prop) (A : Type) (r : result A) (e : exn) :
  P \/ ~ P -> (P -> r = Raise e) -> (~ P -> exists a, r = Ok a) ->
  (P <-> r = Raise e) /\ (~ P <-> exists a, r = Ok a).
Proof.
  intros D H1 H2. split; split.
  - exact H1.
  - intros Hr. destruct D as [HP|HP]; [exact HP|].
    destruct (H2 HP) as [a Ha]. congruence.
  - exact H2.
  - intros [a Ha] HP. rewrite (H1 HP) in Ha. discriminate.
Qed.

(** C9, as stated, fails: a polynomial, seed and xor_out wider than the
    8 bits of the width are accepted by all three constructors. *)
Lemma wide_parameters_accepted :
  invalid_configuration 0x1FF 8 0x100 0x1000 /\
  (exists e, create 0x1FF 8 0x100 true true "" 0x1000 = Ok e) /\
  (exists e, create_generic 0x1FF 8 0x100 true true "" 0x1000 = Ok e) /\
  (exists e, create_windowed_todo
               {| CrcParams.polynomial := 0x1FF; CrcParams.width := 8;
                  CrcParams.seed := 0x100; CrcParams.reflect_in := true;
                  CrcParams.reflect_out := true; CrcParams.xor_out := 0x1000;
                  CrcParams.name := ""; CrcParams.check := None |} ""
             = Ok e).
Proof.
  split; [|split; [|split]].
  - right. left. simpl. lia.
  - eexists. apply create_lsb_ok. lia.
  - eexists. unfold create_generic. apply generic_init_ok. lia.
  - eexists. unfold create_windowed_todo. apply windowed_init_ok. simpl. lia.
Qed.

(** C9 (amended): construction checks nothing but its own shift counts.
    [create_generic] and the windowed constructor raise [ValueError] exactly
    when the width is negative; [create] raises [ValueError] exactly when the
    width is negative or, with [ref_in] false, zero; every other parameter
    set is accepted, whatever the polynomial, seed and xor_out. *)
Theorem construction_rejects_only_bad_shift_counts
    (poly width seed xor_out : Z) (ref_in ref_out : bool) (name : string)
    (params : CrcParams.t) :
  (create_rejects width ref_in <->
     create poly width seed ref_in ref_out name xor_out = Raise ValueError) /\
  (~ create_rejects width ref_in <->
     exists e, create poly width seed ref_in ref_out name xor_out = Ok e) /\
  (width < 0 <->
     create_generic poly width seed ref_in ref_out name xor_out
     = Raise ValueError) /\
  (0 <= width <->
     exists e, create_generic poly width seed ref_in ref_out name xor_out
               = Ok e) /\
  (CrcParams.width params < 0 <->
     create_windowed_todo params name = Raise ValueError) /\
  (0 <= CrcParams.width params <->
     exists e, create_windowed_todo params name = Ok e).
Proof.
  assert (C : (create_rejects width ref_in <->
                 create poly width seed ref_in ref_out name xor_out
                 = Raise ValueError) /\
              (~ create_rejects width ref_in <->
                 exists e, create poly width seed ref_in ref_out name xor_out
                           = Ok e)).
  { apply raise_or_ok.
    - unfold create_rejects. destruct ref_in; lia.
    - unfold create_rejects, create. destruct ref_in; intros H.
      + rewrite create_lsb_table_eq. cbn [bind]. unfold CrcLsbfTable.init.
        rewrite lshift_neg by lia. reflexivity.
      + unfold create_msb_table. rewrite lshift_neg by lia. reflexivity.
    - unfold create_rejects. destruct ref_in; intros H; eexists.
      + apply create_lsb_ok. lia.
      + apply create_msb_ok. lia. }
  assert (G : (width < 0 <->
                 create_generic poly width seed ref_in ref_out name xor_out
                 = Raise ValueError) /\
              (~ width < 0 <->
                 exists e, create_generic poly width seed ref_in ref_out name
                             xor_out = Ok e)).
  { apply raise_or_ok.
    - lia.
    - intros H. unfold create_generic, CrcGeneric.init.
      rewrite lshift_neg by lia. reflexivity.
    - intros H. eexists. unfold create_generic. apply generic_init_ok. lia. }
  assert (W : (CrcParams.width params < 0 <->
                 create_windowed_todo params name = Raise ValueError) /\
              (~ CrcParams.width params < 0 <->
                 exists e, create_windowed_todo params name = Ok e)).
  { apply raise_or_ok.
    - lia.
    - intros H. unfold create_windowed_todo, CrcWindowed.init.
      rewrite lshift_neg by lia. reflexivity.
    - intros H. eexists. unfold create_windowed_todo.
      apply windowed_init_ok. lia. }
  destruct C as [C1 C2], G as [G1 G2], W as [W1 W2].
  repeat split; try tauto; try (apply C1); try (apply C2); try (apply G1);
    try (apply W1).
  - intros H. apply G2. lia.
  - intros H. apply G2 in H. lia.
  - intros H. apply W2. lia.
  - intros H. apply W2 in H. lia.
Qed.

(** ** Empty input *)

(** The range check of the windowed engine rejects every window of the
    empty byte string. *)
Lemma windowed_calculate_nil (self : CrcWindowed.t) (start_bit : Z)
    (length_bits seed : option Z) :
  CrcWindowed.calculate self [] start_bit length_bits seed
  = ([], Raise ValueError).
Proof.
  unfold CrcWindowed.calculate.
  change (_BYTEBITS * len (@nil byte)) with 0.
  rewrite Z.geb_leb.
  destruct (Z.leb_spec 0 start_bit) as [H|H].
  - reflexivity.
  - destruct (Z.ltb_spec start_bit 0); [reflexivity|lia].
Qed.

(** C10: on the empty byte string the windowed engine raises [ValueError]
    for every [start_bit], [length_bits] and [seed] (also the defaults
    [start_bit = 0], [length_bits = None]), having printed nothing: the test
    [start_bit >= num_input_bits] or [start_bit < 0] always fires when
    [num_input_bits] is 0, so no CRC value is returned for empty input. *)
Theorem windowed_empty_input_raises (self : CrcWindowed.t) (start_bit : Z)
    (length_bits seed : option Z) :
  CrcWindowed.calculate self [] start_bit length_bits seed
  = ([], Raise ValueError).
Proof.
  unfold CrcWindowed.calculate.
  change (_BYTEBITS * len (@nil byte)) with 0.
  rewrite Z.geb_leb.
  destruct (Z.leb_spec 0 start_bit) as [H|H]; [reflexivity|].
  destruct (Z.ltb_spec start_bit 0); [reflexivity|lia].
Qed.

Lemma shiftr_shiftl_same (a n : Z) : 0 <= n -> Z.shiftr (Z.shiftl a n) n = a.
Proof.
  intros Hn. rewrite Z.shiftr_shiftl_l by lia.
  replace (n - n) with 0 by lia. apply Z.shiftl_0_r.
Qed.

Lemma generic_crc_lshift_nonneg (width : Z) :
  0 <= width -> 0 <= (if width <? 8 then 8 - width else 0).
Proof. intros H. destruct (Z.ltb_spec width 8); lia. Qed.

(** C7, as stated, fails: a generic engine with [ref_out] set returns the
    reflected seed on empty input, here 0x80 for the seed 0x01, and not
    [seed ^ xor_out]. *)
Lemma empty_input_not_seed_xor_out :
  exists engine,
    create_generic 0x07 8 0x01 false true "" 0 = Ok engine /\
    CrcGeneric.calculate engine [] None = Ok 0x80 /\
    0x80 <> Z.lxor 0x01 0.
Proof.
  eexists. split; [vm_compute; reflexivity|].
  split; [vm_compute; reflexivity|]. vm_compute. discriminate.
Qed.

(** C7 (amended): for a width of at least 1 and a seed that fits in it,
    every engine built by [create], [create_generic] or
    [create_generic_lsbf] returns, on the empty byte sequence, the seed XOR
    [xor_out] when [ref_out] is false and the seed bit-reversed to [width]
    bits XOR [xor_out] when [ref_out] is true, whatever [ref_in] and the
    engine kind (the generic engines use the seed passed to [calculate] when
    there is one); the windowed engine returns no value on the empty byte
    sequence but raises [ValueError]. *)
Theorem empty_input_result (poly width seed xor_out : Z)
    (ref_in ref_out : bool) (name : string) (params : CrcParams.t) :
  1 <= width -> 0 <= seed < 2 ^ width -> 0 <= CrcParams.width params ->
  (exists e, create poly width seed ref_in ref_out name xor_out = Ok e /\
     table_calculate e [] = Ok (Z.lxor (reported ref_out width seed) xor_out)) /\
  (exists e, create_generic poly width seed ref_in ref_out name xor_out = Ok e /\
     CrcGeneric.calculate e [] None
     = Ok (Z.lxor (reported ref_out width seed) xor_out) /\
     forall s, CrcGeneric.calculate e [] (Some s)
               = Ok (Z.lxor (reported ref_out width s) xor_out)) /\
  (exists e, create_generic_lsbf poly width seed ref_in ref_out name xor_out
             = Ok e /\
     CrcGenericLsbf.calculate e [] None
     = Z.lxor (reported ref_out width seed) xor_out /\
     forall s, CrcGenericLsbf.calculate e [] (Some s)
               = Z.lxor (reported ref_out width s) xor_out) /\
  (exists e, create_windowed_todo params name = Ok e /\
     forall start_bit length_bits s,
       CrcWindowed.calculate e [] start_bit length_bits s
       = ([], Raise ValueError)).
Proof.
  intros Hw Hseed Hpw. split; [|split; [|split]].
  - destruct ref_in.
    + eexists. split; [apply create_lsb_ok; lia|].
      unfold table_calculate, CrcLsbfTable.calculate, reported.
      cbn [for_each bind CrcLsbfTable._seed CrcLsbfTable._width
           CrcLsbfTable._reverse_result CrcLsbfTable._xor_out].
      destruct ref_out; cbn [negb]; [reflexivity|].
      rewrite bit_reverse_n_involutive by exact Hseed. reflexivity.
    + eexists. split; [apply create_msb_ok; lia|].
      unfold table_calculate, CrcMsbfTable.calculate, reported.
      cbn [for_each bind CrcMsbfTable._seed CrcMsbfTable._width
           CrcMsbfTable._reverse_result CrcMsbfTable._xor_out].
      reflexivity.
  - eexists. split; [unfold create_generic; apply generic_init_ok; lia|].
    pose proof (generic_crc_lshift_nonneg width ltac:(lia)) as HL.
    assert (E : forall s,
      CrcGeneric.calculate
        {| CrcGeneric._poly := poly; CrcGeneric._width := width;
           CrcGeneric._default_seed := seed; CrcGeneric._xor_out := xor_out;
           CrcGeneric._result_mask := Z.shiftl 1 width - 1;
           CrcGeneric._crc_lshift := if width <? 8 then 8 - width else 0;
           CrcGeneric._msb_lshift := if width <? 8 then 0 else width - 8;
           CrcGeneric._msbit_mask :=
             Z.shiftl 1 (width + (if width <? 8 then 8 - width else 0) - 1);
           CrcGeneric._crc_mask :=
             Z.shiftl 1 (width + (if width <? 8 then 8 - width else 0)) - 1;
           CrcGeneric._ref_in := ref_in; CrcGeneric._ref_out := ref_out;
           CrcGeneric.name := name |} [] s
      = Ok (Z.lxor (reported ref_out width
                      match s with Some s => s | None => seed end) xor_out)).
    { intros s. unfold CrcGeneric.calculate, reported.
      cbn [CrcGeneric._crc_lshift CrcGeneric._poly CrcGeneric._default_seed
           CrcGeneric._ref_out CrcGeneric._width CrcGeneric._xor_out].
      rewrite !lshift_nonneg by lia. cbn [bind for_each].
      rewrite rshift_nonneg by lia. cbn [bind].
      rewrite shiftr_shiftl_same by lia. reflexivity. }
    split; [apply (E None)|]. intros s. apply (E (Some s)).
  - unfold create_generic_lsbf, CrcGenericLsbf.init.
    rewrite !lshift_nonneg by lia. cbn [bind].
    eexists. split; [reflexivity|]. split; [reflexivity|].
    intros s. reflexivity.
  - eexists. split; [unfold create_windowed_todo; apply windowed_init_ok; lia|].
    intros. apply windowed_calculate_nil.
Qed.

Lemma empty_input_result_witness :
  (1 <= 8 /\ 0 <= 0x01 < 2 ^ 8 /\ 0 <= CrcParams.width crc8_params) /\
  exists e, create 0x07 8 0x01 false true "" 0 = Ok e /\
            table_calculate e [] = Ok (Z.lxor (reported true 8 0x01) 0).
Proof.
  split; [cbn; lia|].
  destruct (empty_input_result 0x07 8 0x01 0 false true "" crc8_params)
    as [H _]; [lia | cbn; lia | cbn; lia | exact H].
Defined.

(** ** Bit-level facts about the shift register *)

Ltac zcmp :=
  repeat match goal with
         | |- context [?a <=? ?b] => destruct (Z.leb_spec a b)
         | |- context [?a <? ?b] => destruct (Z.ltb_spec a b)
         | |- context [?a =? ?b] => destruct (Z.eqb_spec a b)
         end;
  try lia.

Ltac boolsimp :=
  cbn [andb orb xorb negb];
  rewrite ?andb_false_r, ?andb_true_r, ?orb_false_r, ?xorb_false_r,
    ?xorb_false_l;
  try reflexivity.

Lemma shiftl_1_pow2 (n : Z) : 0 <= n -> Z.shiftl 1 n = 2 ^ n.
Proof. intros H. rewrite Z.shiftl_1_l. reflexivity. Qed.

Lemma mask_ones (n : Z) : 0 <= n -> Z.shiftl 1 n - 1 = Z.ones n.
Proof.
  intros H. rewrite Z.ones_equiv, Z.shiftl_1_l. lia.
Qed.

Lemma land_pow2 (x k : Z) :
  0 <= k -> Z.land x (2 ^ k) = if Z.testbit x k then 2 ^ k else 0.
Proof.
  intros Hk. apply Z.bits_inj'. intros j Hj.
  rewrite Z.land_spec, Z.pow2_bits_eqb by lia.
  destruct (Z.eqb_spec k j) as [->|Hne].
  - destruct (Z.testbit x j); [|rewrite Z.testbit_0_l; reflexivity].
    rewrite Z.pow2_bits_eqb, Z.eqb_refl by lia. reflexivity.
  - rewrite andb_false_r.
    destruct (Z.testbit x k); [|rewrite Z.testbit_0_l; reflexivity].
    rewrite Z.pow2_bits_eqb by lia.
    destruct (Z.eqb_spec k j); [lia|reflexivity].
Qed.

Lemma truthy_land_pow2 (x k : Z) :
  0 <= k -> truthy (Z.land x (2 ^ k)) = Z.testbit x k.
Proof.
  intros Hk. rewrite land_pow2 by lia. unfold truthy.
  destruct (Z.testbit x k).
  - assert (0 < 2 ^ k) by (apply Z.pow_pos_nonneg; lia).
    destruct (Z.eqb_spec (2 ^ k) 0); [lia|reflexivity].
  - reflexivity.
Qed.

(** A round of the MSB-first register whose top bit is bit [k]: shift left
    and add the polynomial when bit [k] was set. *)
Lemma msb_round_eq (poly k x : Z) :
  0 <= k ->
  msb_round poly (2 ^ k) x = Z.lxor (Z.shiftl x 1) (sel (Z.testbit x k) poly).
Proof.
  intros Hk. unfold msb_round. rewrite truthy_land_pow2 by lia.
  destruct (Z.testbit x k); unfold sel;
    [reflexivity | rewrite Z.lxor_0_r; reflexivity].
Qed.

Lemma lsb_round_eq (poly x : Z) :
  lsb_round poly x = Z.lxor (Z.shiftr x 1) (sel (Z.testbit x 0) poly).
Proof.
  unfold lsb_round. change 1 with (2 ^ 0) at 1.
  rewrite truthy_land_pow2 by lia.
  destruct (Z.testbit x 0); unfold sel;
    [reflexivity | rewrite Z.lxor_0_r; reflexivity].
Qed.

Lemma testbit_sel (t : bool) (c j : Z) :
  Z.testbit (sel t c) j = t && Z.testbit c j.
Proof. destruct t; unfold sel; [reflexivity | apply Z.testbit_0_l]. Qed.

Lemma msb_round_lxor (poly k x y : Z) :
  0 <= k ->
  msb_round poly (2 ^ k) (Z.lxor x y) =
  Z.lxor (msb_round poly (2 ^ k) x) (msb_round poly (2 ^ k) y).
Proof.
  intros Hk. rewrite !msb_round_eq by lia.
  rewrite Z.lxor_spec, lxor_sel_xorb, Z.shiftl_lxor. apply lxor_swap_inner.
Qed.

Lemma lsb_round_lxor (poly x y : Z) :
  lsb_round poly (Z.lxor x y) = Z.lxor (lsb_round poly x) (lsb_round poly y).
Proof.
  rewrite !lsb_round_eq.
  rewrite Z.lxor_spec, lxor_sel_xorb, Z.shiftr_lxor. apply lxor_swap_inner.
Qed.

Lemma iter_lxor (f : Z -> Z) (n : nat) :
  (forall x y, f (Z.lxor x y) = Z.lxor (f x) (f y)) ->
  forall x y, Nat.iter n f (Z.lxor x y) = Z.lxor (Nat.iter n f x) (Nat.iter n f y).
Proof.
  intros Hf x y. induction n as [|n IH].
  - reflexivity.
  - rewrite !Nat.iter_succ, IH. apply Hf.
Qed.

(** Masking after every round or once after the last one is the same. *)
Lemma msb_round_land_ones (poly W x : Z) :
  1 <= W ->
  Z.land (msb_round poly (2 ^ (W - 1)) (Z.land x (Z.ones W))) (Z.ones W) =
  Z.land (msb_round poly (2 ^ (W - 1)) x) (Z.ones W).
Proof.
  intros HW. rewrite !msb_round_eq by lia.
  apply Z.bits_inj'. intros j Hj.
  rewrite !Z.land_spec, !Z.lxor_spec, !testbit_sel, !Z.shiftl_spec by lia.
  rewrite !Z.land_spec, (Z.testbit_ones W (W - 1)), (Z.testbit_ones W j) by lia.
  zcmp; boolsimp.
  destruct (Z.eq_dec j 0) as [->|Hne].
  - rewrite !Z.testbit_neg_r by lia. reflexivity.
  - rewrite Z.testbit_ones by lia. zcmp; boolsimp.
Qed.

Lemma iter_msb_round_mask (poly W : Z) (n : nat) (x : Z) :
  1 <= W ->
  Nat.iter n (fun c => Z.land (msb_round poly (2 ^ (W - 1)) c) (Z.ones W)) x =
  if Nat.eqb n 0 then x
  else Z.land (Nat.iter n (msb_round poly (2 ^ (W - 1))) x) (Z.ones W).
Proof.
  intros HW. induction n as [|n IH].
  - reflexivity.
  - rewrite !Nat.iter_succ, IH. cbn [Nat.eqb].
    destruct n as [|n]; [reflexivity|]. cbn [Nat.eqb].
    apply msb_round_land_ones. exact HW.
Qed.

(** ** Outcome of a traced computation *)

Lemma snd_tbind {A B : Type} (m : traced A) (f : A -> traced B) :
  snd (tbind m f) = bind (snd m) (fun a => snd (f a)).
Proof.
  destruct m as [out [a|e]]; cbn [tbind snd bind]; [|reflexivity].
  destruct (f a); reflexivity.
Qed.

Lemma for_each_ext {A S : Type} (l : list A) (f g : S -> A -> result S) (s : S) :
  (forall s a, In a l -> f s a = g s a) -> for_each l f s = for_each l g s.
Proof.
  revert s. induction l as [|a l IH]; intros s H; cbn [for_each].
  - reflexivity.
  - rewrite (H s a) by (left; reflexivity).
    destruct (g s a); cbn [bind]; [|reflexivity].
    apply IH. intros s' a' Hin. apply H. right. exact Hin.
Qed.

Lemma snd_tfor_each {A S : Type} (l : list A) (body : S -> A -> traced S) (s : S) :
  snd (tfor_each l body s) = for_each l (fun s a => snd (body s a)) s.
Proof.
  revert s. induction l as [|a l IH]; intros s; cbn [tfor_each for_each].
  - reflexivity.
  - rewrite snd_tbind. destruct (snd (body s a)); cbn [bind]; [apply IH|reflexivity].
Qed.

Lemma snd_rounds (self : CrcWindowed.t) (poly : Z) (n : nat) (crc : Z) :
  snd (CrcWindowed.rounds self poly n crc) =
  Ok (Nat.iter n
        (fun c => Z.land (msb_round poly (CrcWindowed._msbit_mask self) c)
                         (CrcWindowed._crc_mask self)) crc).
Proof.
  revert crc. induction n as [|n IH]; intros crc.
  - reflexivity.
  - cbn [CrcWindowed.rounds]. rewrite snd_tbind. cbn [print snd bind].
    rewrite IH, Nat.iter_succ_r. reflexivity.
Qed.

Lemma snd_step (self : CrcWindowed.t) (data : list byte) (poly : Z)
    (first_byte first_bit last_byte last_bit end_mask crc index : Z) :
  snd (CrcWindowed.step self data poly first_byte first_bit last_byte last_bit
         end_mask crc index) =
  (byte <- getitem (map byte_val data) index ;;
   let '(byte, block_width) :=
     window_byte (CrcWindowed._ref_in self) first_byte first_bit last_byte
       last_bit end_mask index byte in
   b <- lshift byte (CrcWindowed._msb_lshift self) ;;
   Ok (Nat.iter (Z.to_nat block_width)
         (fun c => Z.land (msb_round poly (CrcWindowed._msbit_mask self) c)
                          (CrcWindowed._crc_mask self))
         (Z.lxor crc b))).
Proof.
  unfold CrcWindowed.step, window_byte. rewrite snd_tbind. cbn [lift snd].
  destruct (getitem (map byte_val data) index) as [byte|e]; cbn [bind];
    [|reflexivity].
  destruct (index =? last_byte), (index =? first_byte);
    rewrite snd_tbind; cbn [lift snd];
    match goal with
    | |- context [lshift ?x ?y] => destruct (lshift x y) as [b|e]
    end; cbn [bind]; try reflexivity;
    rewrite !snd_tbind; cbn [lift snd bind print];
    rewrite !snd_tbind, snd_rounds; cbn [bind]; rewrite snd_tbind;
    reflexivity.
Qed.

(** ** The windowed engine *)

Lemma Ok_inj {A : Type} (a b : A) : Ok a = Ok b -> a = b.
Proof. intros H. injection H as H. exact H. Qed.

Lemma windowed_init_wf (params : CrcParams.t) (name : string)
    (self : CrcWindowed.t) :
  CrcWindowed.init params name = Ok self -> windowed_wf self.
Proof.
  intros H.
  destruct (Z.ltb_spec (CrcParams.width params) 0) as [Hneg|Hpos].
  - unfold CrcWindowed.init in H. rewrite lshift_neg in H by lia. discriminate.
  - rewrite windowed_init_ok in H by lia. apply Ok_inj in H. subst self.
    destruct (Z.ltb_spec (CrcParams.width params) 8);
      constructor;
      cbv [CrcWindowed._crc_lshift CrcWindowed._msb_lshift CrcWindowed._width
           CrcWindowed._msbit_mask CrcWindowed._crc_mask];
      try lia;
      rewrite ?mask_ones, ?shiftl_1_pow2 by lia; f_equal; lia.
Qed.

Lemma lowzero_weaken (k k' x : Z) : lowzero k x -> k' <= k -> lowzero k' x.
Proof. intros H Hk j Hj. apply H. lia. Qed.

Lemma lowzero_shiftl (k n x : Z) :
  0 <= n -> lowzero k x -> lowzero (k + n) (Z.shiftl x n).
Proof.
  intros Hn H j Hj. rewrite Z.shiftl_spec by lia.
  destruct (Z.ltb_spec (j - n) 0); [apply Z.testbit_neg_r; lia|].
  apply H. lia.
Qed.

Lemma lowzero_lxor (k x y : Z) :
  lowzero k x -> lowzero k y -> lowzero k (Z.lxor x y).
Proof.
  intros Hx Hy j Hj. rewrite Z.lxor_spec, Hx, Hy by lia. reflexivity.
Qed.

Lemma lowzero_land_ones (k x : Z) :
  0 <= k -> lowzero k x <-> Z.land x (Z.shiftl 1 k - 1) = 0.
Proof.
  intros Hk. rewrite mask_ones by lia. split.
  - intros H. apply Z.bits_inj'. intros j Hj.
    rewrite Z.land_spec, Z.testbit_ones, Z.testbit_0_l by lia. zcmp; boolsimp.
    rewrite H by lia. reflexivity.
  - intros H j Hj.
    assert (E : Z.testbit (Z.land x (Z.ones k)) j = false)
      by (rewrite H; apply Z.testbit_0_l).
    rewrite Z.land_spec, Z.testbit_ones in E by lia.
    destruct (Z.leb_spec 0 j), (Z.ltb_spec j k); try lia.
    rewrite andb_true_r in E. exact E.
Qed.

Lemma end_mask_ok (last_bit : Z) :
  last_bit <= 7 ->
  _calc_end_mask last_bit
  = Ok (Z.land (Z.lnot (Z.shiftl 1 (7 - last_bit) - 1)) 0xFF).
Proof.
  intros H. unfold _calc_end_mask. rewrite lshift_nonneg by lia. reflexivity.
Qed.

Lemma lowzero_end_mask (last_bit byte : Z) :
  last_bit <= 7 ->
  lowzero (7 - last_bit)
    (Z.land byte (Z.land (Z.lnot (Z.shiftl 1 (7 - last_bit) - 1)) 0xFF)).
Proof.
  intros H j Hj. rewrite mask_ones by lia.
  rewrite !Z.land_spec, Z.lnot_spec, Z.testbit_ones by lia.
  zcmp; boolsimp.
Qed.

Lemma window_byte_low (ref_in : bool)
    (first_byte first_bit last_byte last_bit index byte : Z) :
  0 <= first_bit -> last_bit <= 7 ->
  let '(byte', block_width) :=
    window_byte ref_in first_byte first_bit last_byte last_bit
      (Z.land (Z.lnot (Z.shiftl 1 (7 - last_bit) - 1)) 0xFF) index byte in
  lowzero (8 - block_width) byte'.
Proof.
  intros Hf Hl. unfold window_byte.
  destruct (index =? last_byte), (index =? first_byte).
  - replace (8 - (last_bit + 1 - first_bit)) with (7 - last_bit + first_bit)
      by lia.
    apply lowzero_shiftl; [lia|]. apply lowzero_end_mask. lia.
  - replace (8 - (last_bit + 1)) with (7 - last_bit) by lia.
    apply lowzero_end_mask. lia.
  - replace (8 - (8 - first_bit)) with (0 + first_bit) by lia.
    apply lowzero_shiftl; [lia|]. intros j Hj. lia.
  - intros j Hj. lia.
Qed.

Lemma wround_low (poly W L k x : Z) :
  1 <= W -> lowzero L poly -> lowzero k x ->
  lowzero (Z.min (k + 1) L)
    (Z.land (msb_round poly (2 ^ (W - 1)) x) (Z.ones W)).
Proof.
  intros HW Hp Hx j Hj. rewrite msb_round_eq by lia.
  rewrite Z.land_spec, Z.lxor_spec, testbit_sel, Z.shiftl_spec by lia.
  rewrite (Hp j) by lia.
  destruct (Z.eq_dec j 0) as [->|Hne].
  - rewrite Z.testbit_neg_r by lia. boolsimp.
  - rewrite Hx by lia. boolsimp.
Qed.

Lemma iter_wround_low (poly W L : Z) (n : nat) (k x : Z) :
  1 <= W -> lowzero L poly -> lowzero k x ->
  lowzero (Z.min (k + Z.of_nat n) L)
    (Nat.iter n (fun c => Z.land (msb_round poly (2 ^ (W - 1)) c) (Z.ones W)) x).
Proof.
  intros HW Hp Hx. induction n as [|n IH].
  - apply (lowzero_weaken k); [exact Hx|lia].
  - rewrite Nat.iter_succ.
    eapply lowzero_weaken; [apply (wround_low poly W L _ _ HW Hp IH)|lia].
Qed.

Lemma getitem_data (data : list byte) (index : Z) :
  0 <= index < len data ->
  exists byte, getitem (map byte_val data) index = Ok byte /\ 0 <= byte < 256.
Proof.
  intros Hi. unfold getitem, len in *. rewrite length_map.
  destruct (Z.ltb_spec index 0); [lia|].
  destruct (Z.leb_spec 0 index); [|lia].
  destruct (Z.ltb_spec index (Z.of_nat (List.length data))); [|lia].
  eexists. split; [reflexivity|].
  destruct (nth_in_or_default (Z.to_nat index) (map byte_val data) 0) as [Hin | Hdef];
    [|rewrite Hdef; lia].
  apply in_map_iff in Hin. destruct Hin as [b [<- _]]. apply byte_val_range.
Qed.

Section WindowedStep.

Variable self : CrcWindowed.t.
Hypothesis Hwf : windowed_wf self.
Variable data : list byte.
Variable poly : Z.
Hypothesis Hpoly : lowzero (CrcWindowed._crc_lshift self) poly.
Variables first_byte first_bit last_byte last_bit : Z.
Hypothesis Hfirst : 0 <= first_bit.
Hypothesis Hlast : last_bit <= 7.

Let end_mask := Z.land (Z.lnot (Z.shiftl 1 (7 - last_bit) - 1)) 0xFF.

Let body (crc index : Z) : result Z :=
  snd (CrcWindowed.step self data poly first_byte first_bit last_byte last_bit
         end_mask crc index).

(** A step of the loop succeeds and leaves the bits below the alignment
    shift clear. *)
Lemma windowed_step_ok (crc index : Z) :
  0 <= index < len data ->
  lowzero (CrcWindowed._crc_lshift self) crc ->
  exists crc', body crc index = Ok crc' /\
               lowzero (CrcWindowed._crc_lshift self) crc'.
Proof.
  intros Hi Hcrc. unfold body. rewrite snd_step.
  destruct (getitem_data data index Hi) as [byte [-> Hbyte]]. cbn [bind].
  pose proof (window_byte_low (CrcWindowed._ref_in self) first_byte first_bit
                last_byte last_bit index byte Hfirst Hlast) as Hlow.
  fold end_mask in Hlow.
  destruct (window_byte _ _ _ _ _ _ _ _) as [byte' bw].
  destruct Hwf as [HL HM H1 HW Hms Hcm].
  rewrite lshift_nonneg by lia. cbn [bind].
  eexists. split; [reflexivity|].
  rewrite Hms, Hcm.
  replace (CrcWindowed._msb_lshift self + 7)
    with (CrcWindowed._msb_lshift self + 8 - 1) by lia.
  destruct H1 as [H0|H0].
  - rewrite H0. intros j Hj. lia.
  - rewrite H0, Z.shiftl_0_r.
    eapply lowzero_weaken.
    + apply (iter_wround_low poly (0 + 8) (CrcWindowed._crc_lshift self)
               (Z.to_nat bw)
               (Z.min (CrcWindowed._crc_lshift self) (8 - bw))); [lia|exact Hpoly|].
      apply lowzero_lxor; eapply lowzero_weaken; eauto; lia.
    + lia.
Qed.

Lemma windowed_loop_ok (indices : list Z) (crc : Z) :
  Forall (fun index => 0 <= index < len data) indices ->
  lowzero (CrcWindowed._crc_lshift self) crc ->
  exists crc', for_each indices body crc = Ok crc' /\
               lowzero (CrcWindowed._crc_lshift self) crc'.
Proof.
  intros Hall. revert crc. induction Hall as [|index indices Hi _ IH];
    intros crc Hcrc; cbn [for_each].
  - exists crc. split; [reflexivity|exact Hcrc].
  - destruct (windowed_step_ok crc index Hi Hcrc) as [crc1 [-> Hcrc1]].
    cbn [bind]. apply IH. exact Hcrc1.
Qed.

End WindowedStep.

Lemma range2_bounds (a b : Z) : Forall (fun i => a <= i < b) (range2 a b).
Proof.
  apply Forall_forall. intros x Hx. unfold range2, range3 in Hx.
  apply in_map_iff in Hx. destruct Hx as [k [<- Hk]].
  apply in_seq in Hk. rewrite Z.div_1_r in Hk. lia.
Qed.

Lemma windowed_calculate_raises (self : CrcWindowed.t) (data : list byte)
    (start_bit : Z) (length_bits seed : option Z) :
  out_of_range data start_bit length_bits ->
  CrcWindowed.calculate self data start_bit length_bits seed
  = ([], Raise ValueError).
Proof.
  unfold out_of_range, CrcWindowed.calculate. intros H.
  fold (window_length data start_bit length_bits).
  rewrite Z.geb_leb, Z.gtb_ltb.
  destruct (Z.leb_spec (_BYTEBITS * len data) start_bit); [reflexivity|].
  destruct (Z.ltb_spec start_bit 0); [reflexivity|]. cbn [orb].
  destruct (Z.ltb_spec (window_length data start_bit length_bits) 0);
    [reflexivity|].
  destruct (Z.ltb_spec (_BYTEBITS * len data)
              (start_bit + window_length data start_bit length_bits));
    [reflexivity|lia].
Qed.

Section WindowedCalculate.

Variable self : CrcWindowed.t.
Hypothesis Hwf : windowed_wf self.
Variable data : list byte.
Variable start_bit : Z.
Variable length_bits seed : option Z.

Let length := window_length data start_bit length_bits.
Let crc0 := match seed with
            | Some s => s
            | None => CrcWindowed._default_seed self
            end.
Let first_byte := start_bit / 8.
Let first_bit := start_bit mod 8.
Let last_byte := (start_bit + length - 1) / 8.
Let last_bit := (start_bit + length - 1) mod 8.
Let end_mask := Z.land (Z.lnot (Z.shiftl 1 (7 - last_bit) - 1)) 0xFF.
Let poly := Z.shiftl (CrcWindowed._poly self) (CrcWindowed._crc_lshift self).

Hypothesis Hrange : ~ out_of_range data start_bit length_bits.

(** Within range, [calculate] runs its loop over the bytes of the window,
    the assertion holds, and the register is reported. *)
Lemma windowed_calculate_in_range :
  exists crc,
    for_each (range2 first_byte (last_byte + 1))
      (fun crc index =>
         snd (CrcWindowed.step self data poly first_byte first_bit last_byte
                last_bit end_mask crc index))
      (Z.shiftl crc0 (CrcWindowed._crc_lshift self)) = Ok crc /\
    snd (CrcWindowed.calculate self data start_bit length_bits seed)
    = Ok (Z.lxor (reported (CrcWindowed._ref_out self)
                    (CrcWindowed._width self)
                    (Z.shiftr crc (CrcWindowed._crc_lshift self)))
            (CrcWindowed._xor_out self)).
Proof.
  unfold out_of_range in Hrange. fold length in Hrange.
  change _BYTEBITS with 8 in Hrange.
  assert (Hlb : 0 <= last_bit < 8) by (apply Z.mod_pos_bound; lia).
  assert (Hfb : 0 <= first_bit < 8) by (apply Z.mod_pos_bound; lia).
  assert (Hp : lowzero (CrcWindowed._crc_lshift self) poly).
  { replace (CrcWindowed._crc_lshift self)
      with (0 + CrcWindowed._crc_lshift self) at 1 by lia.
    apply lowzero_shiftl; [apply Hwf|]. intros j Hj. lia. }
  assert (Hc : lowzero (CrcWindowed._crc_lshift self)
                 (Z.shiftl crc0 (CrcWindowed._crc_lshift self))).
  { replace (CrcWindowed._crc_lshift self)
      with (0 + CrcWindowed._crc_lshift self) at 1 by lia.
    apply lowzero_shiftl; [apply Hwf|]. intros j Hj. lia. }
  assert (Hidx : Forall (fun index => 0 <= index < len data)
                   (range2 first_byte (last_byte + 1))).
  { eapply Forall_impl; [|apply range2_bounds].
    intros i Hi. cbv beta in Hi. subst first_byte last_byte.
    split.
    - apply Z.le_trans with (start_bit / 8); [|lia].
      apply Z.div_pos; lia.
    - assert ((start_bit + length - 1) / 8 < len data); [|lia].
      apply Z.div_lt_upper_bound; lia. }
  destruct (windowed_loop_ok self Hwf data poly Hp first_byte first_bit
              last_byte last_bit (proj1 Hfb) ltac:(lia) _ _ Hidx Hc)
    as [crc [Hloop Hlow]].
  fold end_mask in Hloop.
  exists crc. split; [exact Hloop|].
  unfold CrcWindowed.calculate.
  fold (window_length data start_bit length_bits). fold length. fold crc0.
  rewrite Z.geb_leb, Z.gtb_ltb. change _BYTEBITS with 8.
  destruct (Z.leb_spec (8 * len data) start_bit); [lia|].
  destruct (Z.ltb_spec start_bit 0); [lia|]. cbn [orb].
  destruct (Z.ltb_spec length 0); [lia|].
  destruct (Z.ltb_spec (8 * len data) (start_bit + length)); [lia|].
  fold first_byte first_bit last_byte last_bit.
  rewrite snd_tbind. cbn [lift snd]. rewrite end_mask_ok by lia. cbn [bind].
  fold end_mask.
  destruct Hwf as [HL HM Hone HW Hms Hcm].
  rewrite snd_tbind. cbn [lift snd]. rewrite lshift_nonneg by lia. cbn [bind].
  rewrite snd_tbind. cbn [lift snd]. rewrite lshift_nonneg by lia. cbn [bind].
  fold poly. rewrite snd_tbind, snd_tfor_each, Hloop. cbn [bind].
  rewrite snd_tbind. cbn [lift snd]. rewrite lshift_nonneg by lia. cbn [bind].
  apply lowzero_land_ones in Hlow; [|lia]. rewrite Hlow. rewrite Z.eqb_refl.
  rewrite snd_tbind. cbn [lift snd]. rewrite rshift_nonneg by lia. cbn [bind].
  reflexivity.
Qed.

End WindowedCalculate.

(** C8: the windowed engine's [calculate] raises [ValueError], having
    printed nothing (no round of the shift register has run), exactly when
    [start_bit < 0], [start_bit >= total_bits], [length_bits < 0] or
    [start_bit + length_bits > total_bits], where [length_bits] defaults to
    [total_bits - start_bit]; otherwise it returns a CRC value. *)
Theorem windowed_range_check (params : CrcParams.t) (name : string)
    (self : CrcWindowed.t) (data : list byte) (start_bit : Z)
    (length_bits seed : option Z) :
  CrcWindowed.init params name = Ok self ->
  (out_of_range data start_bit length_bits <->
   snd (CrcWindowed.calculate self data start_bit length_bits seed)
   = Raise ValueError) /\
  (out_of_range data start_bit length_bits ->
   CrcWindowed.calculate self data start_bit length_bits seed
   = ([], Raise ValueError)) /\
  (~ out_of_range data start_bit length_bits ->
   exists crc,
     snd (CrcWindowed.calculate self data start_bit length_bits seed) = Ok crc).
Proof.
  intros Hinit. apply windowed_init_wf in Hinit.
  assert (Hin : ~ out_of_range data start_bit length_bits ->
                exists crc,
                  snd (CrcWindowed.calculate self data start_bit length_bits
                         seed) = Ok crc).
  { intros Hr.
    destruct (windowed_calculate_in_range self Hinit data start_bit
                length_bits seed Hr) as [crc [_ H]].
    eexists. exact H. }
  split; [|split].
  - split.
    + intros Hr. rewrite windowed_calculate_raises by exact Hr. reflexivity.
    + intros Hraise.
      assert (D : out_of_range data start_bit length_bits \/
                  ~ out_of_range data start_bit length_bits)
        by (unfold out_of_range; lia).
      destruct D as [D|D]; [exact D|].
      destruct (Hin D) as [crc Hcrc]. congruence.
  - apply windowed_calculate_raises.
  - exact Hin.
Qed.

Lemma windowed_range_check_witness :
  exists self,
    CrcWindowed.init crc8_params "" = Ok self /\
    (out_of_range [x31; x32] 3 (Some 9) <->
     snd (CrcWindowed.calculate self [x31; x32] 3 (Some 9) None)
     = Raise ValueError) /\
    (out_of_range [x31; x32] 3 (Some 9) ->
     CrcWindowed.calculate self [x31; x32] 3 (Some 9) None
     = ([], Raise ValueError)) /\
    (~ out_of_range [x31; x32] 3 (Some 9) ->
     exists crc,
       snd (CrcWindowed.calculate self [x31; x32] 3 (Some 9) None) = Ok crc).
Proof.
  eexists. split; [vm_compute; reflexivity|].
  apply (windowed_range_check crc8_params ""). vm_compute. reflexivity.
Defined.

(** ** The generic engine *)

Lemma generic_init_wf (poly width seed : Z) (ref_in ref_out : bool)
    (xor_out : Z) (name : string) (self : CrcGeneric.t) :
  CrcGeneric.init poly width seed ref_in ref_out xor_out name = Ok self ->
  generic_wf self.
Proof.
  intros H.
  destruct (Z.ltb_spec width 0) as [Hneg|Hpos].
  - unfold CrcGeneric.init in H. rewrite lshift_neg in H by lia. discriminate.
  - rewrite generic_init_ok in H by lia. apply Ok_inj in H. subst self.
    destruct (Z.ltb_spec width 8);
      constructor;
      cbv [CrcGeneric._crc_lshift CrcGeneric._msb_lshift CrcGeneric._width
           CrcGeneric._msbit_mask CrcGeneric._crc_mask];
      try lia;
      rewrite ?mask_ones, ?shiftl_1_pow2 by lia; f_equal; lia.
Qed.

Lemma generic_calculate_eq (self : CrcGeneric.t) (data : list byte)
    (seed : option Z) :
  generic_wf self ->
  CrcGeneric.calculate self data seed =
  (crc <- for_each data
            (generic_body self
               (Z.shiftl (CrcGeneric._poly self) (CrcGeneric._crc_lshift self)))
            (Z.shiftl match seed with
                      | Some s => s
                      | None => CrcGeneric._default_seed self
                      end (CrcGeneric._crc_lshift self)) ;;
   Ok (Z.lxor (reported (CrcGeneric._ref_out self) (CrcGeneric._width self)
                 (Z.shiftr crc (CrcGeneric._crc_lshift self)))
              (CrcGeneric._xor_out self))).
Proof.
  intros [HL HM Hone HW Hms Hcm]. unfold CrcGeneric.calculate.
  rewrite !lshift_nonneg by lia. cbn [bind]. fold (generic_body self).
  destruct (for_each data _ _) as [crc|e]; cbn [bind]; [|reflexivity].
  rewrite rshift_nonneg by lia. reflexivity.
Qed.

Lemma init_same_config (params : CrcParams.t) (name name' : string)
    (w : CrcWindowed.t) (g : CrcGeneric.t) :
  CrcWindowed.init params name = Ok w ->
  create_generic (CrcParams.polynomial params) (CrcParams.width params)
    (CrcParams.seed params) (CrcParams.reflect_in params)
    (CrcParams.reflect_out params) name' (CrcParams.xor_out params) = Ok g ->
  same_config w g.
Proof.
  intros Hw Hg. unfold create_generic in Hg.
  destruct (Z.ltb_spec (CrcParams.width params) 0) as [Hneg|Hpos].
  - unfold CrcWindowed.init in Hw. rewrite lshift_neg in Hw by lia.
    discriminate.
  - rewrite windowed_init_ok in Hw by lia. apply Ok_inj in Hw. subst w.
    rewrite generic_init_ok in Hg by lia. apply Ok_inj in Hg. subst g.
    constructor; reflexivity.
Qed.

(** ** Byte-aligned windows *)

Lemma range2_nil (a b : Z) : b <= a -> range2 a b = [].
Proof.
  intros H. unfold range2, range3. rewrite Z.div_1_r.
  replace (Z.to_nat (b - a + 1 - 1)) with 0%nat by lia. reflexivity.
Qed.

Lemma range2_cons (a b : Z) : a < b -> range2 a b = a :: range2 (a + 1) b.
Proof.
  intros H. unfold range2, range3. rewrite !Z.div_1_r.
  replace (Z.to_nat (b - a + 1 - 1)) with (S (Z.to_nat (b - (a + 1) + 1 - 1)))
    by lia.
  cbn [seq map]. f_equal; [lia|].
  rewrite <- seq_shift, map_map. apply map_ext. intros k. lia.
Qed.

Lemma slice_in_range {A : Type} (l : list A) (a b : Z) :
  0 <= a <= b -> b <= len l ->
  slice l a b = firstn (Z.to_nat (b - a)) (skipn (Z.to_nat a) l).
Proof.
  intros Ha Hb. unfold slice.
  destruct (Z.ltb_spec a 0); [lia|]. destruct (Z.ltb_spec b 0); [lia|].
  rewrite !Z.min_r, !Z.max_r by lia. reflexivity.
Qed.

Lemma slice_all {A : Type} (l : list A) : slice l 0 (len l) = l.
Proof.
  unfold len. rewrite slice_in_range by (unfold len; lia).
  cbn [Z.to_nat skipn]. rewrite Z.sub_0_r, Nat2Z.id. apply firstn_all.
Qed.

Lemma getitem_nth (data : list byte) (i : nat) (x : byte) (rest : list byte) :
  skipn i data = x :: rest ->
  getitem (map byte_val data) (Z.of_nat i) = Ok (byte_val x).
Proof.
  intros H.
  assert (Hlen : (i < List.length data)%nat).
  { destruct (Nat.lt_ge_cases i (List.length data)) as [Hl|Hl]; [exact Hl|].
    rewrite skipn_all2 in H by lia. discriminate. }
  unfold getitem, len. rewrite length_map.
  destruct (Z.ltb_spec (Z.of_nat i) 0); [lia|].
  destruct (Z.leb_spec 0 (Z.of_nat i)); [|lia].
  destruct (Z.ltb_spec (Z.of_nat i) (Z.of_nat (List.length data))); [|lia].
  cbn [andb]. f_equal. rewrite Nat2Z.id.
  change 0 with (byte_val x00). rewrite map_nth. f_equal.
  rewrite <- (firstn_skipn i data) at 1. rewrite H.
  rewrite app_nth2; rewrite length_firstn, Nat.min_l by lia; [|lia].
  rewrite Nat.sub_diag. reflexivity.
Qed.

(** A loop over the indices of a window reads the bytes of the slice. *)
Lemma for_each_window (data : list byte) (F : Z -> Z -> result Z) (n : nat) :
  forall (a : nat) (s : Z),
    (a + n <= List.length data)%nat ->
    for_each (range2 (Z.of_nat a) (Z.of_nat a + Z.of_nat n))
      (fun s i => v <- getitem (map byte_val data) i ;; F s v) s =
    for_each (firstn n (skipn a data)) (fun s b => F s (byte_val b)) s.
Proof.
  induction n as [|n IH]; intros a s Hlen.
  - rewrite range2_nil by lia. reflexivity.
  - rewrite range2_cons by lia.
    destruct (skipn a data) as [|x rest] eqn:E.
    { assert (List.length (skipn a data) = 0%nat) by (rewrite E; reflexivity).
      rewrite length_skipn in *. lia. }
    cbn [firstn for_each]. rewrite (getitem_nth data a x rest E). cbn [bind].
    destruct (F s (byte_val x)) as [s'|e]; cbn [bind]; [|reflexivity].
    replace (Z.of_nat a + 1) with (Z.of_nat (S a)) by lia.
    replace (Z.of_nat a + Z.of_nat (S n)) with (Z.of_nat (S a) + Z.of_nat n)
      by lia.
    rewrite IH by lia. f_equal.
    assert (E' : skipn (S a) data = rest).
    { change (S a) with (1 + a)%nat. rewrite <- skipn_skipn, E. reflexivity. }
    rewrite E'. reflexivity.
Qed.

Section Aligned.

Variable w : CrcWindowed.t.
Variable g : CrcGeneric.t.
Hypothesis Hw : windowed_wf w.
Hypothesis Hg : generic_wf g.
Hypothesis Hsame : same_config w g.
Variable data : list byte.
Variable poly : Z.

(** On a window of whole bytes, a step of the windowed loop is a step of the
    generic loop. *)
Lemma aligned_step (a b crc index : Z) :
  snd (CrcWindowed.step w data poly a 0 (b - 1) 7 0xFF crc index) =
  (v <- getitem (map byte_val data) index ;;
   if (0 <=? v) && (v <? 256) then
     let byte := if CrcGeneric._ref_in g then rev8 v else v in
     b <- lshift byte (CrcGeneric._msb_lshift g) ;;
     Ok (Z.land (repeat_n _BYTEBITS (msb_round poly (CrcGeneric._msbit_mask g))
                   (Z.lxor crc b)) (CrcGeneric._crc_mask g))
   else Raise IndexError).
Proof.
  rewrite snd_step.
  destruct (getitem (map byte_val data) index) as [v|e] eqn:Ev; cbn [bind];
    [|reflexivity].
  assert (Hv : 0 <= v < 256).
  { unfold getitem in Ev.
    destruct ((0 <=? _) && _); [|discriminate]. apply Ok_inj in Ev. subst v.
    match goal with
    | |- context [nth ?i ?l 0] =>
        destruct (nth_in_or_default i l 0) as [Hin | Hdef]
    end; [|rewrite Hdef; lia].
    apply in_map_iff in Hin. destruct Hin as [x [<- _]]. apply byte_val_range. }
  destruct (Z.leb_spec 0 v); [|lia]. destruct (Z.ltb_spec v 256); [|lia].
  cbn [andb].
  destruct Hsame as [_ _ _ _ _ HM Hms Hcm Hri _].
  rewrite Hri, HM, Hms, Hcm.
  set (byte := if CrcGeneric._ref_in g then rev8 v else v).
  assert (Hbyte : 0 <= byte < 256).
  { subst byte. destruct (CrcGeneric._ref_in g); [apply rev8_range|]; lia. }
  assert (E : window_byte (CrcGeneric._ref_in g) a 0 (b - 1) 7 0xFF index v
              = (byte, 8)).
  { unfold window_byte. fold byte.
    assert (Hland : Z.land byte 255 = byte).
    { change 255 with (Z.ones 8). rewrite Z.land_ones by lia.
      apply Z.mod_small. lia. }
    destruct (index =? b - 1), (index =? a);
      rewrite ?Z.shiftl_0_r, ?Hland; reflexivity. }
  rewrite E.
  destruct (lshift byte (CrcGeneric._msb_lshift g)) as [x|e]; cbn [bind];
    [|reflexivity].
  destruct Hg as [_ HMg _ _ -> ->].
  replace (CrcGeneric._msb_lshift g + 7)
    with (CrcGeneric._msb_lshift g + 8 - 1) by lia.
  rewrite iter_msb_round_mask by lia. reflexivity.
Qed.

Lemma aligned_loop (a b crc : Z) :
  0 <= a <= b -> b <= len data ->
  for_each (range2 a b)
    (fun crc index =>
       snd (CrcWindowed.step w data poly a 0 (b - 1) 7 0xFF crc index)) crc
  = for_each (slice data a b) (generic_body g poly) crc.
Proof.
  intros Ha Hb. rewrite slice_in_range by lia.
  rewrite (for_each_ext _ _
             (fun s i => v <- getitem (map byte_val data) i ;;
                if (0 <=? v) && (v <? 256) then
                  let byte := if CrcGeneric._ref_in g then rev8 v else v in
                  b <- lshift byte (CrcGeneric._msb_lshift g) ;;
                  Ok (Z.land (repeat_n _BYTEBITS
                                (msb_round poly (CrcGeneric._msbit_mask g))
                                (Z.lxor s b)) (CrcGeneric._crc_mask g))
                else Raise IndexError))
    by (intros; apply aligned_step).
  replace (range2 a b)
    with (range2 (Z.of_nat (Z.to_nat a))
            (Z.of_nat (Z.to_nat a) + Z.of_nat (Z.to_nat (b - a))))
    by (f_equal; lia).
  rewrite for_each_window by (unfold len in Hb; lia).
  apply for_each_ext. intros s x _. unfold generic_body.
  pose proof (byte_val_range x).
  destruct (Z.leb_spec 0 (byte_val x)); [|lia].
  destruct (Z.ltb_spec (byte_val x) 256); [|lia]. reflexivity.
Qed.

End Aligned.

(** On the bytes [a..b) of the buffer, with [a] inside the buffer, the
    windowed engine computes what the generic engine computes on the slice. *)
Lemma windowed_aligned (w : CrcWindowed.t) (g : CrcGeneric.t)
    (data : list byte) (a b : Z) (seed : option Z) :
  windowed_wf w -> generic_wf g -> same_config w g ->
  0 <= a <= b -> b <= len data -> a < len data ->
  exists crc,
    snd (CrcWindowed.calculate w data (8 * a) (Some (8 * (b - a))) seed)
    = Ok crc /\
    CrcGeneric.calculate g (slice data a b) seed = Ok crc.
Proof.
  intros Hw Hg Hsame Ha Hb Hlen.
  assert (Hr : ~ out_of_range data (8 * a) (Some (8 * (b - a)))).
  { unfold out_of_range, window_length. change _BYTEBITS with 8. lia. }
  destruct (windowed_calculate_in_range w Hw data (8 * a) (Some (8 * (b - a)))
              seed Hr) as [crc [Hloop Hres]].
  unfold window_length in Hloop.
  assert (E1 : 8 * a / 8 = a) by (Z.div_mod_to_equations; lia).
  assert (E2 : (8 * a) mod 8 = 0) by (Z.div_mod_to_equations; lia).
  assert (E3 : (8 * a + 8 * (b - a) - 1) / 8 = b - 1)
    by (Z.div_mod_to_equations; lia).
  assert (E4 : (8 * a + 8 * (b - a) - 1) mod 8 = 7)
    by (Z.div_mod_to_equations; lia).
  rewrite E1, E2, E3, E4 in Hloop.
  change (Z.land (Z.lnot (Z.shiftl 1 (7 - 7) - 1)) 255) with 255 in Hloop.
  replace (b - 1 + 1) with b in Hloop by lia.
  rewrite (aligned_loop w g Hg Hsame) in Hloop by lia.
  eexists. split.
  - exact Hres.
  - rewrite generic_calculate_eq by exact Hg.
    destruct Hsame as [Hp Hwd Hs Hx HL HM Hms Hcm Hri Hro].
    rewrite <- Hp, <- HL, <- Hs, Hloop. cbn [bind].
    rewrite <- Hro, <- Hwd, <- Hx. reflexivity.
Qed.

(** C4, as stated, fails on the empty buffer: the window the claim
    describes has [start_bit = 0] and [length_bits = 0]; the windowed engine
    raises [ValueError] where the generic engine returns a value. *)
Lemma windowed_whole_empty_buffer_differs :
  exists w g,
    create_windowed_todo crc8_params "" = Ok w /\
    create_generic 0x07 8 0 false false "" 0 = Ok g /\
    snd (CrcWindowed.calculate w [] 0 (Some (8 * len (@nil byte))) None)
    = Raise ValueError /\
    CrcGeneric.calculate g [] None = Ok 0.
Proof.
  do 2 eexists. split; [vm_compute; reflexivity|].
  split; [vm_compute; reflexivity|].
  split; vm_compute; reflexivity.
Qed.

(** C4 (amended): for every parameter set and every non-empty byte buffer,
    the windowed engine's [calculate] with [start_bit = 0] and [length_bits]
    the number of bits of the buffer (given explicitly or by default) returns
    the value the full-buffer MSB-first generic engine's [calculate] returns
    on that buffer with the same seed. *)
Theorem windowed_whole_buffer (params : CrcParams.t) (name name' : string)
    (w : CrcWindowed.t) (g : CrcGeneric.t) (data : list byte)
    (seed : option Z) :
  create_windowed_todo params name = Ok w ->
  create_generic (CrcParams.polynomial params) (CrcParams.width params)
    (CrcParams.seed params) (CrcParams.reflect_in params)
    (CrcParams.reflect_out params) name' (CrcParams.xor_out params) = Ok g ->
  data <> [] ->
  exists crc,
    CrcGeneric.calculate g data seed = Ok crc /\
    snd (CrcWindowed.calculate w data 0 (Some (8 * len data)) seed) = Ok crc /\
    snd (CrcWindowed.calculate w data 0 None seed) = Ok crc.
Proof.
  intros Hw Hg Hdata. unfold create_windowed_todo in Hw.
  assert (Hlen : 0 < len data).
  { unfold len. destruct data; [congruence|]. cbn [List.length]. lia. }
  destruct (windowed_aligned w g data 0 (len data) seed
              (windowed_init_wf _ _ _ Hw) (generic_init_wf _ _ _ _ _ _ _ _ Hg)
              (init_same_config _ _ _ _ _ Hw Hg)) as [crc [H1 H2]]; try lia.
  rewrite slice_all in H2. rewrite Z.mul_0_r, Z.sub_0_r in H1.
  exists crc. split; [exact H2|]. split; [exact H1|].
  unfold CrcWindowed.calculate in *.
  change (_BYTEBITS * len data - 0) with (8 * len data - 0).
  rewrite Z.sub_0_r. exact H1.
Qed.

Lemma windowed_whole_buffer_witness :
  exists w g,
    (create_windowed_todo crc8_params "" = Ok w /\
     create_generic 0x07 8 0 false false "" 0 = Ok g /\
     [x31; x32] <> []) /\
    exists crc,
      CrcGeneric.calculate g [x31; x32] None = Ok crc /\
      snd (CrcWindowed.calculate w [x31; x32] 0 (Some (8 * len [x31; x32]))
             None) = Ok crc /\
      snd (CrcWindowed.calculate w [x31; x32] 0 None None) = Ok crc.
Proof.
  do 2 eexists. split.
  - split; [vm_compute; reflexivity|].
    split; [vm_compute; reflexivity|discriminate].
  - apply (windowed_whole_buffer crc8_params "" "");
      [vm_compute; reflexivity | vm_compute; reflexivity | discriminate].
Defined.

(** C5, as stated, fails for the empty sub-range at the end of the buffer:
    with [a = b = 1] on a buffer of one byte, and with [a = b = 0] on the
    empty buffer, the windowed engine raises [ValueError]; the generic
    engine returns a value on the empty slice. *)
Lemma windowed_empty_tail_differs :
  exists w g,
    create_windowed_todo crc8_params "" = Ok w /\
    create_generic 0x07 8 0 false false "" 0 = Ok g /\
    snd (CrcWindowed.calculate w [x31] (8 * 1) (Some (8 * (1 - 1))) None)
    = Raise ValueError /\
    CrcGeneric.calculate g (slice [x31] 1 1) None = Ok 0 /\
    snd (CrcWindowed.calculate w [] (8 * 0) (Some (8 * (0 - 0))) None)
    = Raise ValueError /\
    CrcGeneric.calculate g (slice [] 0 0) None = Ok 0.
Proof.
  do 2 eexists. split; [vm_compute; reflexivity|].
  split; [vm_compute; reflexivity|].
  repeat split; vm_compute; reflexivity.
Qed.

(** C5 (amended): for every byte buffer and every byte-aligned sub-range
    [[a,b)] of it that starts inside the buffer ([a < len(data)]), the
    windowed engine's result for [start_bit = 8*a], [length_bits = 8*(b-a)]
    is the generic engine's result on the slice [data[a:b]], with the same
    seed and the same reflection and xor flags. *)
Theorem windowed_byte_aligned (params : CrcParams.t) (name name' : string)
    (w : CrcWindowed.t) (g : CrcGeneric.t) (data : list byte) (a b : Z)
    (seed : option Z) :
  create_windowed_todo params name = Ok w ->
  create_generic (CrcParams.polynomial params) (CrcParams.width params)
    (CrcParams.seed params) (CrcParams.reflect_in params)
    (CrcParams.reflect_out params) name' (CrcParams.xor_out params) = Ok g ->
  0 <= a <= b -> b <= len data -> a < len data ->
  exists crc,
    CrcGeneric.calculate g (slice data a b) seed = Ok crc /\
    snd (CrcWindowed.calculate w data (8 * a) (Some (8 * (b - a))) seed)
    = Ok crc.
Proof.
  intros Hw Hg Ha Hb Hlen. unfold create_windowed_todo in Hw.
  destruct (windowed_aligned w g data a b seed
              (windowed_init_wf _ _ _ Hw) (generic_init_wf _ _ _ _ _ _ _ _ Hg)
              (init_same_config _ _ _ _ _ Hw Hg) Ha Hb Hlen) as [crc [H1 H2]].
  exists crc. split; [exact H2|exact H1].
Qed.

Lemma windowed_byte_aligned_witness :
  exists w g,
    (create_windowed_todo crc8_params "" = Ok w /\
     create_generic 0x07 8 0 false false "" 0 = Ok g /\
     0 <= 1 <= 2 /\ 2 <= len [x31; x32; x33] /\ 1 < len [x31; x32; x33]) /\
    exists crc,
      CrcGeneric.calculate g (slice [x31; x32; x33] 1 2) None = Ok crc /\
      snd (CrcWindowed.calculate w [x31; x32; x33] (8 * 1)
             (Some (8 * (2 - 1))) None) = Ok crc.
Proof.
  do 2 eexists. split.
  - split; [vm_compute; reflexivity|].
    split; [vm_compute; reflexivity|]. cbn. lia.
  - apply (windowed_byte_aligned crc8_params "" "");
      [vm_compute; reflexivity | vm_compute; reflexivity | | |]; cbn; lia.
Defined.

(** ** Table entries as eight rounds of the shift register *)

Lemma land_lxor_distr (a b m : Z) :
  Z.land (Z.lxor a b) m = Z.lxor (Z.land a m) (Z.land b m).
Proof.
  apply Z.bits_inj'. intros j Hj.
  rewrite !Z.lxor_spec, !Z.land_spec, Z.lxor_spec.
  destruct (Z.testbit a j), (Z.testbit b j), (Z.testbit m j); reflexivity.
Qed.

Lemma land_ones_small (x n : Z) : 0 <= x < 2 ^ n -> Z.land x (Z.ones n) = x.
Proof.
  intros H. destruct (Z.ltb_spec n 0).
  - rewrite Z.pow_neg_r in H by lia. lia.
  - rewrite Z.land_ones by lia. apply Z.mod_small. exact H.
Qed.

Lemma land_ones_range (x n : Z) : 0 <= n -> 0 <= Z.land x (Z.ones n) < 2 ^ n.
Proof.
  intros H. rewrite Z.land_ones by lia. apply Z.mod_pos_bound.
  apply Z.pow_pos_nonneg; lia.
Qed.

Lemma combo_ext (c d : Z -> Z) (n : Z) (l : list Z) :
  (forall b, In b l -> c b = d b) -> combo c n l = combo d n l.
Proof.
  induction l as [|b l IH]; intros H; cbn [combo fold_right].
  - reflexivity.
  - fold (combo c n l) (combo d n l).
    rewrite (H b) by (left; reflexivity).
    rewrite IH by (intros; apply H; right; assumption). reflexivity.
Qed.

(** A linear map commutes with the combination of table entries. *)
Lemma combo_linear (R : Z -> Z) (d : Z -> Z) (n : Z) (l : list Z) :
  R 0 = 0 -> (forall x y, R (Z.lxor x y) = Z.lxor (R x) (R y)) ->
  combo (fun b => R (d b)) n l = R (combo d n l).
Proof.
  intros R0 Rx. induction l as [|b l IH]; cbn [combo fold_right].
  - symmetry. exact R0.
  - fold (combo (fun b => R (d b)) n l) (combo d n l).
    rewrite Rx, IH. f_equal. destruct (Z.testbit n b); unfold sel; auto.
Qed.

Lemma testbit_combo (d : Z -> Z) (n j : Z) (l : list Z) :
  Z.testbit (combo d n l) j =
  fold_right (fun b acc => xorb (Z.testbit n b && Z.testbit (d b) j) acc)
             false l.
Proof.
  induction l as [|b l IH]; cbn [combo fold_right].
  - apply Z.testbit_0_l.
  - fold (combo d n l). rewrite Z.lxor_spec, testbit_sel, IH. reflexivity.
Qed.

(** The index itself is the combination of its bits. *)
Lemma combo_pow2 (n s : Z) :
  0 <= s -> 0 <= n < 256 ->
  combo (fun b => 2 ^ (b + s)) n (range 8) = Z.shiftl n s.
Proof.
  intros Hs Hn. apply Z.bits_inj'. intros j Hj.
  rewrite testbit_combo, Z.shiftl_spec by lia.
  change (range 8) with [0; 1; 2; 3; 4; 5; 6; 7]. cbn [fold_right]. cbv beta.
  repeat (rewrite Z.pow2_bits_eqb by lia).
  assert (Eq : forall b, (b + s =? j) = (b =? j - s)).
  { intros b. destruct (Z.eqb_spec (b + s) j), (Z.eqb_spec b (j - s)); lia. }
  rewrite !Eq. clear Eq. generalize (j - s). clear j Hj. intros k.
  destruct (Z.ltb_spec k 0) as [Hneg|Hpos].
  - rewrite (Z.testbit_neg_r n k) by lia. zcmp; boolsimp.
  - destruct (Z.ltb_spec k 8) as [Hlt|Hge].
    + assert (Hc : k = 0 \/ k = 1 \/ k = 2 \/ k = 3 \/
                   k = 4 \/ k = 5 \/ k = 6 \/ k = 7) by lia.
      destruct Hc as [E|[E|[E|[E|[E|[E|[E|E]]]]]]]; subst k;
        cbn [Z.eqb Pos.eqb]; boolsimp.
    + rewrite (testbit_above n 8 k) by lia.
      repeat match goal with
             | |- context [?a =? k] =>
                 destruct (Z.eqb_spec a k); [lia|]
             end.
      boolsimp.
Qed.

Section MsbRegister.

Variables poly width : Z.
Hypothesis Hwidth : 8 <= width.

Let round := msb_round poly (2 ^ (width - 1)).

Lemma msb_rounds8_lxor (x y : Z) :
  msb_rounds8 poly width (Z.lxor x y)
  = Z.lxor (msb_rounds8 poly width x) (msb_rounds8 poly width y).
Proof.
  unfold msb_rounds8. rewrite iter_lxor, land_lxor_distr; [reflexivity|].
  intros. apply msb_round_lxor. lia.
Qed.

Lemma msb_rounds8_0 : msb_rounds8 poly width 0 = 0.
Proof.
  rewrite <- (Z.lxor_nilpotent 0) at 1. rewrite msb_rounds8_lxor.
  apply Z.lxor_nilpotent.
Qed.

(** While the top bit stays clear, rounds only shift. *)
Lemma iter_round_shift (m : nat) (k x : Z) :
  0 <= x < 2 ^ k -> 0 <= k -> k + Z.of_nat m <= width ->
  Nat.iter m round x = Z.shiftl x (Z.of_nat m).
Proof.
  intros Hx Hk. induction m as [|m IH]; intros Hm.
  - rewrite Z.shiftl_0_r. reflexivity.
  - rewrite Nat.iter_succ, IH by lia. unfold round.
    rewrite msb_round_eq by lia.
    rewrite Z.shiftl_spec by lia.
    rewrite (testbit_above x k) by lia.
    unfold sel. rewrite Z.lxor_0_r, Z.shiftl_shiftl by lia.
    f_equal. lia.
Qed.

Lemma msb_rounds8_low (x : Z) :
  0 <= x < 2 ^ (width - 8) -> msb_rounds8 poly width x = Z.shiftl x 8.
Proof.
  intros Hx. unfold msb_rounds8. fold round.
  rewrite (iter_round_shift 8 (width - 8)) by lia.
  change (Z.of_nat 8) with 8. apply land_ones_small.
  rewrite Z.shiftl_mul_pow2 by lia.
  assert (E : 2 ^ width = 2 ^ (width - 8) * 2 ^ 8)
    by (rewrite <- Z.pow_add_r by lia; f_equal; lia).
  rewrite E. nia.
Qed.

(** The value the table loop computes for the power of two [2 ^ b]. *)
Lemma msb_power_entry (b : Z) :
  0 <= b < 8 ->
  Nat.iter (S (Z.to_nat b)) (msb_step poly (2 ^ (width - 1)) (Z.ones width))
    (2 ^ (width - 1))
  = msb_rounds8 poly width (2 ^ (b + (width - 8))).
Proof.
  intros Hb. unfold msb_rounds8, msb_step.
  rewrite (iter_msb_round_mask poly width) by lia.
  cbn [Nat.eqb]. fold round.
  assert (E : forall x, Nat.iter 8 round x =
                Nat.iter (S (Z.to_nat b)) round
                  (Nat.iter (Z.to_nat (7 - b)) round x)).
  { intros x. rewrite <- Nat.iter_add. f_equal. lia. }
  rewrite E.
  rewrite (iter_round_shift (Z.to_nat (7 - b)) (b + (width - 8) + 1)
             (2 ^ (b + (width - 8)))); try lia.
  - rewrite Z.shiftl_mul_pow2, <- Z.pow_add_r by lia.
    do 3 f_equal. lia.
  - split; [apply Z.pow_nonneg; lia|]. apply Z.pow_lt_mono_r; lia.
Qed.

(** Entry [n] of the table is eight rounds on [n << (width - 8)]: the
    doubling loop computes what [create_msb_table_individual] spells out. *)
Lemma msb_entry_rounds8 (n : Z) :
  0 <= n < 256 ->
  msb_entry poly (2 ^ (width - 1)) (Z.ones width) n
  = msb_rounds8 poly width (Z.shiftl n (width - 8)).
Proof.
  intros Hn. unfold msb_entry. rewrite combo_l_eq.
  rewrite <- (combo_pow2 n (width - 8)) by lia.
  rewrite <- (combo_linear (msb_rounds8 poly width))
    by (apply msb_rounds8_0 || apply msb_rounds8_lxor).
  apply combo_ext. intros b Hb.
  change (range 8) with [0; 1; 2; 3; 4; 5; 6; 7] in Hb.
  apply msb_power_entry. cbn [In] in Hb. lia.
Qed.

End MsbRegister.

(** ** The MSB-first table engine against the generic engine *)

Lemma shiftr_range (x w s : Z) :
  0 <= s <= w -> 0 <= x < 2 ^ w -> 0 <= Z.shiftr x s < 2 ^ (w - s).
Proof.
  intros Hs Hx. apply bits_above_false; [lia|].
  intros j Hj. rewrite Z.shiftr_spec by lia. apply (testbit_above x w); lia.
Qed.

Lemma split_high_low (x s : Z) :
  0 <= s -> x = Z.lxor (Z.shiftl (Z.shiftr x s) s) (Z.land x (Z.ones s)).
Proof.
  intros Hs. apply Z.bits_inj'. intros j Hj.
  rewrite Z.lxor_spec, Z.land_spec, Z.shiftl_spec, Z.testbit_ones by lia.
  destruct (Z.ltb_spec j s).
  - rewrite (Z.testbit_neg_r _ (j - s)) by lia. zcmp; boolsimp.
  - rewrite Z.shiftr_spec by lia. replace (j - s + s) with j by lia.
    zcmp; boolsimp.
Qed.

Lemma land_shiftl_low (x w : Z) :
  8 <= w ->
  Z.land (Z.shiftl x 8) (Z.ones w)
  = Z.land (Z.shiftl (Z.land x (Z.ones (w - 8))) 8) (Z.ones w).
Proof.
  intros Hw. apply Z.bits_inj'. intros j Hj.
  rewrite !Z.land_spec, !Z.shiftl_spec, Z.testbit_ones by lia.
  destruct (Z.ltb_spec j 8).
  - rewrite !Z.testbit_neg_r by lia. reflexivity.
  - rewrite Z.land_spec, Z.testbit_ones by lia. zcmp; boolsimp.
Qed.

Section MsbEngines.

Variables poly width : Z.
Hypothesis Hwidth : 8 <= width.

Lemma msb_rounds8_masked (x : Z) :
  Z.land (msb_rounds8 poly width x) (Z.ones width) = msb_rounds8 poly width x.
Proof.
  unfold msb_rounds8. rewrite <- Z.land_assoc, Z.land_diag. reflexivity.
Qed.

(** A step of the table loop is eight rounds of the bit-by-bit loop. *)
Lemma msb_table_step (crc bv : Z) :
  0 <= crc < 2 ^ width -> 0 <= bv < 256 ->
  Z.land (Z.lxor (Z.shiftl crc 8)
            (msb_entry poly (2 ^ (width - 1)) (Z.ones width)
               (Z.lxor (Z.shiftr crc (width - 8)) bv)))
         (Z.ones width)
  = msb_rounds8 poly width (Z.lxor crc (Z.shiftl bv (width - 8))).
Proof.
  intros Hcrc Hbv.
  pose proof (shiftr_range crc width (width - 8) ltac:(lia) Hcrc) as Hhi.
  replace (width - (width - 8)) with 8 in Hhi by lia.
  set (hi := Z.shiftr crc (width - 8)) in *.
  set (lo := Z.land crc (Z.ones (width - 8))).
  pose proof (lxor_range hi bv 8 ltac:(lia) Hhi Hbv) as Hn.
  rewrite (msb_entry_rounds8 poly width Hwidth) by exact Hn.
  rewrite Z.shiftl_lxor, (msb_rounds8_lxor poly width Hwidth).
  rewrite land_lxor_distr, land_lxor_distr, !msb_rounds8_masked.
  rewrite land_shiftl_low by lia. fold lo.
  assert (Hlo : 0 <= lo < 2 ^ (width - 8))
    by (apply land_ones_range; lia).
  rewrite <- (msb_rounds8_low poly width Hwidth lo Hlo) at 1.
  rewrite msb_rounds8_masked.
  rewrite (split_high_low crc (width - 8)) at 1 by lia. fold hi lo.
  rewrite !(msb_rounds8_lxor poly width Hwidth).
  rewrite (Z.lxor_comm (msb_rounds8 poly width (Z.shiftl hi (width - 8)))
             (msb_rounds8 poly width lo)).
  rewrite Z.lxor_assoc. reflexivity.
Qed.

End MsbEngines.

Lemma msb_table_calculate_eq (self : CrcMsbfTable.t) (data : list byte) :
  CrcMsbfTable.calculate self data =
  (remainder <- for_each data (msb_table_body self) (CrcMsbfTable._seed self) ;;
   Ok (Z.lxor (reported (CrcMsbfTable._reverse_result self)
                 (CrcMsbfTable._width self) remainder)
              (CrcMsbfTable._xor_out self))).
Proof. reflexivity. Qed.

Section MsbAgree.

Variables poly width seed xor_out : Z.
Variable name : string.
Hypothesis Hwidth : 8 <= width.

Let e : CrcMsbfTable.t :=
  {| CrcMsbfTable._table :=
       map (msb_entry poly (Z.shiftl 1 (width - 1)) (Z.shiftl 1 width - 1))
           (range 256);
     CrcMsbfTable._seed := seed; CrcMsbfTable._width := width;
     CrcMsbfTable._xor_out := xor_out;
     CrcMsbfTable._result_mask := Z.shiftl 1 width - 1;
     CrcMsbfTable._msb_lshift := width - 8;
     CrcMsbfTable._reverse_result := false;
     CrcMsbfTable.name := name |}.

Let g : CrcGeneric.t :=
  {| CrcGeneric._poly := poly; CrcGeneric._width := width;
     CrcGeneric._default_seed := seed; CrcGeneric._xor_out := xor_out;
     CrcGeneric._result_mask := Z.shiftl 1 width - 1;
     CrcGeneric._crc_lshift := 0;
     CrcGeneric._msb_lshift := width - 8;
     CrcGeneric._msbit_mask := Z.shiftl 1 (width + 0 - 1);
     CrcGeneric._crc_mask := Z.shiftl 1 (width + 0) - 1;
     CrcGeneric._ref_in := false; CrcGeneric._ref_out := false;
     CrcGeneric.name := name |}.

Lemma msb_bodies_agree (crc : Z) (b : byte) :
  0 <= crc < 2 ^ width ->
  msb_table_body e crc b
  = Ok (msb_rounds8 poly width
          (Z.lxor crc (Z.shiftl (byte_val b) (width - 8)))) /\
  generic_body g (Z.shiftl poly 0) crc b
  = Ok (msb_rounds8 poly width
          (Z.lxor crc (Z.shiftl (byte_val b) (width - 8)))).
Proof.
  intros Hcrc. pose proof (byte_val_range b) as Hb.
  unfold msb_table_body, generic_body, e, g.
  cbn [CrcMsbfTable._msb_lshift CrcMsbfTable._table
       CrcMsbfTable._result_mask
       CrcGeneric._ref_in CrcGeneric._msb_lshift CrcGeneric._msbit_mask
       CrcGeneric._crc_mask].
  rewrite rshift_nonneg, lshift_nonneg by lia. cbn [bind].
  pose proof (shiftr_range crc width (width - 8) ltac:(lia) Hcrc) as Hhi.
  replace (width - (width - 8)) with 8 in Hhi by lia.
  rewrite getitem_map_range by (apply (lxor_range _ _ 8); lia).
  cbn [bind].
  rewrite !mask_ones, !shiftl_1_pow2, Z.shiftl_0_r by lia.
  replace (width + 0 - 1) with (width - 1) by lia.
  replace (width + 0) with width by lia.
  rewrite msb_table_step by lia. split; reflexivity.
Qed.

Lemma msb_loops_agree (data : list byte) (crc : Z) :
  0 <= crc < 2 ^ width ->
  exists crc',
    for_each data (msb_table_body e) crc = Ok crc' /\
    for_each data (generic_body g (Z.shiftl poly 0)) crc = Ok crc'.
Proof.
  revert crc. induction data as [|b data IH]; intros crc Hcrc; cbn [for_each].
  - exists crc. split; reflexivity.
  - destruct (msb_bodies_agree crc b Hcrc) as [-> ->]. cbn [bind].
    apply IH. apply land_ones_range. lia.
Qed.

(** With [ref_in] and [ref_out] false and a width of at least 8, the
    table-driven and the generic engine agree. *)
Lemma msb_engines_agree (data : list byte) :
  0 <= seed < 2 ^ width ->
  exists te ge crc,
    create poly width seed false false name xor_out = Ok te /\
    create_generic poly width seed false false name xor_out = Ok ge /\
    table_calculate te data = Ok crc /\
    CrcGeneric.calculate ge data None = Ok crc.
Proof.
  intros Hseed.
  destruct (msb_loops_agree data seed Hseed) as [crc [Ht Hgl]].
  exists (Msbf e), g, (Z.lxor crc xor_out).
  split; [apply create_msb_ok; lia|].
  assert (Hgen : create_generic poly width seed false false name xor_out
                 = Ok g).
  { unfold create_generic. rewrite generic_init_ok by lia. unfold g.
    destruct (Z.ltb_spec width 8); [lia|reflexivity]. }
  split; [exact Hgen|]. split.
  - cbn [table_calculate]. rewrite msb_table_calculate_eq.
    change (CrcMsbfTable._seed e) with seed. rewrite Ht. reflexivity.
  - rewrite generic_calculate_eq
      by (eapply generic_init_wf; unfold create_generic in Hgen; exact Hgen).
    change (CrcGeneric._crc_lshift g) with 0.
    change (CrcGeneric._poly g) with poly.
    change (CrcGeneric._default_seed g) with seed.
    rewrite (Z.shiftl_0_r seed), Hgl. cbn [bind].
    rewrite Z.shiftr_0_r. reflexivity.
Qed.

End MsbAgree.

(** ** The LSB-first register *)

Section LsbRegister.

Variables poly width : Z.
Hypothesis Hwidth : 0 <= width.
Hypothesis Hpoly : 0 <= poly < 2 ^ width.

Lemma lsb_rounds8_lxor (x y : Z) :
  lsb_rounds8 poly (Z.lxor x y) = Z.lxor (lsb_rounds8 poly x) (lsb_rounds8 poly y).
Proof. unfold lsb_rounds8. apply iter_lxor. apply lsb_round_lxor. Qed.

Lemma lsb_rounds8_0 : lsb_rounds8 poly 0 = 0.
Proof.
  rewrite <- (Z.lxor_nilpotent 0) at 1. rewrite lsb_rounds8_lxor.
  apply Z.lxor_nilpotent.
Qed.

(** While the bottom bit stays clear, rounds only shift. *)
Lemma iter_lsb_shift (m : nat) (x : Z) :
  lowzero (Z.of_nat m) x ->
  Nat.iter m (lsb_round poly) x = Z.shiftr x (Z.of_nat m).
Proof.
  induction m as [|m IH]; intros Hx.
  - rewrite Z.shiftr_0_r. reflexivity.
  - rewrite Nat.iter_succ, IH by (eapply lowzero_weaken; [exact Hx|lia]).
    rewrite lsb_round_eq, Z.shiftr_spec by lia.
    rewrite (Hx (0 + Z.of_nat m)) by lia.
    unfold sel. rewrite Z.lxor_0_r, Z.shiftr_shiftr by lia.
    f_equal. lia.
Qed.

Lemma lsb_power_entry (b : Z) :
  0 <= b < 8 ->
  Nat.iter (Z.to_nat (8 - b)) (lsb_round poly) 1 = lsb_rounds8 poly (2 ^ (b + 0)).
Proof.
  intros Hb. unfold lsb_rounds8. rewrite Z.add_0_r.
  assert (E : forall x, Nat.iter 8 (lsb_round poly) x =
                Nat.iter (Z.to_nat (8 - b)) (lsb_round poly)
                  (Nat.iter (Z.to_nat b) (lsb_round poly) x)).
  { intros x. rewrite <- Nat.iter_add. f_equal. lia. }
  rewrite E. f_equal. rewrite iter_lsb_shift.
  - rewrite Z2Nat.id by lia. rewrite Z.shiftr_div_pow2 by lia.
    symmetry. apply Z.div_same. apply Z.pow_nonzero; lia.
  - intros j Hj. rewrite Z.pow2_bits_eqb by lia.
    destruct (Z.eqb_spec b j); [lia|reflexivity].
Qed.

(** Entry [n] of the LSB-first table is eight rounds on [n]. *)
Lemma lsb_entry_rounds8 (n : Z) :
  0 <= n < 256 -> lsb_entry poly n = lsb_rounds8 poly n.
Proof.
  intros Hn. unfold lsb_entry. rewrite combo_r_eq.
  rewrite <- (Z.shiftl_0_r n) at 2.
  rewrite <- (combo_pow2 n 0) by lia.
  rewrite <- (combo_linear (lsb_rounds8 poly))
    by (apply lsb_rounds8_0 || apply lsb_rounds8_lxor).
  apply combo_ext. intros b Hb.
  change (range 8) with [0; 1; 2; 3; 4; 5; 6; 7] in Hb.
  apply lsb_power_entry. cbn [In] in Hb. lia.
Qed.

Lemma lsb_round_range (k x : Z) :
  width <= k -> 0 <= x < 2 ^ (k + 1) -> 0 <= lsb_round poly x < 2 ^ k.
Proof.
  intros Hk Hx. apply bits_above_false; [lia|].
  intros j Hj. rewrite lsb_round_eq, Z.lxor_spec, testbit_sel.
  rewrite Z.shiftr_spec by lia.
  rewrite (testbit_above x (k + 1)), (testbit_above poly width) by lia.
  boolsimp.
Qed.

Lemma iter_lsb_range (m : nat) (x : Z) :
  0 <= x < 2 ^ (width + Z.of_nat m) ->
  0 <= Nat.iter m (lsb_round poly) x < 2 ^ width.
Proof.
  revert x. induction m as [|m IH]; intros x Hx.
  - rewrite Z.add_0_r in Hx. exact Hx.
  - rewrite Nat.iter_succ_r. apply IH.
    apply lsb_round_range; [lia|].
    replace (width + Z.of_nat m + 1) with (width + Z.of_nat (S m)) by lia.
    exact Hx.
Qed.

(** A step of the table loop is eight rounds of the bit-by-bit loop. *)
Lemma lsb_table_step (crc bv : Z) :
  0 <= crc < 2 ^ width -> 0 <= bv < 256 ->
  Z.land (Z.lxor (Z.shiftr crc 8)
            (lsb_entry poly (Z.lxor (Z.land crc 0xFF) bv)))
         (Z.ones width)
  = lsb_rounds8 poly (Z.lxor crc bv).
Proof.
  intros Hcrc Hbv.
  assert (Hlo : 0 <= Z.land crc 0xFF < 256) by apply land_255_range.
  rewrite lsb_entry_rounds8 by (apply (lxor_range _ _ 8); lia).
  assert (E : lsb_rounds8 poly (Z.lxor crc bv)
              = Z.lxor (Z.shiftr crc 8)
                  (lsb_rounds8 poly (Z.lxor (Z.land crc 0xFF) bv))).
  { rewrite (split_high_low crc 8) at 1 by lia.
    change (Z.ones 8) with 255.
    rewrite Z.lxor_assoc, lsb_rounds8_lxor. f_equal.
    unfold lsb_rounds8. rewrite iter_lsb_shift.
    - change (Z.of_nat 8) with 8. apply shiftr_shiftl_same. lia.
    - replace (Z.of_nat 8) with (0 + 8) by lia.
      apply lowzero_shiftl; [lia|]. intros j Hj. lia. }
  rewrite <- E. apply land_ones_small.
  unfold lsb_rounds8. apply iter_lsb_range.
  change (Z.of_nat 8) with 8.
  assert (Hx : 0 <= Z.lxor crc bv < 2 ^ Z.max width 8).
  { apply lxor_range; [lia| |].
    - split; [lia|]. apply Z.lt_le_trans with (2 ^ width); [lia|].
      apply Z.pow_le_mono_r; lia.
    - split; [lia|]. apply Z.lt_le_trans with (2 ^ 8); [lia|].
      apply Z.pow_le_mono_r; lia. }
  split; [lia|]. apply Z.lt_le_trans with (2 ^ Z.max width 8); [lia|].
  apply Z.pow_le_mono_r; lia.
Qed.

End LsbRegister.

(** ** Reflection of the MSB-first register *)

Lemma bit_reverse_n_lxor (x y n : Z) :
  bit_reverse_n (Z.lxor x y) n
  = Z.lxor (bit_reverse_n x n) (bit_reverse_n y n).
Proof.
  apply Z.bits_inj'. intros j Hj.
  rewrite Z.lxor_spec, !bit_reverse_n_spec, Z.lxor_spec by lia. reflexivity.
Qed.

Lemma bit_reverse_n_shiftl (x w s : Z) :
  0 <= s -> bit_reverse_n (Z.shiftl x s) (w + s) = bit_reverse_n x w.
Proof.
  intros Hs. apply Z.bits_inj'. intros j Hj.
  rewrite !bit_reverse_n_spec by lia.
  destruct (Z.ltb_spec (w + s - 1 - j) 0).
  - rewrite !Z.testbit_neg_r by lia. reflexivity.
  - rewrite Z.shiftl_spec by lia. f_equal. lia.
Qed.

Lemma bit_reverse_n_byte (bv m : Z) :
  0 <= m -> 0 <= bv < 256 ->
  bit_reverse_n (Z.shiftl (rev8 bv) m) (m + 8) = bv.
Proof.
  intros Hm Hbv. rewrite (Z.add_comm m 8), bit_reverse_n_shiftl by lia.
  apply Z.bits_inj'. intros j Hj.
  rewrite bit_reverse_n_spec by lia.
  destruct (Z.ltb_spec j 8).
  - rewrite rev8_spec by lia. f_equal. lia.
  - rewrite Z.testbit_neg_r by lia. symmetry. apply (testbit_above bv 8); lia.
Qed.

Lemma bit_reverse_n_shiftr (x w s : Z) :
  0 <= s -> 0 <= bit_reverse_n x (w + s) < 2 ^ w ->
  bit_reverse_n (Z.shiftr x s) w = bit_reverse_n x (w + s).
Proof.
  intros Hs Hr. apply Z.bits_inj'. intros j Hj.
  destruct (Z.ltb_spec j w).
  - rewrite !bit_reverse_n_spec, Z.shiftr_spec by lia. f_equal. lia.
  - rewrite (testbit_above _ w j Hr) by lia.
    rewrite bit_reverse_n_spec by lia. apply Z.testbit_neg_r. lia.
Qed.

(** Mirrored, a round of the MSB-first register is a round of the
    LSB-first register with the mirrored polynomial. *)
Lemma reflect_round (poly W x : Z) :
  1 <= W ->
  bit_reverse_n (Z.land (msb_round poly (2 ^ (W - 1)) x) (Z.ones W)) W
  = lsb_round (bit_reverse_n poly W) (bit_reverse_n x W).
Proof.
  intros HW. apply Z.bits_inj'. intros j Hj.
  rewrite lsb_round_eq, msb_round_eq by lia.
  rewrite Z.lxor_spec, testbit_sel, Z.shiftr_spec by lia.
  rewrite !bit_reverse_n_spec by lia.
  replace (W - 1 - 0) with (W - 1) by lia.
  replace (W - 1 - (j + 1)) with (W - 1 - j - 1) by lia.
  destruct (Z.ltb_spec (W - 1 - j) 0).
  - rewrite !(Z.testbit_neg_r _ (W - 1 - j)),
      (Z.testbit_neg_r _ (W - 1 - j - 1)) by lia.
    boolsimp.
  - rewrite Z.land_spec, Z.lxor_spec, testbit_sel, Z.shiftl_spec by lia.
    rewrite Z.testbit_ones by lia. zcmp; boolsimp.
Qed.

Lemma reflect_iter (poly W : Z) (n : nat) (x : Z) :
  1 <= W ->
  bit_reverse_n
    (Nat.iter n (fun c => Z.land (msb_round poly (2 ^ (W - 1)) c) (Z.ones W)) x)
    W
  = Nat.iter n (lsb_round (bit_reverse_n poly W)) (bit_reverse_n x W).
Proof.
  intros HW. induction n as [|n IH].
  - reflexivity.
  - rewrite !Nat.iter_succ, reflect_round, IH by lia. reflexivity.
Qed.

(** ** The LSB-first table engine against the generic engine *)

Lemma lsb_table_calculate_eq (self : CrcLsbfTable.t) (data : list byte) :
  CrcLsbfTable.calculate self data =
  (crc <- for_each data (lsb_table_body self)
            (bit_reverse_n (CrcLsbfTable._seed self)
               (CrcLsbfTable._width self)) ;;
   Ok (Z.lxor (reported (CrcLsbfTable._reverse_result self)
                 (CrcLsbfTable._width self) crc)
              (CrcLsbfTable._xor_out self))).
Proof. reflexivity. Qed.

Section LsbAgree.

Variables poly width seed xor_out : Z.
Variable name : string.
Variables L M : Z.
Hypothesis Hwidth : 0 <= width.
Hypothesis HL : 0 <= L.
Hypothesis HM : 0 <= M.
Hypothesis HW : width + L = M + 8.

Let e : CrcLsbfTable.t :=
  {| CrcLsbfTable._table :=
       map (lsb_entry (bit_reverse_n poly width)) (range 256);
     CrcLsbfTable._seed := seed; CrcLsbfTable._width := width;
     CrcLsbfTable._xor_out := xor_out;
     CrcLsbfTable._result_mask := Z.shiftl 1 width - 1;
     CrcLsbfTable._reverse_result := negb true;
     CrcLsbfTable.name := name |}.

Let g : CrcGeneric.t :=
  {| CrcGeneric._poly := poly; CrcGeneric._width := width;
     CrcGeneric._default_seed := seed; CrcGeneric._xor_out := xor_out;
     CrcGeneric._result_mask := Z.shiftl 1 width - 1;
     CrcGeneric._crc_lshift := L;
     CrcGeneric._msb_lshift := M;
     CrcGeneric._msbit_mask := Z.shiftl 1 (width + L - 1);
     CrcGeneric._crc_mask := Z.shiftl 1 (width + L) - 1;
     CrcGeneric._ref_in := true; CrcGeneric._ref_out := true;
     CrcGeneric.name := name |}.

(** The generic register, mirrored, is the register of the table engine. *)
Lemma lsb_bodies_agree (crc : Z) (b : byte) :
  0 <= bit_reverse_n crc (width + L) < 2 ^ width ->
  exists crc',
    generic_body g (Z.shiftl poly L) crc b = Ok crc' /\
    lsb_table_body e (bit_reverse_n crc (width + L)) b
    = Ok (bit_reverse_n crc' (width + L)) /\
    0 <= bit_reverse_n crc' (width + L) < 2 ^ width.
Proof.
  intros Hl. pose proof (byte_val_range b) as Hb.
  pose proof (bit_reverse_n_range poly width Hwidth) as Hpr.
  unfold generic_body, lsb_table_body, e, g.
  cbn [CrcLsbfTable._table CrcLsbfTable._result_mask
       CrcGeneric._ref_in CrcGeneric._msb_lshift CrcGeneric._msbit_mask
       CrcGeneric._crc_mask].
  rewrite lshift_nonneg by lia. cbn [bind].
  rewrite getitem_map_range
    by (apply (lxor_range _ _ 8); [lia|apply land_255_range|lia]).
  cbn [bind].
  rewrite !mask_ones, !shiftl_1_pow2 by lia.
  change (repeat_n _BYTEBITS ?f ?x) with (Nat.iter 8 f x).
  assert (Eref :
    bit_reverse_n
      (Z.land (Nat.iter 8 (msb_round (Z.shiftl poly L) (2 ^ (width + L - 1)))
                 (Z.lxor crc (Z.shiftl (rev8 (byte_val b)) M)))
              (Z.ones (width + L))) (width + L)
    = lsb_rounds8 (bit_reverse_n poly width)
        (Z.lxor (bit_reverse_n crc (width + L)) (byte_val b))).
  { pose proof (iter_msb_round_mask (Z.shiftl poly L) (width + L) 8
                  (Z.lxor crc (Z.shiftl (rev8 (byte_val b)) M)) ltac:(lia))
      as E.
    cbn [Nat.eqb] in E. rewrite <- E. clear E.
    rewrite reflect_iter by lia.
    rewrite bit_reverse_n_shiftl by lia.
    rewrite bit_reverse_n_lxor.
    assert (Eb : bit_reverse_n (Z.shiftl (rev8 (byte_val b)) M) (width + L)
                 = byte_val b)
      by (rewrite HW; apply bit_reverse_n_byte; lia).
    rewrite Eb. reflexivity. }
  eexists. split; [reflexivity|]. rewrite Eref.
  rewrite lsb_table_step by lia. split; [reflexivity|].
  rewrite <- (lsb_table_step (bit_reverse_n poly width) width Hwidth Hpr)
    by lia.
  apply land_ones_range. lia.
Qed.

Lemma lsb_loops_agree (data : list byte) (crc : Z) :
  0 <= bit_reverse_n crc (width + L) < 2 ^ width ->
  exists crc',
    for_each data (generic_body g (Z.shiftl poly L)) crc = Ok crc' /\
    for_each data (lsb_table_body e) (bit_reverse_n crc (width + L))
    = Ok (bit_reverse_n crc' (width + L)) /\
    0 <= bit_reverse_n crc' (width + L) < 2 ^ width.
Proof.
  revert crc. induction data as [|b data IH]; intros crc Hcrc; cbn [for_each].
  - exists crc. split; [reflexivity|]. split; [reflexivity|exact Hcrc].
  - destruct (lsb_bodies_agree crc b Hcrc) as [crc1 [-> [-> Hr]]].
    cbn [bind]. apply IH. exact Hr.
Qed.

Lemma lsb_calculations_agree (data : list byte) :
  generic_wf g ->
  exists crc,
    CrcLsbfTable.calculate e data = Ok crc /\
    CrcGeneric.calculate g data None = Ok crc.
Proof.
  intros Hg.
  pose proof (bit_reverse_n_range seed width Hwidth) as Hs.
  rewrite <- (bit_reverse_n_shiftl seed width L HL) in Hs.
  destruct (lsb_loops_agree data (Z.shiftl seed L) Hs) as [crc [Hgl [Htl Hr]]].
  exists (Z.lxor (bit_reverse_n crc (width + L)) xor_out). split.
  - rewrite lsb_table_calculate_eq.
    change (CrcLsbfTable._seed e) with seed.
    change (CrcLsbfTable._width e) with width.
    rewrite <- (bit_reverse_n_shiftl seed width L HL), Htl. reflexivity.
  - rewrite generic_calculate_eq by exact Hg.
    change (CrcGeneric._crc_lshift g) with L.
    change (CrcGeneric._poly g) with poly.
    change (CrcGeneric._default_seed g) with seed.
    rewrite Hgl. cbn [bind]. unfold reported.
    change (CrcGeneric._ref_out g) with true.
    change (CrcGeneric._width g) with width. cbv iota.
    rewrite bit_reverse_n_shiftr by lia. reflexivity.
Qed.

End LsbAgree.

(** With [ref_in] and [ref_out] true, the table-driven and the generic
    engine agree. *)
Lemma lsb_engines_agree (poly width seed xor_out : Z) (name : string)
    (data : list byte) :
  0 <= width ->
  exists te ge crc,
    create poly width seed true true name xor_out = Ok te /\
    create_generic poly width seed true true name xor_out = Ok ge /\
    table_calculate te data = Ok crc /\
    CrcGeneric.calculate ge data None = Ok crc.
Proof.
  intros Hw.
  pose proof (generic_init_ok poly width seed true true xor_out name Hw) as Hg.
  pose proof (generic_init_wf _ _ _ _ _ _ _ _ Hg) as Hwf.
  assert (HL : 0 <= (if width <? 8 then 8 - width else 0))
    by (destruct (Z.ltb_spec width 8); lia).
  assert (HM : 0 <= (if width <? 8 then 0 else width - 8))
    by (destruct (Z.ltb_spec width 8); lia).
  assert (HW : width + (if width <? 8 then 8 - width else 0)
               = (if width <? 8 then 0 else width - 8) + 8)
    by (destruct (Z.ltb_spec width 8); lia).
  destruct (lsb_calculations_agree poly width seed xor_out name _ _
              Hw HL HM HW data Hwf) as [crc [Ht Hc]].
  do 3 eexists. split; [apply create_lsb_ok; exact Hw|].
  split; [exact Hg|]. split; [exact Ht|exact Hc].
Qed.

(** ** Engine equivalence *)

(** C3, as stated, fails: for the 5-bit polynomial 0x15 without reflection
    the table-driven engine raises [ValueError] on the one-byte input "1"
    (its shift count [width - 8] is negative), where the generic engine
    returns 0x0B. *)
Lemma table_engine_narrow_width_differs :
  exists te ge,
    create 0x15 5 0 false false "" 0 = Ok te /\
    create_generic 0x15 5 0 false false "" 0 = Ok ge /\
    table_calculate te (ascii_bytes "1") = Raise ValueError /\
    CrcGeneric.calculate ge (ascii_bytes "1") None = Ok 0x0B.
Proof.
  do 2 eexists. split; [vm_compute; reflexivity|].
  split; [vm_compute; reflexivity|].
  split; vm_compute; reflexivity.
Qed.

(** C3 (amended): for every polynomial and seed that fit in [width] bits,
    every xor_out and [ref_in == ref_out], with a width of at least 1 when
    both are true and of at least 8 when both are false, the table-driven
    engine produced by [create] and the bit-by-bit engine produced by
    [create_generic] return the same CRC value for every input byte
    sequence. *)
Theorem table_and_generic_agree (poly width seed xor_out : Z) (ref : bool)
    (name : string) (data : list byte) :
  0 <= poly < 2 ^ width -> 0 <= seed < 2 ^ width -> table_width ref width ->
  exists te ge crc,
    create poly width seed ref ref name xor_out = Ok te /\
    create_generic poly width seed ref ref name xor_out = Ok ge /\
    table_calculate te data = Ok crc /\
    CrcGeneric.calculate ge data None = Ok crc.
Proof.
  intros _ Hseed Hw. destruct ref; cbn [table_width] in Hw.
  - apply lsb_engines_agree. lia.
  - apply msb_engines_agree; assumption.
Qed.

Lemma table_and_generic_agree_witness :
  (0 <= 0x1021 < 2 ^ 16 /\ 0 <= 0xFFFF < 2 ^ 16 /\ table_width false 16) /\
  exists te ge crc,
    create 0x1021 16 0xFFFF false false "" 0 = Ok te /\
    create_generic 0x1021 16 0xFFFF false false "" 0 = Ok ge /\
    table_calculate te (ascii_bytes "123456789") = Ok crc /\
    CrcGeneric.calculate ge (ascii_bytes "123456789") None = Ok crc.
Proof.
  split; [cbn [table_width]; lia|].
  apply (table_and_generic_agree 0x1021 16 0xFFFF 0 false ""
           (ascii_bytes "123456789")); cbn [table_width]; lia.
Defined.

(** * Further properties *)

(** ** Bit reversal of arbitrary integers *)

Lemma bit_reverse_byte_fold (byte j : Z) (l : list Z) (acc : Z) :
  0 <= j -> Forall (fun i => 0 <= i <= 7) l ->
  Z.testbit
    (fold_left (fun result i =>
                  if truthy (Z.land byte (Z.shiftl 1 i))
                  then Z.lor result (Z.shiftl 1 (7 - i))
                  else result) l acc) j
  = Z.testbit acc j || existsb (fun i => (7 - i =? j) && Z.testbit byte i) l.
Proof.
  intros Hj Hl. revert acc.
  induction Hl as [|i l Hi _ IH]; intros acc; cbn [fold_left existsb].
  - rewrite orb_false_r. reflexivity.
  - rewrite IH. rewrite !shiftl_1_pow2, truthy_land_pow2 by lia.
    destruct (Z.testbit byte i).
    + rewrite Z.lor_spec, Z.pow2_bits_eqb by lia.
      rewrite andb_true_r, orb_assoc. reflexivity.
    + rewrite andb_false_r. reflexivity.
Qed.

Lemma bit_reverse_byte_spec (byte j : Z) :
  0 <= j ->
  Z.testbit (bit_reverse_byte byte) j = (j <? 8) && Z.testbit byte (7 - j).
Proof.
  intros Hj. unfold bit_reverse_byte.
  change 255 with (Z.ones 8). rewrite Z.land_spec, Z.testbit_ones by lia.
  rewrite bit_reverse_byte_fold;
    [|lia|change (range 8) with [0; 1; 2; 3; 4; 5; 6; 7];
          repeat constructor; lia].
  rewrite Z.testbit_0_l, orb_false_l.
  change (range 8) with [0; 1; 2; 3; 4; 5; 6; 7]. cbn [existsb].
  destruct (Z.leb_spec 0 j); [|lia]. cbn [andb].
  destruct (Z.ltb_spec j 8) as [Hlt|Hge].
  - assert (Hc : j = 0 \/ j = 1 \/ j = 2 \/ j = 3 \/
                 j = 4 \/ j = 5 \/ j = 6 \/ j = 7) by lia.
    destruct Hc as [E|[E|[E|[E|[E|[E|[E|E]]]]]]]; subst j;
      cbn [Z.eqb Z.sub Z.add Z.opp Z.pos_sub Pos.pred_double Pos.eqb
           andb orb];
      rewrite ?orb_false_r, ?andb_true_r; reflexivity.
  - rewrite andb_false_r.
    repeat match goal with
           | |- context [?a =? j] => destruct (Z.eqb_spec a j); [lia|]
           end.
    reflexivity.
Qed.

(** X1: [bit_reverse_byte] mirrors the low eight bits of any integer, and
    nothing else of it: it gives the entry of [_REV8BITS] for the low byte,
    which is also what [bit_reverse_n] gives for eight bits. *)
Theorem bit_reverse_byte_any (value : Z) :
  0 <= bit_reverse_byte value < 256 /\
  bit_reverse_byte value = rev8 (Z.land value 0xFF) /\
  bit_reverse_byte value = bit_reverse_n value 8 /\
  getitem _REV8BITS (Z.land value 0xFF) = Ok (bit_reverse_byte value).
Proof.
  assert (E1 : bit_reverse_byte value = bit_reverse_n value 8).
  { apply Z.bits_inj'. intros j Hj.
    rewrite bit_reverse_byte_spec, bit_reverse_n_spec by lia.
    destruct (Z.ltb_spec j 8); cbn [andb]; [f_equal; lia|].
    symmetry. apply Z.testbit_neg_r. lia. }
  assert (E2 : bit_reverse_byte value = rev8 (Z.land value 0xFF)).
  { apply Z.bits_inj'. intros j Hj.
    rewrite bit_reverse_byte_spec by lia.
    pose proof (land_255_range value) as Hr.
    rewrite rev8_spec by lia.
    change 255 with (Z.ones 8). rewrite Z.land_spec, Z.testbit_ones by lia.
    destruct (Z.ltb_spec j 8).
    - destruct (Z.leb_spec 0 (7 - j)); [|lia].
      destruct (Z.ltb_spec (7 - j) 8); [|lia].
      rewrite andb_true_r. reflexivity.
    - rewrite Z.testbit_neg_r by lia. reflexivity. }
  split; [|split; [exact E2|split; [exact E1|]]].
  - rewrite E1. apply (bit_reverse_n_range value 8). lia.
  - rewrite E2. apply REV8BITS_getitem. apply land_255_range.
Qed.

(** X2: [bit_reverse_n] ignores every bit of the value above [num_bits]:
    the result lies in [0, 2 ^ num_bits), is the same for the value reduced
    modulo [2 ^ num_bits], and mirroring twice gives that reduced value. *)
Theorem bit_reverse_n_any (value num_bits : Z) :
  0 <= num_bits ->
  0 <= bit_reverse_n value num_bits < 2 ^ num_bits /\
  bit_reverse_n value num_bits
  = bit_reverse_n (value mod 2 ^ num_bits) num_bits /\
  bit_reverse_n (bit_reverse_n value num_bits) num_bits
  = value mod 2 ^ num_bits.
Proof.
  intros Hn. split; [apply bit_reverse_n_range; exact Hn|]. split.
  - apply Z.bits_inj'. intros j Hj. rewrite !bit_reverse_n_spec by lia.
    destruct (Z.ltb_spec (num_bits - 1 - j) 0).
    + rewrite !Z.testbit_neg_r by lia. reflexivity.
    + rewrite Z.mod_pow2_bits_low by lia. reflexivity.
  - apply Z.bits_inj'. intros j Hj. rewrite bit_reverse_n_spec by lia.
    destruct (Z.ltb_spec j num_bits).
    + rewrite bit_reverse_n_spec, Z.mod_pow2_bits_low by lia. f_equal. lia.
    + rewrite Z.testbit_neg_r, Z.mod_pow2_bits_high by lia. reflexivity.
Qed.

Lemma bit_reverse_n_any_witness :
  0 <= 4 /\
  bit_reverse_n (bit_reverse_n 0x35 4) 4 = 0x35 mod 2 ^ 4.
Proof.
  split; [lia|]. apply (bit_reverse_n_any 0x35 4). lia.
Defined.

(** X3: for no more bits than there are, [bit_reverse_n] returns 0. *)
Theorem bit_reverse_n_no_bits (value num_bits : Z) :
  num_bits <= 0 -> bit_reverse_n value num_bits = 0.
Proof.
  intros Hn. apply Z.bits_inj'. intros j Hj.
  rewrite bit_reverse_n_spec, Z.testbit_0_l by lia.
  apply Z.testbit_neg_r. lia.
Qed.

Lemma bit_reverse_n_no_bits_witness :
  -3 <= 0 /\ bit_reverse_n 0xFF (-3) = 0.
Proof.
  split; [lia|]. apply (bit_reverse_n_no_bits 0xFF (-3)). lia.
Defined.

(** ** The end mask *)

(** X4: [_calc_end_mask(last_bit)] keeps, of a byte, the bits from the most
    significant one down to position [last_bit] counted from it (bit
    [7 - last_bit] in the usual numbering), and raises [ValueError] when
    [last_bit] exceeds 7. *)
Theorem calc_end_mask_spec (last_bit : Z) :
  (last_bit <= 7 ->
   exists mask,
     _calc_end_mask last_bit = Ok mask /\
     0 <= mask < 256 /\
     forall j, 0 <= j ->
       Z.testbit mask j = (7 - last_bit <=? j) && (j <? 8)) /\
  (7 < last_bit -> _calc_end_mask last_bit = Raise ValueError).
Proof.
  split.
  - intros H. rewrite end_mask_ok by lia. eexists. split; [reflexivity|].
    split; [apply land_255_range|].
    intros j Hj. rewrite mask_ones by lia.
    change 255 with (Z.ones 8).
    rewrite Z.land_spec, Z.lnot_spec, !Z.testbit_ones by lia.
    zcmp; boolsimp.
  - intros H. unfold _calc_end_mask. rewrite lshift_neg by lia. reflexivity.
Qed.

Lemma calc_end_mask_spec_witness :
  2 <= 7 /\
  exists mask,
    _calc_end_mask 2 = Ok mask /\
    0 <= mask < 256 /\
    forall j, 0 <= j -> Z.testbit mask j = (7 - 2 <=? j) && (j <? 8).
Proof.
  split; [lia|].
  destruct (calc_end_mask_spec 2) as [H _]. apply H. lia.
Defined.

(** ** The two MSB-first table generators *)

Lemma individual_loop (F : Z -> Z) :
  for_each (range2 1 256) (fun table n => setitem table n (F n))
    (repeat 0 256)
  = Ok (map (fun n => if n =? 0 then 0 else F n) (range 256)).
Proof. vm_compute. reflexivity. Qed.

Lemma in_range_bounds (n x : Z) : In x (range n) -> 0 <= x < n.
Proof.
  intros H. pose proof (range2_bounds 0 n) as Hall.
  rewrite Forall_forall in Hall. apply Hall. exact H.
Qed.

(** X5: for every width of at least 8, the doubling loop of
    [create_msb_table] builds exactly the table that
    [create_msb_table_individual] computes entry by entry. *)
Theorem msb_tables_agree (poly width : Z) :
  8 <= width ->
  exists table,
    create_msb_table poly width = Ok table /\
    create_msb_table_individual poly width = Ok table.
Proof.
  intros Hw. eexists. split; [apply create_msb_table_eq; lia|].
  unfold create_msb_table_individual.
  rewrite !lshift_nonneg by lia. cbn [bind].
  rewrite (for_each_ext _ _
             (fun table n =>
                setitem table n
                  (Z.land (repeat_n 8 (msb_round poly (Z.shiftl 1 (width - 1)))
                             (Z.shiftl n (width - 8)))
                          (Z.shiftl 1 width - 1))))
    by (intros; rewrite lshift_nonneg by lia; reflexivity).
  rewrite (individual_loop
             (fun n => Z.land (repeat_n 8 (msb_round poly (Z.shiftl 1 (width - 1)))
                                 (Z.shiftl n (width - 8)))
                              (Z.shiftl 1 width - 1))).
  f_equal. apply map_ext_in. intros n Hn. apply in_range_bounds in Hn.
  rewrite !mask_ones, !shiftl_1_pow2 by lia.
  rewrite (msb_entry_rounds8 poly width Hw n Hn).
  destruct (Z.eqb_spec n 0) as [->|Hne].
  - rewrite Z.shiftl_0_l. symmetry. apply msb_rounds8_0. lia.
  - reflexivity.
Qed.

Lemma msb_tables_agree_witness :
  8 <= 16 /\
  exists table,
    create_msb_table 0x1021 16 = Ok table /\
    create_msb_table_individual 0x1021 16 = Ok table.
Proof.
  split; [lia|]. apply (msb_tables_agree 0x1021 16). lia.
Defined.

(** X6: below a width of 8 [create_msb_table_individual] raises
    [ValueError] (its shift count [width - 8] is negative), also for the
    widths from 1 to 7 for which [create_msb_table] returns a table. *)
Theorem msb_table_individual_narrow (poly width : Z) :
  width < 8 ->
  create_msb_table_individual poly width = Raise ValueError /\
  (1 <= width -> exists table, create_msb_table poly width = Ok table).
Proof.
  intros Hw. split.
  - unfold create_msb_table_individual.
    destruct (Z.ltb_spec width 1).
    + rewrite lshift_neg by lia. reflexivity.
    + rewrite !lshift_nonneg by lia. cbn [bind].
      rewrite range2_cons by lia. cbn [for_each].
      rewrite lshift_neg by lia. reflexivity.
  - intros H1. eexists. apply create_msb_table_eq. lia.
Qed.

Lemma msb_table_individual_narrow_witness :
  5 < 8 /\ create_msb_table_individual 0x15 5 = Raise ValueError.
Proof.
  split; [lia|]. apply (msb_table_individual_narrow 0x15 5). lia.
Defined.

(** ** Table entries are values of [width] bits *)

Lemma sel_range (t : bool) (c w : Z) :
  0 <= c < 2 ^ w -> 0 <= sel t c < 2 ^ w.
Proof. intros H. destruct t; unfold sel; lia. Qed.

Lemma combo_range (c : Z -> Z) (n w : Z) (l : list Z) :
  0 <= w -> (forall b, In b l -> 0 <= c b < 2 ^ w) ->
  0 <= combo c n l < 2 ^ w.
Proof.
  intros Hw. induction l as [|b l IH]; intros H; cbn [combo fold_right].
  - assert (0 < 2 ^ w) by (apply Z.pow_pos_nonneg; lia). lia.
  - fold (combo c n l). apply lxor_range; [lia| |].
    + apply sel_range. apply H. left. reflexivity.
    + apply IH. intros b' Hb'. apply H. right. exact Hb'.
Qed.

Lemma iter_lsb_small (poly width : Z) (m : nat) (x : Z) :
  0 <= width -> 0 <= poly < 2 ^ width -> 0 <= x < 2 ^ width ->
  0 <= Nat.iter m (lsb_round poly) x < 2 ^ width.
Proof.
  intros Hw Hp. revert x. induction m as [|m IH]; intros x Hx.
  - exact Hx.
  - rewrite Nat.iter_succ_r. apply IH.
    apply (lsb_round_range poly width Hw Hp); [lia|].
    split; [lia|]. apply Z.lt_le_trans with (2 ^ width); [lia|].
    apply Z.pow_le_mono_r; lia.
Qed.

Lemma msb_entry_range (poly width n : Z) :
  0 <= width ->
  0 <= msb_entry poly (Z.shiftl 1 (width - 1)) (Z.shiftl 1 width - 1) n
  < 2 ^ width.
Proof.
  intros Hw. unfold msb_entry. rewrite combo_l_eq.
  apply combo_range; [lia|]. intros b _.
  rewrite Nat.iter_succ. unfold msb_step at 1.
  rewrite mask_ones by lia. apply land_ones_range. lia.
Qed.

Lemma lsb_entry_range (poly width n : Z) :
  0 <= width ->
  0 <= lsb_entry (bit_reverse_n poly width) n < 2 ^ width.
Proof.
  intros Hw. pose proof (bit_reverse_n_range poly width Hw) as Hp.
  unfold lsb_entry. rewrite combo_r_eq.
  apply combo_range; [lia|]. intros b Hb. apply in_range_bounds in Hb.
  replace (Z.to_nat (8 - b)) with (S (Z.to_nat (7 - b))) by lia.
  rewrite Nat.iter_succ_r. apply iter_lsb_small; [lia|exact Hp|].
  rewrite lsb_round_eq. change (Z.shiftr 1 1) with 0.
  change (Z.testbit 1 0) with true. unfold sel. rewrite Z.lxor_0_l. exact Hp.
Qed.

(** X7: every entry of a generated table is a value of [width] bits, for
    whatever polynomial: for [create_msb_table] from a width of 1, for
    [create_lsb_table] from a width of 0. *)
Theorem table_entries_fit_width (poly width : Z) :
  (1 <= width ->
   exists table, create_msb_table poly width = Ok table /\
                 Forall (fun e => 0 <= e < 2 ^ width) table) /\
  (0 <= width ->
   exists table, create_lsb_table poly width = Ok table /\
                 Forall (fun e => 0 <= e < 2 ^ width) table).
Proof.
  split; intros Hw.
  - eexists. split; [apply create_msb_table_eq; lia|].
    apply Forall_forall. intros e He. apply in_map_iff in He.
    destruct He as [n [<- _]]. apply msb_entry_range. lia.
  - eexists. split; [apply create_lsb_table_eq|].
    apply Forall_forall. intros e He. apply in_map_iff in He.
    destruct He as [n [<- _]]. apply lsb_entry_range. lia.
Qed.

Lemma table_entries_fit_width_witness :
  1 <= 5 /\
  exists table, create_msb_table 0x15 5 = Ok table /\
                Forall (fun e => 0 <= e < 2 ^ 5) table.
Proof.
  split; [lia|]. apply (table_entries_fit_width 0x15 5). lia.
Defined.

(** X8: [_get_datatype_bits] returns the smallest of 8, 16, 32 and 64 that
    is at least [width], and 64 for every width above 64; for a width from 1
    to 64 every entry of the generated tables fits in the data type. *)
Theorem datatype_accommodates_table (poly width : Z) :
  let bits := _get_datatype_bits width in
  (bits = 8 \/ bits = 16 \/ bits = 32 \/ bits = 64) /\
  (width <= 64 -> width <= bits) /\
  (64 < width -> bits = 64) /\
  (8 < width -> bits < 2 * width) /\
  (1 <= width <= 64 ->
   exists msb lsb,
     create_msb_table poly width = Ok msb /\
     create_lsb_table poly width = Ok lsb /\
     Forall (fun e => 0 <= e < 2 ^ bits) msb /\
     Forall (fun e => 0 <= e < 2 ^ bits) lsb).
Proof.
  cbv zeta.
  assert (B : (_get_datatype_bits width = 8 \/ _get_datatype_bits width = 16 \/
               _get_datatype_bits width = 32 \/ _get_datatype_bits width = 64)
              /\ (width <= 64 -> width <= _get_datatype_bits width)
              /\ (64 < width -> _get_datatype_bits width = 64)
              /\ (8 < width -> _get_datatype_bits width < 2 * width)).
  { unfold _get_datatype_bits. rewrite !Z.gtb_ltb.
    destruct (Z.ltb_spec 32 width); [lia|].
    destruct (Z.ltb_spec 16 width); [lia|].
    destruct (Z.ltb_spec 8 width); lia. }
  destruct B as [B1 [B2 [B3 B4]]].
  split; [exact B1|]. split; [exact B2|]. split; [exact B3|].
  split; [exact B4|].
  intros Hw.
  assert (Hp : 2 ^ width <= 2 ^ _get_datatype_bits width)
    by (apply Z.pow_le_mono_r; lia).
  do 2 eexists. split; [apply create_msb_table_eq; lia|].
  split; [apply create_lsb_table_eq|].
  split; apply Forall_forall; intros e He; apply in_map_iff in He;
    destruct He as [n [<- _]].
  - pose proof (msb_entry_range poly width n ltac:(lia)). lia.
  - pose proof (lsb_entry_range poly width n ltac:(lia)). lia.
Qed.

Lemma datatype_accommodates_table_witness :
  1 <= 12 <= 64 /\
  exists msb lsb,
    create_msb_table 0x80F 12 = Ok msb /\
    create_lsb_table 0x80F 12 = Ok lsb /\
    Forall (fun e => 0 <= e < 2 ^ _get_datatype_bits 12) msb /\
    Forall (fun e => 0 <= e < 2 ^ _get_datatype_bits 12) lsb.
Proof.
  split; [lia|]. apply (datatype_accommodates_table 0x80F 12). lia.
Defined.

(** ** The table-driven engines *)

Lemma for_each_app {A S : Type} (l1 l2 : list A) (f : S -> A -> result S)
    (s : S) :
  for_each (l1 ++ l2) f s = bind (for_each l1 f s) (for_each l2 f).
Proof.
  revert s. induction l1 as [|a l1 IH]; intros s; cbn [app for_each bind].
  - reflexivity.
  - destruct (f s a); cbn [bind]; [apply IH|reflexivity].
Qed.

(** X9: for a width from 1 to 7 and [ref_in] false, [create] returns an
    engine whose [calculate] raises [ValueError] on every non-empty input:
    the shift count [width - 8] of the MSB-first table engine is negative. *)
Theorem msb_table_engine_narrow_raises (poly width seed xor_out : Z)
    (ref_out : bool) (name : string) :
  1 <= width < 8 ->
  exists te,
    create poly width seed false ref_out name xor_out = Ok te /\
    forall b data, table_calculate te (b :: data) = Raise ValueError.
Proof.
  intros Hw. eexists. split; [apply create_msb_ok; lia|].
  intros b data. cbn [table_calculate]. unfold CrcMsbfTable.calculate.
  cbn [for_each CrcMsbfTable._msb_lshift].
  rewrite rshift_neg by lia. reflexivity.
Qed.

Lemma msb_table_engine_narrow_raises_witness :
  1 <= 5 < 8 /\
  exists te,
    create 0x15 5 0 false false "" 0 = Ok te /\
    forall b data, table_calculate te (b :: data) = Raise ValueError.
Proof.
  split; [lia|]. apply (msb_table_engine_narrow_raises 0x15 5 0 0 false "").
  lia.
Defined.

(** A step of the LSB-first table engine, for any engine holding the table
    of the reflected polynomial [pr]. *)
Lemma lsb_table_body_rounds (self : CrcLsbfTable.t) (pr width crc : Z)
    (b : byte) :
  0 <= width -> 0 <= pr < 2 ^ width ->
  CrcLsbfTable._table self = map (lsb_entry pr) (range 256) ->
  CrcLsbfTable._result_mask self = Z.shiftl 1 width - 1 ->
  0 <= crc < 2 ^ width ->
  lsb_table_body self crc b = Ok (lsb_rounds8 pr (Z.lxor crc (byte_val b))) /\
  0 <= lsb_rounds8 pr (Z.lxor crc (byte_val b)) < 2 ^ width.
Proof.
  intros Hw Hp Ht Hm Hcrc. pose proof (byte_val_range b) as Hb.
  unfold lsb_table_body. rewrite Ht, Hm.
  rewrite getitem_map_range
    by (apply (lxor_range _ _ 8); [lia|apply land_255_range|lia]).
  cbn [bind]. rewrite mask_ones by lia.
  rewrite (lsb_table_step pr width Hw Hp) by lia.
  split; [reflexivity|].
  rewrite <- (lsb_table_step pr width Hw Hp) by lia.
  apply land_ones_range. lia.
Qed.

Section LsbfGeneric.

Variables poly width seed xor_out : Z.
Variable ref_out : bool.
Variables name name' : string.
Hypothesis Hwidth : 1 <= width.

Let pr := bit_reverse_n poly width.

Let e : CrcLsbfTable.t :=
  {| CrcLsbfTable._table := map (lsb_entry pr) (range 256);
     CrcLsbfTable._seed := seed; CrcLsbfTable._width := width;
     CrcLsbfTable._xor_out := xor_out;
     CrcLsbfTable._result_mask := Z.shiftl 1 width - 1;
     CrcLsbfTable._reverse_result := negb ref_out;
     CrcLsbfTable.name := name |}.

Let ge : CrcGenericLsbf.t :=
  {| CrcGenericLsbf._poly := pr; CrcGenericLsbf._width := width;
     CrcGenericLsbf._seed := bit_reverse_n seed width;
     CrcGenericLsbf._xor_out := xor_out;
     CrcGenericLsbf._result_mask := Z.shiftl 1 width - 1;
     CrcGenericLsbf._msbit := Z.shiftl 1 (width - 1);
     CrcGenericLsbf._msb_lshift := width - 8;
     CrcGenericLsbf._ref_in := false;
     CrcGenericLsbf._ref_out := negb ref_out;
     CrcGenericLsbf.name := name' |}.

Lemma lsbf_loops_agree (data : list byte) (crc : Z) :
  0 <= crc < 2 ^ width ->
  for_each data (lsb_table_body e) crc =
  Ok (fold_left
        (fun crc byte =>
           Z.land (repeat_n 8 (lsb_round pr) (Z.lxor crc (byte_val byte)))
                  (Z.shiftl 1 width - 1))
        data crc).
Proof.
  assert (Hp : 0 <= pr < 2 ^ width) by (apply bit_reverse_n_range; lia).
  revert crc. induction data as [|b data IH]; intros crc Hcrc;
    cbn [for_each fold_left].
  - reflexivity.
  - destruct (lsb_table_body_rounds e pr width crc b ltac:(lia) Hp
                eq_refl eq_refl Hcrc) as [-> Hr].
    cbn [bind]. rewrite IH by exact Hr. do 2 f_equal.
    rewrite mask_ones by lia. symmetry. apply land_ones_small. exact Hr.
Qed.

Lemma lsbf_engines_agree (data : list byte) :
  create poly width seed true ref_out name xor_out = Ok (Lsbf e) /\
  create_generic_lsbf pr width (bit_reverse_n seed width) false
    (negb ref_out) name' xor_out = Ok ge /\
  table_calculate (Lsbf e) data = Ok (CrcGenericLsbf.calculate ge data None).
Proof.
  split; [apply create_lsb_ok; lia|]. split.
  - unfold create_generic_lsbf, CrcGenericLsbf.init.
    rewrite !lshift_nonneg by lia. reflexivity.
  - cbn [table_calculate]. rewrite lsb_table_calculate_eq.
    change (CrcLsbfTable._seed e) with seed.
    change (CrcLsbfTable._width e) with width.
    rewrite lsbf_loops_agree by (apply bit_reverse_n_range; lia).
    reflexivity.
Qed.

End LsbfGeneric.

(** X10: the LSB-first generic engine, given the reflected polynomial and
    the reflected seed and told not to reflect its input, computes what the
    LSB-first table engine of [create] computes (with [ref_in] true); the
    table engine reverses its result when [ref_out] is false, the generic
    engine when its own [ref_out] is true. *)
Theorem lsbf_generic_agrees_with_table (poly width seed xor_out : Z)
    (ref_out : bool) (name name' : string) (data : list byte) :
  1 <= width ->
  exists te ge,
    create poly width seed true ref_out name xor_out = Ok te /\
    create_generic_lsbf (bit_reverse_n poly width) width
      (bit_reverse_n seed width) false (negb ref_out) name' xor_out = Ok ge /\
    table_calculate te data = Ok (CrcGenericLsbf.calculate ge data None).
Proof.
  intros Hw. do 2 eexists.
  apply (lsbf_engines_agree poly width seed xor_out ref_out name name' Hw data).
Qed.

Lemma lsbf_generic_agrees_with_table_witness :
  1 <= 16 /\
  exists te ge,
    create 0x1021 16 0 true true "" 0 = Ok te /\
    create_generic_lsbf (bit_reverse_n 0x1021 16) 16
      (bit_reverse_n 0 16) false (negb true) "" 0 = Ok ge /\
    table_calculate te (ascii_bytes "123456789")
    = Ok (CrcGenericLsbf.calculate ge (ascii_bytes "123456789") None).
Proof.
  split; [lia|].
  apply (lsbf_generic_agrees_with_table 0x1021 16 0 0 true "" ""). lia.
Defined.

(** ** Appending the CRC to the message *)

Lemma byte_val_to_byte (z : Z) : byte_val (to_byte z) = z mod 256.
Proof.
  unfold to_byte, byte_val.
  assert (Hr : 0 <= z mod 256 < 256) by (apply Z.mod_pos_bound; lia).
  destruct (Byte.of_N (Z.to_N (z mod 256))) as [b|] eqn:E.
  - apply Byte.to_of_N in E. rewrite E. apply Z2N.id. lia.
  - apply Byte.of_N_None_iff in E. lia.
Qed.

Lemma land_255_mod (z : Z) : Z.land z 0xFF = z mod 256.
Proof. change 255 with (Z.ones 8). rewrite Z.land_ones by lia. reflexivity. Qed.

Lemma msb_entry_0 (poly ms_bit mask : Z) : msb_entry poly ms_bit mask 0 = 0.
Proof. reflexivity. Qed.

Lemma lsb_entry_0 (poly : Z) : lsb_entry poly 0 = 0.
Proof. reflexivity. Qed.

Lemma shiftr_small (x w s : Z) :
  0 <= x < 2 ^ w -> 0 <= w <= s -> Z.shiftr x s = 0.
Proof.
  intros Hx Hs. apply Z.bits_inj'. intros j Hj.
  rewrite Z.shiftr_spec, Z.testbit_0_l by lia.
  apply (testbit_above x w); lia.
Qed.

(** *** The LSB-first table engine *)

Section LsbResidue.

Variables poly width seed xor_out : Z.
Variable ref_out : bool.
Variable name : string.
Hypothesis Hwidth : 0 <= width.

Let e : CrcLsbfTable.t :=
  {| CrcLsbfTable._table :=
       map (lsb_entry (bit_reverse_n poly width)) (range 256);
     CrcLsbfTable._seed := seed; CrcLsbfTable._width := width;
     CrcLsbfTable._xor_out := xor_out;
     CrcLsbfTable._result_mask := Z.shiftl 1 width - 1;
     CrcLsbfTable._reverse_result := negb ref_out;
     CrcLsbfTable.name := name |}.

(** The loop of the engine keeps the register within [width] bits. *)
Lemma lsb_loop_range (data : list byte) (crc : Z) :
  0 <= crc < 2 ^ width ->
  exists crc', for_each data (lsb_table_body e) crc = Ok crc' /\
               0 <= crc' < 2 ^ width.
Proof.
  revert crc. induction data as [|b data IH]; intros crc Hcrc; cbn [for_each].
  - exists crc. split; [reflexivity|exact Hcrc].
  - destruct (lsb_table_body_rounds e (bit_reverse_n poly width) width crc b
                Hwidth (bit_reverse_n_range poly width Hwidth)
                eq_refl eq_refl Hcrc) as [-> Hr].
    cbn [bind]. apply IH. exact Hr.
Qed.

(** Fed its own low byte, the register shifts right by eight bits. *)
Lemma lsb_feed_low_byte (crc : Z) (b : byte) :
  0 <= crc < 2 ^ width -> byte_val b = crc mod 256 ->
  lsb_table_body e crc b = Ok (Z.shiftr crc 8).
Proof.
  intros Hcrc Hb. unfold lsb_table_body.
  cbn [CrcLsbfTable._table CrcLsbfTable._result_mask e].
  rewrite Hb, land_255_mod, Z.lxor_nilpotent.
  rewrite getitem_map_range by lia. cbn [bind].
  rewrite lsb_entry_0, Z.lxor_0_r, mask_ones by lia.
  f_equal. apply land_ones_small.
  pose proof (shiftr_range crc width 0 ltac:(lia) Hcrc) as H0.
  apply bits_above_false; [lia|]. intros j Hj.
  rewrite Z.shiftr_spec by lia. apply (testbit_above crc width); lia.
Qed.

Lemma lsb_feed_register (v : Z) (n a : nat) :
  0 <= v < 2 ^ width ->
  for_each (map (fun i => to_byte (Z.shiftr v (8 * Z.of_nat i))) (seq a n))
    (lsb_table_body e) (Z.shiftr v (8 * Z.of_nat a))
  = Ok (Z.shiftr v (8 * Z.of_nat (a + n))).
Proof.
  intros Hv. revert a. induction n as [|n IH]; intros a;
    cbn [seq map for_each].
  - rewrite Nat.add_0_r. reflexivity.
  - rewrite lsb_feed_low_byte.
    + cbn [bind]. rewrite Z.shiftr_shiftr by lia.
      replace (8 * Z.of_nat a + 8) with (8 * Z.of_nat (S a)) by lia.
      rewrite IH. do 2 f_equal. lia.
    + apply bits_above_false; [lia|]. intros j Hj.
      rewrite Z.shiftr_spec by lia. apply (testbit_above v width); lia.
    + apply byte_val_to_byte.
Qed.

End LsbResidue.

(** X11: with [ref_in] and [ref_out] true, appending to a message the
    register of its CRC (the CRC XOR [xor_out]) as little-endian bytes that
    cover the width gives a message whose CRC is [xor_out]: zero for an
    algorithm without output XOR. *)
Theorem lsb_crc_of_message_with_crc (poly width seed xor_out : Z)
    (name : string) (k : nat) (data : list byte) :
  1 <= width <= 8 * Z.of_nat k ->
  exists te crc,
    create poly width seed true true name xor_out = Ok te /\
    table_calculate te data = Ok crc /\
    table_calculate te (data ++ le_bytes k (Z.lxor crc xor_out))
    = Ok xor_out.
Proof.
  intros Hw.
  destruct (lsb_loop_range poly width seed xor_out true name ltac:(lia) data
              (bit_reverse_n seed width)
              (bit_reverse_n_range seed width ltac:(lia))) as [l [Hl Hr]].
  eexists. exists (Z.lxor l xor_out).
  split; [apply create_lsb_ok; lia|].
  cbn [table_calculate]. rewrite !lsb_table_calculate_eq.
  cbn [CrcLsbfTable._seed CrcLsbfTable._width CrcLsbfTable._reverse_result
       CrcLsbfTable._xor_out].
  rewrite for_each_app, Hl. cbn [bind].
  split; [reflexivity|].
  rewrite Z.lxor_assoc, Z.lxor_nilpotent, Z.lxor_0_r.
  unfold le_bytes.
  pose proof (lsb_feed_register poly width seed xor_out true name
                ltac:(lia) l k 0%nat Hr) as Hfeed.
  change (8 * Z.of_nat 0) with 0 in Hfeed. rewrite Z.shiftr_0_r in Hfeed.
  rewrite Hfeed. cbn [bind Nat.add negb reported].
  rewrite (shiftr_small l width) by lia. rewrite Z.lxor_0_l. reflexivity.
Qed.

Lemma lsb_crc_of_message_with_crc_witness :
  1 <= 32 <= 8 * Z.of_nat 4 /\
  exists te crc,
    create 0x04C11DB7 32 0xFFFFFFFF true true "" 0xFFFFFFFF = Ok te /\
    table_calculate te (ascii_bytes "123456789") = Ok crc /\
    table_calculate te
      (ascii_bytes "123456789" ++ le_bytes 4 (Z.lxor crc 0xFFFFFFFF))
    = Ok 0xFFFFFFFF.
Proof.
  split; [cbn; lia|].
  apply (lsb_crc_of_message_with_crc 0x04C11DB7 32 0xFFFFFFFF 0xFFFFFFFF ""
           4 (ascii_bytes "123456789")).
  cbn. lia.
Defined.

(** *** The MSB-first table engine *)

Section MsbResidue.

Variables poly width seed xor_out : Z.
Variable ref_out : bool.
Variable name : string.
Hypothesis Hwidth : 8 <= width.

Let e : CrcMsbfTable.t :=
  {| CrcMsbfTable._table :=
       map (msb_entry poly (Z.shiftl 1 (width - 1)) (Z.shiftl 1 width - 1))
           (range 256);
     CrcMsbfTable._seed := seed; CrcMsbfTable._width := width;
     CrcMsbfTable._xor_out := xor_out;
     CrcMsbfTable._result_mask := Z.shiftl 1 width - 1;
     CrcMsbfTable._msb_lshift := width - 8;
     CrcMsbfTable._reverse_result := ref_out;
     CrcMsbfTable.name := name |}.

Lemma msb_table_body_ok (crc : Z) (b : byte) :
  0 <= crc < 2 ^ width ->
  msb_table_body e crc b
  = Ok (Z.land
          (Z.lxor (Z.shiftl crc 8)
             (msb_entry poly (Z.shiftl 1 (width - 1)) (Z.shiftl 1 width - 1)
                (Z.lxor (Z.shiftr crc (width - 8)) (byte_val b))))
          (Z.ones width)).
Proof.
  intros Hcrc. pose proof (byte_val_range b) as Hb.
  unfold msb_table_body.
  cbn [CrcMsbfTable._msb_lshift CrcMsbfTable._table CrcMsbfTable._result_mask
       e].
  rewrite rshift_nonneg by lia. cbn [bind].
  pose proof (shiftr_range crc width (width - 8) ltac:(lia) Hcrc) as Hhi.
  replace (width - (width - 8)) with 8 in Hhi by lia.
  rewrite getitem_map_range by (apply (lxor_range _ _ 8); lia).
  cbn [bind]. rewrite (mask_ones width) by lia. reflexivity.
Qed.

(** The loop of the engine keeps the register within [width] bits. *)
Lemma msb_loop_range (data : list byte) (crc : Z) :
  0 <= crc < 2 ^ width ->
  exists crc', for_each data (msb_table_body e) crc = Ok crc' /\
               0 <= crc' < 2 ^ width.
Proof.
  revert crc. induction data as [|b data IH]; intros crc Hcrc; cbn [for_each].
  - exists crc. split; [reflexivity|exact Hcrc].
  - rewrite msb_table_body_ok by exact Hcrc. cbn [bind].
    apply IH. apply land_ones_range. lia.
Qed.

(** Fed its own top byte, the register shifts left by eight bits. *)
Lemma msb_feed_top_byte (crc : Z) (b : byte) :
  0 <= crc < 2 ^ width -> byte_val b = Z.shiftr crc (width - 8) ->
  msb_table_body e crc b = Ok (Z.land (Z.shiftl crc 8) (Z.ones width)).
Proof.
  intros Hcrc Hb. rewrite msb_table_body_ok by exact Hcrc.
  rewrite Hb, Z.lxor_nilpotent, msb_entry_0, Z.lxor_0_r. reflexivity.
Qed.

Lemma msb_feed_register (v : Z) (k n a : nat) :
  width = 8 * Z.of_nat k -> (a + n = k)%nat -> 0 <= v < 2 ^ width ->
  for_each
    (map (fun i => to_byte (Z.shiftr v (8 * (Z.of_nat k - 1 - Z.of_nat i))))
         (seq a n))
    (msb_table_body e) (Z.land (Z.shiftl v (8 * Z.of_nat a)) (Z.ones width))
  = Ok (Z.land (Z.shiftl v width) (Z.ones width)).
Proof.
  intros Hk. revert a. induction n as [|n IH]; intros a Han Hv;
    cbn [seq map for_each].
  - do 2 f_equal. f_equal. lia.
  - rewrite msb_feed_top_byte.
    + cbn [bind].
      replace (Z.land (Z.shiftl (Z.land (Z.shiftl v (8 * Z.of_nat a))
                                   (Z.ones width)) 8) (Z.ones width))
        with (Z.land (Z.shiftl v (8 * Z.of_nat (S a))) (Z.ones width)).
      * apply IH; [lia|exact Hv].
      * apply Z.bits_inj'. intros j Hj.
        rewrite !Z.land_spec, !Z.shiftl_spec, !Z.testbit_ones by lia.
        destruct (Z.ltb_spec j 8).
        -- rewrite (Z.testbit_neg_r _ (j - 8)) by lia.
           rewrite (Z.testbit_neg_r v) by lia. reflexivity.
        -- rewrite Z.land_spec, Z.shiftl_spec, Z.testbit_ones by lia.
           replace (j - 8 - 8 * Z.of_nat a) with (j - 8 * Z.of_nat (S a))
             by lia.
           zcmp; boolsimp.
    + apply land_ones_range. lia.
    + rewrite byte_val_to_byte. apply Z.bits_inj'. intros j Hj.
      change 256 with (2 ^ 8).
      rewrite Z.shiftr_spec, Z.land_spec, Z.shiftl_spec, Z.testbit_ones by lia.
      destruct (Z.ltb_spec j 8).
      * rewrite Z.mod_pow2_bits_low, Z.shiftr_spec by lia.
        replace (j + (width - 8) - 8 * Z.of_nat a)
          with (j + 8 * (Z.of_nat k - 1 - Z.of_nat a)) by lia.
        zcmp; boolsimp.
      * rewrite Z.mod_pow2_bits_high by lia. zcmp; boolsimp.
Qed.

End MsbResidue.

Lemma land_shiftl_out (v w : Z) :
  0 <= w -> Z.land (Z.shiftl v w) (Z.ones w) = 0.
Proof.
  intros Hw. apply Z.bits_inj'. intros j Hj.
  rewrite Z.land_spec, Z.shiftl_spec, Z.testbit_ones, Z.testbit_0_l by lia.
  destruct (Z.ltb_spec j w).
  - rewrite Z.testbit_neg_r by lia. reflexivity.
  - rewrite !andb_false_r. reflexivity.
Qed.

(** X12: with [ref_in] and [ref_out] false and a width of [k] whole bytes,
    appending to a message the register of its CRC (the CRC XOR [xor_out])
    as [k] big-endian bytes gives a message whose CRC is [xor_out]: zero for
    an algorithm without output XOR. *)
Theorem msb_crc_of_message_with_crc (poly width seed xor_out : Z)
    (name : string) (k : nat) (data : list byte) :
  (1 <= k)%nat -> width = 8 * Z.of_nat k -> 0 <= seed < 2 ^ width ->
  exists te crc,
    create poly width seed false false name xor_out = Ok te /\
    table_calculate te data = Ok crc /\
    table_calculate te (data ++ be_bytes k (Z.lxor crc xor_out))
    = Ok xor_out.
Proof.
  intros Hk Hw Hseed.
  destruct (msb_loop_range poly width seed xor_out false name ltac:(lia) data
              seed Hseed) as [r [Hl Hr]].
  eexists. exists (Z.lxor r xor_out).
  split; [apply create_msb_ok; lia|].
  cbn [table_calculate]. rewrite !msb_table_calculate_eq.
  cbn [CrcMsbfTable._seed CrcMsbfTable._width CrcMsbfTable._reverse_result
       CrcMsbfTable._xor_out].
  rewrite for_each_app, Hl. cbn [bind]. split; [reflexivity|].
  rewrite Z.lxor_assoc, Z.lxor_nilpotent, Z.lxor_0_r.
  unfold be_bytes.
  pose proof (msb_feed_register poly width seed xor_out false name
                ltac:(lia) r k k 0%nat Hw ltac:(lia) Hr) as Hfeed.
  change (8 * Z.of_nat 0) with 0 in Hfeed. rewrite Z.shiftl_0_r in Hfeed.
  rewrite (land_ones_small r width Hr) in Hfeed.
  rewrite Hfeed. cbn [bind reported].
  rewrite land_shiftl_out by lia. rewrite Z.lxor_0_l. reflexivity.
Qed.

Lemma msb_crc_of_message_with_crc_witness :
  ((1 <= 2)%nat /\ 16 = 8 * Z.of_nat 2 /\ 0 <= 0xFFFF < 2 ^ 16) /\
  exists te crc,
    create 0x1021 16 0xFFFF false false "" 0 = Ok te /\
    table_calculate te (ascii_bytes "123456789") = Ok crc /\
    table_calculate te (ascii_bytes "123456789" ++ be_bytes 2 (Z.lxor crc 0))
    = Ok 0.
Proof.
  split; [cbn; lia|].
  apply (msb_crc_of_message_with_crc 0x1021 16 0xFFFF 0 "" 2
           (ascii_bytes "123456789")); cbn; lia.
Defined.

(** ** The register of the generic engine *)

Lemma shiftl_range (x w s : Z) :
  0 <= s -> 0 <= w -> 0 <= x < 2 ^ w -> 0 <= Z.shiftl x s < 2 ^ (w + s).
Proof.
  intros Hs Hw Hx. apply bits_above_false; [lia|].
  intros j Hj. rewrite Z.shiftl_spec by lia. apply (testbit_above x w); lia.
Qed.

Lemma shiftl_shiftr_lowzero (x s : Z) :
  0 <= s -> lowzero s x -> Z.shiftl (Z.shiftr x s) s = x.
Proof.
  intros Hs Hx. apply Z.bits_inj'. intros j Hj.
  rewrite Z.shiftl_spec by lia.
  destruct (Z.ltb_spec j s).
  - rewrite Z.testbit_neg_r, Hx by lia. reflexivity.
  - rewrite Z.shiftr_spec by lia. f_equal. lia.
Qed.

Lemma reported_range (ref_out : bool) (width crc : Z) :
  0 <= width -> 0 <= crc < 2 ^ width ->
  0 <= reported ref_out width crc < 2 ^ width.
Proof.
  intros Hw Hc. destruct ref_out; cbn [reported];
    [apply bit_reverse_n_range; lia|exact Hc].
Qed.

Lemma reported_involutive (ref_out : bool) (width crc : Z) :
  0 <= crc < 2 ^ width ->
  reported ref_out width (reported ref_out width crc) = crc.
Proof.
  intros Hc. destruct ref_out; cbn [reported];
    [apply bit_reverse_n_involutive; exact Hc|reflexivity].
Qed.

Section GenericLoop.

Variable g : CrcGeneric.t.
Hypothesis Hg : generic_wf g.

Let L := CrcGeneric._crc_lshift g.
Let M := CrcGeneric._msb_lshift g.
Let poly := Z.shiftl (CrcGeneric._poly g) L.

(** The loop of the engine keeps the register within its [width + crc_lshift]
    bits, with the bits below the alignment shift clear. *)
Lemma generic_loop_inv (data : list byte) (crc : Z) :
  0 <= crc < 2 ^ (M + 8) -> lowzero L crc ->
  exists crc', for_each data (generic_body g poly) crc = Ok crc' /\
               0 <= crc' < 2 ^ (M + 8) /\ lowzero L crc'.
Proof.
  destruct Hg as [HL HM Hone HW Hms Hcm]. fold L M in HL, HM, Hone, HW, Hms, Hcm.
  assert (Hp : lowzero L poly).
  { unfold poly. replace L with (0 + L) at 1 by lia.
    apply lowzero_shiftl; [lia|]. intros j Hj. lia. }
  revert crc. induction data as [|b data IH]; intros crc Hcrc Hlow;
    cbn [for_each].
  - exists crc. split; [reflexivity|]. split; assumption.
  - unfold generic_body at 1. fold M.
    rewrite lshift_nonneg by lia. cbn [bind].
    rewrite Hms, Hcm.
    change (repeat_n _BYTEBITS ?f ?x) with (Nat.iter 8 f x).
    replace (M + 7) with (M + 8 - 1) by lia.
    set (x := Z.lxor crc _).
    pose proof (iter_msb_round_mask poly (M + 8) 8 x ltac:(lia)) as E.
    cbn [Nat.eqb] in E. rewrite <- E.
    apply IH.
    + rewrite E. apply land_ones_range. lia.
    + destruct Hone as [H0|H0].
      * rewrite H0. intros j Hj. lia.
      * eapply lowzero_weaken.
        -- apply (iter_wround_low poly (M + 8) L 8 0 x); [lia|exact Hp|].
           intros j Hj. lia.
        -- change (Z.of_nat 8) with 8. lia.
Qed.

End GenericLoop.

(** X13: the generic engine returns a value of [width] bits: for a seed and
    an xor_out that fit in [width] bits, whatever the polynomial, the
    reflection flags and the input. *)
Theorem generic_crc_fits_width (poly width seed xor_out : Z)
    (ref_in ref_out : bool) (name : string) (data : list byte)
    (s : option Z) :
  1 <= width ->
  0 <= match s with Some v => v | None => seed end < 2 ^ width ->
  0 <= xor_out < 2 ^ width ->
  exists ge crc,
    create_generic poly width seed ref_in ref_out name xor_out = Ok ge /\
    CrcGeneric.calculate ge data s = Ok crc /\
    0 <= crc < 2 ^ width.
Proof.
  intros Hw Hs Hx.
  pose proof (generic_init_ok poly width seed ref_in ref_out xor_out name
                ltac:(lia)) as Hinit.
  pose proof (generic_init_wf _ _ _ _ _ _ _ _ Hinit) as Hwf.
  pose proof Hwf as [HL HM Hone HW Hms Hcm].
  cbn [CrcGeneric._crc_lshift CrcGeneric._msb_lshift CrcGeneric._width] in *.
  set (L := if width <? 8 then 8 - width else 0) in *.
  set (M := if width <? 8 then 0 else width - 8) in *.
  set (s0 := match s with Some v => v | None => seed end) in *.
  match type of Hinit with
  | _ = Ok ?r => set (g := r) in *
  end.
  destruct (generic_loop_inv g Hwf data (Z.shiftl s0 L)) as [c [Hl [Hr Hz]]].
  { change (CrcGeneric._msb_lshift g) with M. rewrite <- HW.
    apply shiftl_range; lia. }
  { change (CrcGeneric._crc_lshift g) with L.
    replace L with (0 + L) at 1 by lia.
    apply lowzero_shiftl; [lia|]. intros j Hj. lia. }
  change (CrcGeneric._crc_lshift g) with L in Hl.
  change (CrcGeneric._msb_lshift g) with M in Hr.
  change (CrcGeneric._poly g) with poly in Hl.
  exists g. eexists. split; [exact Hinit|].
  rewrite generic_calculate_eq by exact Hwf.
  change (CrcGeneric._crc_lshift g) with L.
  change (CrcGeneric._poly g) with poly.
  change (CrcGeneric._default_seed g) with seed.
  change (CrcGeneric._ref_out g) with ref_out.
  change (CrcGeneric._width g) with width.
  change (CrcGeneric._xor_out g) with xor_out.
  fold s0. rewrite Hl. cbn [bind].
  split; [reflexivity|].
  apply lxor_range; [lia| |exact Hx].
  apply reported_range; [lia|].
  pose proof (shiftr_range c (M + 8) L ltac:(lia) Hr) as Hsr.
  replace (M + 8 - L) with width in Hsr by lia. exact Hsr.
Qed.

Lemma generic_crc_fits_width_witness :
  (1 <= 5 /\ 0 <= 0x1F < 2 ^ 5 /\ 0 <= 0x1F < 2 ^ 5) /\
  exists ge crc,
    create_generic 0x05 5 0x1F true true "" 0x1F = Ok ge /\
    CrcGeneric.calculate ge (ascii_bytes "123456789") None = Ok crc /\
    0 <= crc < 2 ^ 5.
Proof.
  split; [cbn; lia|].
  apply (generic_crc_fits_width 0x05 5 0x1F 0x1F true true ""
           (ascii_bytes "123456789") None); cbn; lia.
Defined.

(** X14: the seed argument of the generic engine continues a calculation:
    the CRC of [d1 ++ d2] is the CRC of [d2] seeded with the register left
    by [d1], which is the CRC of [d1] XOR [xor_out], mirrored back when
    [ref_out] is set. *)
Theorem generic_seed_continues (poly width seed xor_out : Z)
    (ref_in ref_out : bool) (name : string) (d1 d2 : list byte)
    (s : option Z) :
  1 <= width ->
  0 <= match s with Some v => v | None => seed end < 2 ^ width ->
  exists ge crc1 crc,
    create_generic poly width seed ref_in ref_out name xor_out = Ok ge /\
    CrcGeneric.calculate ge d1 s = Ok crc1 /\
    CrcGeneric.calculate ge (d1 ++ d2) s = Ok crc /\
    CrcGeneric.calculate ge d2
      (Some (reported ref_out width (Z.lxor crc1 xor_out))) = Ok crc.
Proof.
  intros Hw Hs.
  pose proof (generic_init_ok poly width seed ref_in ref_out xor_out name
                ltac:(lia)) as Hinit.
  pose proof (generic_init_wf _ _ _ _ _ _ _ _ Hinit) as Hwf.
  pose proof Hwf as [HL HM Hone HW Hms Hcm].
  cbn [CrcGeneric._crc_lshift CrcGeneric._msb_lshift CrcGeneric._width] in *.
  set (L := if width <? 8 then 8 - width else 0) in *.
  set (M := if width <? 8 then 0 else width - 8) in *.
  set (s0 := match s with Some v => v | None => seed end) in *.
  match type of Hinit with
  | _ = Ok ?r => set (g := r) in *
  end.
  destruct (generic_loop_inv g Hwf d1 (Z.shiftl s0 L)) as [c1 [Hl1 [Hr1 Hz1]]].
  { change (CrcGeneric._msb_lshift g) with M. rewrite <- HW.
    apply shiftl_range; lia. }
  { change (CrcGeneric._crc_lshift g) with L.
    replace L with (0 + L) at 1 by lia.
    apply lowzero_shiftl; [lia|]. intros j Hj. lia. }
  destruct (generic_loop_inv g Hwf d2 c1 Hr1 Hz1) as [c2 [Hl2 _]].
  change (CrcGeneric._crc_lshift g) with L in Hl1, Hl2, Hz1.
  change (CrcGeneric._msb_lshift g) with M in Hr1.
  change (CrcGeneric._poly g) with poly in Hl1, Hl2.
  exists g. eexists. eexists. split; [exact Hinit|].
  rewrite !generic_calculate_eq by exact Hwf.
  change (CrcGeneric._crc_lshift g) with L.
  change (CrcGeneric._poly g) with poly.
  change (CrcGeneric._default_seed g) with seed.
  change (CrcGeneric._ref_out g) with ref_out.
  change (CrcGeneric._width g) with width.
  change (CrcGeneric._xor_out g) with xor_out.
  fold s0. rewrite for_each_app, Hl1. cbn [bind]. rewrite Hl2. cbn [bind].
  split; [reflexivity|]. split; [reflexivity|].
  rewrite Z.lxor_assoc, Z.lxor_nilpotent, Z.lxor_0_r.
  assert (Hsr : 0 <= Z.shiftr c1 L < 2 ^ width).
  { pose proof (shiftr_range c1 (M + 8) L ltac:(lia) Hr1) as H.
    replace (M + 8 - L) with width in H by lia. exact H. }
  rewrite reported_involutive by exact Hsr.
  rewrite shiftl_shiftr_lowzero by (lia || exact Hz1).
  rewrite Hl2. reflexivity.
Qed.

Lemma generic_seed_continues_witness :
  (1 <= 16 /\ 0 <= 0xFFFF < 2 ^ 16) /\
  exists ge crc1 crc,
    create_generic 0x1021 16 0xFFFF false false "" 0 = Ok ge /\
    CrcGeneric.calculate ge (ascii_bytes "1234") None = Ok crc1 /\
    CrcGeneric.calculate ge (ascii_bytes "1234" ++ ascii_bytes "56789") None
    = Ok crc /\
    CrcGeneric.calculate ge (ascii_bytes "56789")
      (Some (reported false 16 (Z.lxor crc1 0))) = Ok crc.
Proof.
  split; [cbn; lia|].
  apply (generic_seed_continues 0x1021 16 0xFFFF 0 false false ""
           (ascii_bytes "1234") (ascii_bytes "56789") None); cbn; lia.
Defined.

(** ** The register of the table-driven engines *)

(** X15: an engine built by [create] returns a value of [width] bits when
    [xor_out] fits in [width] bits: for every seed with [ref_in], for a
    seed of [width] bits and a width of at least 8 without. *)
Theorem table_crc_fits_width (poly width seed xor_out : Z)
    (ref_in ref_out : bool) (name : string) (data : list byte) :
  (if ref_in then 1 <= width else 8 <= width /\ 0 <= seed < 2 ^ width) ->
  0 <= xor_out < 2 ^ width ->
  exists te crc,
    create poly width seed ref_in ref_out name xor_out = Ok te /\
    table_calculate te data = Ok crc /\
    0 <= crc < 2 ^ width.
Proof.
  intros Hw Hx. destruct ref_in.
  - destruct (lsb_loop_range poly width seed xor_out ref_out name ltac:(lia)
                data (bit_reverse_n seed width)
                (bit_reverse_n_range seed width ltac:(lia))) as [l [Hl Hr]].
    eexists. eexists. split; [apply create_lsb_ok; lia|].
    cbn [table_calculate]. rewrite lsb_table_calculate_eq.
    cbn [CrcLsbfTable._seed CrcLsbfTable._width CrcLsbfTable._reverse_result
         CrcLsbfTable._xor_out].
    rewrite Hl. cbn [bind]. split; [reflexivity|].
    apply lxor_range; [lia| |exact Hx].
    apply reported_range; [lia|exact Hr].
  - destruct Hw as [Hw Hseed].
    destruct (msb_loop_range poly width seed xor_out ref_out name Hw data
                seed Hseed) as [r [Hl Hr]].
    eexists. eexists. split; [apply create_msb_ok; lia|].
    cbn [table_calculate]. rewrite msb_table_calculate_eq.
    cbn [CrcMsbfTable._seed CrcMsbfTable._width CrcMsbfTable._reverse_result
         CrcMsbfTable._xor_out].
    rewrite Hl. cbn [bind]. split; [reflexivity|].
    apply lxor_range; [lia| |exact Hx].
    apply reported_range; [lia|exact Hr].
Qed.

Lemma table_crc_fits_width_witness :
  ((if true then 1 <= 5 else 8 <= 5 /\ 0 <= 0x1F < 2 ^ 5) /\
   0 <= 0x1F < 2 ^ 5) /\
  exists te crc,
    create 0x05 5 0x1F true true "" 0x1F = Ok te /\
    table_calculate te (ascii_bytes "123456789") = Ok crc /\
    0 <= crc < 2 ^ 5.
Proof.
  split; [cbn; lia|].
  apply (table_crc_fits_width 0x05 5 0x1F 0x1F true true ""
           (ascii_bytes "123456789")); cbn; lia.
Defined.

Lemma lxor_byte_high (x b : Z) : 256 <= x -> 0 <= b < 256 -> 256 <= Z.lxor x b.
Proof.
  intros Hx Hb.
  assert (H0 : 0 <= Z.lxor x b) by (apply Z.lxor_nonneg; lia).
  assert (E : Z.shiftr (Z.lxor x b) 8 = Z.shiftr x 8).
  { rewrite Z.shiftr_lxor.
    replace (Z.shiftr b 8) with 0; [apply Z.lxor_0_r|].
    rewrite Z.shiftr_div_pow2 by lia. change (2 ^ 8) with 256.
    symmetry. apply Z.div_small. lia. }
  rewrite !Z.shiftr_div_pow2 in E by lia. change (2 ^ 8) with 256 in E.
  assert (1 <= x / 256) by (apply Z.div_le_lower_bound; lia).
  destruct (Z.lt_ge_cases (Z.lxor x b) 256) as [Hlt|]; [|assumption].
  rewrite Z.div_small in E by lia. lia.
Qed.

(** X16: without [ref_in] the seed is not masked: a seed of more than
    [width] bits indexes past the end of the lookup table on the first byte
    of input, and the calculation raises IndexError. *)
Theorem msb_table_wide_seed_raises (poly width seed xor_out : Z)
    (ref_out : bool) (name : string) (b : byte) (data : list byte) :
  8 <= width -> 2 ^ width <= seed ->
  exists te,
    create poly width seed false ref_out name xor_out = Ok te /\
    table_calculate te (b :: data) = Raise IndexError.
Proof.
  intros Hw Hseed. eexists. split; [apply create_msb_ok; lia|].
  cbn [table_calculate]. rewrite msb_table_calculate_eq.
  cbn [CrcMsbfTable._seed for_each]. unfold msb_table_body at 1.
  cbn [CrcMsbfTable._msb_lshift CrcMsbfTable._table].
  rewrite rshift_nonneg by lia. cbn [bind].
  pose proof (byte_val_range b) as Hb.
  assert (Hhi : 256 <= Z.shiftr seed (width - 8)).
  { rewrite Z.shiftr_div_pow2 by lia.
    apply Z.div_le_lower_bound; [apply Z.pow_pos_nonneg; lia|].
    replace (2 ^ (width - 8) * 256) with (2 ^ width); [exact Hseed|].
    change 256 with (2 ^ 8). rewrite <- Z.pow_add_r by lia.
    f_equal. lia. }
  pose proof (lxor_byte_high _ _ Hhi Hb) as Hi.
  unfold getitem, len. rewrite length_map, length_range.
  change (Z.of_nat (Z.to_nat 256)) with 256.
  destruct (Z.ltb_spec (Z.lxor (Z.shiftr seed (width - 8)) (byte_val b)) 0);
    [lia|].
  destruct (Z.ltb_spec (Z.lxor (Z.shiftr seed (width - 8)) (byte_val b)) 256);
    [lia|].
  rewrite andb_false_r. reflexivity.
Qed.

Lemma msb_table_wide_seed_raises_witness :
  (8 <= 8 /\ 2 ^ 8 <= 0x100) /\
  exists te,
    create 0x07 8 0x100 false false "" 0 = Ok te /\
    table_calculate te (ascii_bytes "1") = Raise IndexError.
Proof.
  split; [cbn; lia|].
  apply (msb_table_wide_seed_raises 0x07 8 0x100 0 false "" "1"%byte []);
    cbn; lia.
Defined.

(** X17: a table-driven calculation is continued by a second engine: the
    CRC of [d1 ++ d2] is the CRC of [d2] by the engine whose seed is the CRC
    of [d1] XOR [xor_out], mirrored when [ref_out] is set. *)
Theorem table_seed_continues (poly width seed xor_out : Z)
    (ref_in ref_out : bool) (name : string) (d1 d2 : list byte) :
  (if ref_in then 1 <= width else 8 <= width /\ 0 <= seed < 2 ^ width) ->
  exists te crc1 crc te',
    create poly width seed ref_in ref_out name xor_out = Ok te /\
    table_calculate te d1 = Ok crc1 /\
    table_calculate te (d1 ++ d2) = Ok crc /\
    create poly width (reported ref_out width (Z.lxor crc1 xor_out))
      ref_in ref_out name xor_out = Ok te' /\
    table_calculate te' d2 = Ok crc.
Proof.
  intros Hw. destruct ref_in.
  - destruct (lsb_loop_range poly width seed xor_out ref_out name ltac:(lia)
                d1 (bit_reverse_n seed width)
                (bit_reverse_n_range seed width ltac:(lia))) as [l [Hl Hr]].
    destruct (lsb_loop_range poly width seed xor_out ref_out name ltac:(lia)
                d2 l Hr) as [l2 [Hl2 Hr2]].
    eexists. eexists. eexists. eexists.
    split; [apply create_lsb_ok; lia|].
    split.
    { cbn [table_calculate]. rewrite lsb_table_calculate_eq.
      cbn [CrcLsbfTable._seed CrcLsbfTable._width
           CrcLsbfTable._reverse_result CrcLsbfTable._xor_out].
      rewrite Hl. cbn [bind]. reflexivity. }
    split.
    { cbn [table_calculate]. rewrite lsb_table_calculate_eq.
      cbn [CrcLsbfTable._seed CrcLsbfTable._width
           CrcLsbfTable._reverse_result CrcLsbfTable._xor_out].
      rewrite for_each_app, Hl. cbn [bind]. rewrite Hl2. cbn [bind].
      reflexivity. }
    split; [apply create_lsb_ok; lia|].
    cbn [table_calculate]. rewrite lsb_table_calculate_eq.
    cbn [CrcLsbfTable._seed CrcLsbfTable._width
         CrcLsbfTable._reverse_result CrcLsbfTable._xor_out].
    rewrite Z.lxor_assoc, Z.lxor_nilpotent, Z.lxor_0_r.
    assert (E : bit_reverse_n
                  (reported ref_out width (reported (negb ref_out) width l))
                  width = l).
    { destruct ref_out; cbn [reported negb];
        apply bit_reverse_n_involutive; exact Hr. }
    rewrite E.
    change (for_each d2 (lsb_table_body _) l) with
      (for_each d2
         (lsb_table_body
            {| CrcLsbfTable._table :=
                 map (lsb_entry (bit_reverse_n poly width)) (range 256);
               CrcLsbfTable._seed := seed; CrcLsbfTable._width := width;
               CrcLsbfTable._xor_out := xor_out;
               CrcLsbfTable._result_mask := Z.shiftl 1 width - 1;
               CrcLsbfTable._reverse_result := negb ref_out;
               CrcLsbfTable.name := name |}) l).
    rewrite Hl2. reflexivity.
  - destruct Hw as [Hw Hseed].
    destruct (msb_loop_range poly width seed xor_out ref_out name Hw d1
                seed Hseed) as [r [Hl Hr]].
    destruct (msb_loop_range poly width seed xor_out ref_out name Hw d2
                r Hr) as [r2 [Hl2 Hr2]].
    eexists. eexists. eexists. eexists.
    split; [apply create_msb_ok; lia|].
    split.
    { cbn [table_calculate]. rewrite msb_table_calculate_eq.
      cbn [CrcMsbfTable._seed CrcMsbfTable._width
           CrcMsbfTable._reverse_result CrcMsbfTable._xor_out].
      rewrite Hl. cbn [bind]. reflexivity. }
    split.
    { cbn [table_calculate]. rewrite msb_table_calculate_eq.
      cbn [CrcMsbfTable._seed CrcMsbfTable._width
           CrcMsbfTable._reverse_result CrcMsbfTable._xor_out].
      rewrite for_each_app, Hl. cbn [bind]. rewrite Hl2. cbn [bind].
      reflexivity. }
    split; [apply create_msb_ok; lia|].
    cbn [table_calculate]. rewrite msb_table_calculate_eq.
    cbn [CrcMsbfTable._seed CrcMsbfTable._width
         CrcMsbfTable._reverse_result CrcMsbfTable._xor_out].
    rewrite Z.lxor_assoc, Z.lxor_nilpotent, Z.lxor_0_r.
    rewrite reported_involutive by exact Hr.
    change (for_each d2 (msb_table_body _) r) with
      (for_each d2
         (msb_table_body
            {| CrcMsbfTable._table :=
                 map (msb_entry poly (Z.shiftl 1 (width - 1))
                        (Z.shiftl 1 width - 1)) (range 256);
               CrcMsbfTable._seed := seed; CrcMsbfTable._width := width;
               CrcMsbfTable._xor_out := xor_out;
               CrcMsbfTable._result_mask := Z.shiftl 1 width - 1;
               CrcMsbfTable._msb_lshift := width - 8;
               CrcMsbfTable._reverse_result := ref_out;
               CrcMsbfTable.name := name |}) r).
    rewrite Hl2. reflexivity.
Qed.

Lemma table_seed_continues_witness :
  (if true then 1 <= 32
   else 8 <= 32 /\ 0 <= 0xFFFFFFFF < 2 ^ 32) /\
  exists te crc1 crc te',
    create 0x04C11DB7 32 0xFFFFFFFF true true "" 0xFFFFFFFF = Ok te /\
    table_calculate te (ascii_bytes "1234") = Ok crc1 /\
    table_calculate te (ascii_bytes "1234" ++ ascii_bytes "56789") = Ok crc /\
    create 0x04C11DB7 32 (reported true 32 (Z.lxor crc1 0xFFFFFFFF))
      true true "" 0xFFFFFFFF = Ok te' /\
    table_calculate te' (ascii_bytes "56789") = Ok crc.
Proof.
  split; [cbn; lia|].
  apply (table_seed_continues 0x04C11DB7 32 0xFFFFFFFF 0xFFFFFFFF true true ""
           (ascii_bytes "1234") (ascii_bytes "56789")).
  cbn. lia.
Defined.

(** ** The two lookup tables are mirror images *)

Lemma bit_reverse_byte_range (value : Z) : 0 <= bit_reverse_byte value < 256.
Proof.
  change 256 with (2 ^ 8). apply bits_above_false; [lia|].
  intros j Hj. rewrite bit_reverse_byte_spec by lia.
  destruct (Z.ltb_spec j 8); [lia|reflexivity].
Qed.

Lemma bit_reverse_n_0 (n : Z) : bit_reverse_n 0 n = 0.
Proof.
  apply Z.bits_inj'. intros j Hj.
  rewrite bit_reverse_n_spec, !Z.testbit_0_l by lia. reflexivity.
Qed.

Lemma bit_reverse_n_top_bit (w : Z) : 1 <= w -> bit_reverse_n (2 ^ (w - 1)) w = 1.
Proof.
  intros Hw. apply Z.bits_inj'. intros j Hj.
  rewrite bit_reverse_n_spec by lia.
  assert (E : Z.testbit 1 j = (0 =? j))
    by (apply (Z.pow2_bits_eqb 0); lia).
  rewrite E, Z.pow2_bits_eqb by lia.
  destruct (Z.eqb_spec (w - 1) (w - 1 - j)), (Z.eqb_spec 0 j);
    reflexivity || lia.
Qed.

Lemma lxor8_rev (a0 a1 a2 a3 a4 a5 a6 a7 : Z) :
  Z.lxor a0 (Z.lxor a1 (Z.lxor a2 (Z.lxor a3
    (Z.lxor a4 (Z.lxor a5 (Z.lxor a6 (Z.lxor a7 0)))))))
  = Z.lxor a7 (Z.lxor a6 (Z.lxor a5 (Z.lxor a4
      (Z.lxor a3 (Z.lxor a2 (Z.lxor a1 (Z.lxor a0 0))))))).
Proof.
  apply Z.bits_inj'. intros j Hj. rewrite !Z.lxor_spec, Z.testbit_0_l.
  destruct (Z.testbit a0 j), (Z.testbit a1 j), (Z.testbit a2 j),
    (Z.testbit a3 j), (Z.testbit a4 j), (Z.testbit a5 j), (Z.testbit a6 j),
    (Z.testbit a7 j); reflexivity.
Qed.

(** The LSB-first entry at the mirrored index combines the same powers as
    the MSB-first entry, in the opposite order. *)
Lemma lsb_entry_mirror (pr i : Z) :
  lsb_entry pr (bit_reverse_byte i)
  = combo (fun b => Nat.iter (S (Z.to_nat b)) (lsb_round pr) 1) i (range 8).
Proof.
  unfold lsb_entry. rewrite combo_r_eq.
  change (range 8) with [0; 1; 2; 3; 4; 5; 6; 7].
  cbn [combo fold_right].
  rewrite !bit_reverse_byte_spec by lia.
  rewrite lxor8_rev. reflexivity.
Qed.

(** X18: the LSB-first table is the mirror image of the MSB-first table:
    its entry at the bit-reversed index is the bit-reversed entry. *)
Theorem lsb_table_mirrors_msb_table (poly width i : Z) :
  1 <= width -> 0 <= i < 256 ->
  exists msb lsb e,
    create_msb_table poly width = Ok msb /\
    create_lsb_table poly width = Ok lsb /\
    getitem msb i = Ok e /\
    getitem lsb (bit_reverse_byte i) = Ok (bit_reverse_n e width).
Proof.
  intros Hw Hi. eexists. eexists. eexists.
  split; [apply create_msb_table_eq; lia|].
  split; [apply create_lsb_table_eq|].
  split; [apply getitem_map_range; exact Hi|].
  rewrite getitem_map_range by apply bit_reverse_byte_range.
  f_equal. rewrite lsb_entry_mirror.
  unfold msb_entry. rewrite combo_l_eq.
  rewrite <- (combo_linear (fun x => bit_reverse_n x width))
    by (apply bit_reverse_n_0 || (intros; apply bit_reverse_n_lxor)).
  apply combo_ext. intros b _.
  rewrite shiftl_1_pow2, mask_ones by lia.
  change (msb_step poly (2 ^ (width - 1)) (Z.ones width)) with
    (fun c => Z.land (msb_round poly (2 ^ (width - 1)) c) (Z.ones width)).
  rewrite reflect_iter, bit_reverse_n_top_bit by lia. reflexivity.
Qed.

Lemma lsb_table_mirrors_msb_table_witness :
  (1 <= 16 /\ 0 <= 1 < 256) /\
  exists msb lsb e,
    create_msb_table 0x1021 16 = Ok msb /\
    create_lsb_table 0x1021 16 = Ok lsb /\
    getitem msb 1 = Ok e /\
    getitem lsb (bit_reverse_byte 1) = Ok (bit_reverse_n e 16).
Proof.
  split; [cbn; lia|].
  apply (lsb_table_mirrors_msb_table 0x1021 16 1); cbn; lia.
Defined.

(** ** The largest value of a width *)

(** X19: [get_bits_max_value] raises ValueError for a negative number of
    bits; for any other it returns the largest integer of that many bits:
    the non-negative integers up to it are those below [2 ^ nbits]. *)
Theorem get_bits_max_value_spec (nbits : Z) :
  (nbits < 0 -> get_bits_max_value nbits = Raise ValueError) /\
  (0 <= nbits ->
   exists m, get_bits_max_value nbits = Ok m /\ m = Z.ones nbits /\
             forall v, v <= m <-> v < 2 ^ nbits).
Proof.
  unfold get_bits_max_value. split; intros H.
  - rewrite lshift_neg by lia. reflexivity.
  - rewrite lshift_nonneg by lia. cbn [bind].
    eexists. split; [reflexivity|]. split; [apply mask_ones; lia|].
    intros v. rewrite shiftl_1_pow2 by lia. lia.
Qed.

Lemma get_bits_max_value_spec_witness :
  get_bits_max_value (-1) = Raise ValueError /\
  exists m, get_bits_max_value 16 = Ok m /\ m = Z.ones 16 /\
            forall v, v <= m <-> v < 2 ^ 16.
Proof.
  split.
  - apply (proj1 (get_bits_max_value_spec (-1))). lia.
  - apply (proj2 (get_bits_max_value_spec 16)). lia.
Defined.

(** ** The CRC of a combination of messages *)

Lemma byte_val_xor (a b : byte) :
  byte_val (to_byte (Z.lxor (byte_val a) (byte_val b)))
  = Z.lxor (byte_val a) (byte_val b).
Proof.
  rewrite byte_val_to_byte. apply Z.mod_small.
  change 256 with (2 ^ 8).
  apply lxor_range; [lia|apply byte_val_range|apply byte_val_range].
Qed.

Lemma rev8_lxor (x y : Z) :
  0 <= x < 256 -> 0 <= y < 256 ->
  rev8 (Z.lxor x y) = Z.lxor (rev8 x) (rev8 y).
Proof.
  intros Hx Hy.
  assert (Hxy : 0 <= Z.lxor x y < 256)
    by (change 256 with (2 ^ 8); apply lxor_range; lia).
  apply Z.bits_inj'. intros j Hj.
  rewrite Z.lxor_spec, !rev8_spec, Z.lxor_spec by lia. reflexivity.
Qed.

Section GenericLinear.

Variable g : CrcGeneric.t.
Hypothesis Hg : generic_wf g.
Variable poly : Z.

Let M := CrcGeneric._msb_lshift g.

Lemma generic_body_eq (crc : Z) (b : byte) :
  generic_body g poly crc b
  = Ok (Z.land
          (Nat.iter 8 (msb_round poly (2 ^ (M + 7)))
             (Z.lxor crc
                (Z.shiftl (if CrcGeneric._ref_in g then rev8 (byte_val b)
                           else byte_val b) M)))
          (Z.ones (M + 8))).
Proof.
  destruct Hg as [HL HM Hone HW Hms Hcm]. fold M in HM, Hms, Hcm.
  unfold generic_body. fold M. rewrite lshift_nonneg by lia. cbn [bind].
  rewrite Hms, Hcm. reflexivity.
Qed.

(** The loop of the engine is linear over XOR in the register and the
    message together. *)
Lemma generic_loop_lxor (a : list byte) :
  forall (b : list byte) (x y rx ry : Z),
    List.length a = List.length b ->
    for_each a (generic_body g poly) x = Ok rx ->
    for_each b (generic_body g poly) y = Ok ry ->
    for_each (xor_bytes a b) (generic_body g poly) (Z.lxor x y)
    = Ok (Z.lxor rx ry).
Proof.
  pose proof Hg as [HL HM Hone HW Hms Hcm]. fold M in HM.
  induction a as [|a0 a IH]; intros [|b0 b] x y rx ry Hlen Ha Hb;
    try discriminate Hlen.
  - cbn [for_each] in Ha, Hb. apply Ok_inj in Ha. apply Ok_inj in Hb.
    subst. reflexivity.
  - cbn [xor_bytes combine map fst snd for_each] in *.
    fold (xor_bytes a b).
    rewrite generic_body_eq in Ha, Hb |- *. cbn [bind] in Ha, Hb |- *.
    match goal with
    | |- for_each _ _ ?c = _ =>
        match type of Ha with
        | for_each _ _ ?ca = _ =>
            match type of Hb with
            | for_each _ _ ?cb = _ =>
                replace c with (Z.lxor ca cb);
                [apply IH; [injection Hlen; auto|exact Ha|exact Hb]|]
            end
        end
    end.
    rewrite <- land_lxor_distr. f_equal.
    rewrite <- iter_lxor by (intros; apply msb_round_lxor; lia).
    f_equal. rewrite byte_val_xor.
    pose proof (byte_val_range a0). pose proof (byte_val_range b0).
    destruct (CrcGeneric._ref_in g);
      rewrite ?rev8_lxor by lia;
      rewrite Z.shiftl_lxor; apply lxor_swap_inner.
Qed.

End GenericLinear.

Lemma reported_lxor (ref_out : bool) (width x y : Z) :
  reported ref_out width (Z.lxor x y)
  = Z.lxor (reported ref_out width x) (reported ref_out width y).
Proof.
  destruct ref_out; cbn [reported]; [apply bit_reverse_n_lxor|reflexivity].
Qed.

(** X20: the CRC of the generic engine is affine over XOR: for three
    messages of the same length, the CRC of their byte-wise XOR is the XOR
    of their CRCs, whatever the parameters of the algorithm. *)
Theorem generic_crc_affine (poly width seed xor_out : Z)
    (ref_in ref_out : bool) (name : string) (a b c : list byte)
    (s : option Z) :
  1 <= width ->
  List.length a = List.length b -> List.length b = List.length c ->
  exists ge ca cb cc,
    create_generic poly width seed ref_in ref_out name xor_out = Ok ge /\
    CrcGeneric.calculate ge a s = Ok ca /\
    CrcGeneric.calculate ge b s = Ok cb /\
    CrcGeneric.calculate ge c s = Ok cc /\
    CrcGeneric.calculate ge (xor_bytes (xor_bytes a b) c) s
    = Ok (Z.lxor (Z.lxor ca cb) cc).
Proof.
  intros Hw Hab Hbc.
  pose proof (generic_init_ok poly width seed ref_in ref_out xor_out name
                ltac:(lia)) as Hinit.
  pose proof (generic_init_wf _ _ _ _ _ _ _ _ Hinit) as Hwf.
  pose proof Hwf as [HL HM Hone HW Hms Hcm].
  cbn [CrcGeneric._crc_lshift CrcGeneric._msb_lshift CrcGeneric._width] in *.
  set (L := if width <? 8 then 8 - width else 0) in *.
  set (s0 := match s with Some v => v | None => seed end).
  match type of Hinit with
  | _ = Ok ?r => set (g := r) in *
  end.
  set (p := Z.shiftl poly L).
  assert (Hloop : forall d, exists r,
             for_each d (generic_body g p) (Z.shiftl s0 L) = Ok r).
  { intros d. generalize (Z.shiftl s0 L).
    induction d as [|d0 d IH]; intros x; cbn [for_each].
    - exists x. reflexivity.
    - rewrite generic_body_eq by exact Hwf. cbn [bind]. apply IH. }
  destruct (Hloop a) as [ra Ha], (Hloop b) as [rb Hb], (Hloop c) as [rc Hc].
  pose proof (generic_loop_lxor g Hwf p a b _ _ _ _ Hab Ha Hb) as Hx.
  assert (Hlen : List.length (xor_bytes a b) = List.length c).
  { unfold xor_bytes. rewrite length_map, length_combine. lia. }
  pose proof (generic_loop_lxor g Hwf p _ c _ _ _ _ Hlen Hx Hc) as Hy.
  rewrite Z.lxor_nilpotent, Z.lxor_0_l in Hy.
  exists g. eexists. eexists. eexists. split; [exact Hinit|].
  rewrite !generic_calculate_eq by exact Hwf.
  change (CrcGeneric._crc_lshift g) with L.
  change (CrcGeneric._poly g) with poly.
  change (CrcGeneric._default_seed g) with seed.
  change (CrcGeneric._ref_out g) with ref_out.
  change (CrcGeneric._width g) with width.
  change (CrcGeneric._xor_out g) with xor_out.
  fold s0 p. rewrite Ha, Hb, Hc, Hy. cbn [bind].
  repeat (split; [reflexivity|]).
  f_equal. rewrite !Z.shiftr_lxor, !reported_lxor.
  rewrite !Z.lxor_assoc. f_equal.
  rewrite (Z.lxor_comm xor_out), !Z.lxor_assoc. f_equal.
  rewrite (Z.lxor_comm xor_out), !Z.lxor_assoc.
  rewrite Z.lxor_nilpotent, Z.lxor_0_r. reflexivity.
Qed.

Lemma generic_crc_affine_witness :
  (1 <= 16 /\
   List.length (ascii_bytes "abc") = List.length (ascii_bytes "123") /\
   List.length (ascii_bytes "123") = List.length (ascii_bytes "xyz")) /\
  exists ge ca cb cc,
    create_generic 0x1021 16 0xFFFF false false "" 0 = Ok ge /\
    CrcGeneric.calculate ge (ascii_bytes "abc") None = Ok ca /\
    CrcGeneric.calculate ge (ascii_bytes "123") None = Ok cb /\
    CrcGeneric.calculate ge (ascii_bytes "xyz") None = Ok cc /\
    CrcGeneric.calculate ge
      (xor_bytes (xor_bytes (ascii_bytes "abc") (ascii_bytes "123"))
         (ascii_bytes "xyz")) None
    = Ok (Z.lxor (Z.lxor ca cb) cc).
Proof.
  split; [cbn; repeat split; lia|].
  apply (generic_crc_affine 0x1021 16 0xFFFF 0 false false ""
           (ascii_bytes "abc") (ascii_bytes "123") (ascii_bytes "xyz") None);
    [lia|reflexivity|reflexivity].
Defined.

(** ** The windowed engine, bit by bit *)

Section BitRounds.

Variables poly M : Z.
Hypothesis HM : 0 <= M.

Let wround (c : Z) : Z :=
  Z.land (msb_round poly (2 ^ (M + 8 - 1)) c) (Z.ones (M + 8)).

(** A round on a register that holds a byte not yet consumed is the round
    for the leading bit of the byte; the rest of the byte moves up. *)
Lemma wround_feed_bit (reg u : Z) :
  wround (Z.lxor reg (Z.shiftl u M))
  = Z.lxor (bit_round poly (M + 8) reg (Z.testbit u 7))
           (Z.shiftl (Z.land (Z.shiftl u 1) 0xFF) M).
Proof.
  unfold wround, bit_round. rewrite msb_round_eq by lia.
  apply Z.bits_inj'. intros j Hj.
  change 255 with (Z.ones 8).
  assert (Eu : forall i, 0 <= i ->
             Z.testbit (Z.land (Z.shiftl u 1) (Z.ones 8)) i
             = (i <? 8) && Z.testbit u (i - 1)).
  { intros i Hi. rewrite Z.land_spec, Z.testbit_ones, Z.shiftl_spec by lia.
    destruct (Z.leb_spec 0 i); [|lia]. cbn [andb]. apply andb_comm. }
  assert (Et : Z.testbit (Z.lxor reg (Z.shiftl u M)) (M + 8 - 1)
               = xorb (Z.testbit reg (M + 8 - 1)) (Z.testbit u 7)).
  { rewrite Z.lxor_spec, Z.shiftl_spec by lia. do 2 f_equal. lia. }
  rewrite Et. set (t := xorb _ _).
  rewrite Z.land_spec, !Z.lxor_spec, Z.land_spec, Z.lxor_spec,
    !testbit_sel, Z.testbit_ones by lia.
  rewrite !(Z.shiftl_spec _ 1 j) by lia. rewrite Z.lxor_spec.
  rewrite (Z.shiftl_spec _ M j) by lia.
  destruct (Z.leb_spec 0 j); [|lia]. cbn [andb].
  destruct (Z.ltb_spec (j - M) 0) as [Hlow|Hhigh].
  - rewrite (Z.testbit_neg_r _ (j - M)) by lia.
    destruct (Z.ltb_spec j (M + 8)); [|lia].
    rewrite !andb_true_r, xorb_false_r.
    destruct (Z.eq_dec j 0) as [->|Hne].
    + rewrite (Z.testbit_neg_r reg), (Z.testbit_neg_r (Z.shiftl u M)) by lia.
      reflexivity.
    + rewrite (Z.shiftl_spec _ M (j - 1)) by lia.
      rewrite (Z.testbit_neg_r u (j - 1 - M)) by lia.
      rewrite xorb_false_r. reflexivity.
  - rewrite Eu by lia.
    destruct (Z.ltb_spec j (M + 8)).
    + destruct (Z.ltb_spec (j - M) 8); [|lia].
      cbn [andb]. rewrite !andb_true_r.
      destruct (Z.eq_dec j 0) as [->|Hne].
      * rewrite (Z.testbit_neg_r reg), (Z.testbit_neg_r (Z.shiftl u M)),
          (Z.testbit_neg_r u) by lia.
        destruct (t && Z.testbit poly 0); reflexivity.
      * rewrite (Z.shiftl_spec _ M (j - 1)) by lia.
        replace (j - 1 - M) with (j - M - 1) by lia.
        destruct (Z.testbit reg (j - 1)), (Z.testbit u (j - M - 1)),
          (t && Z.testbit poly j); reflexivity.
    + destruct (Z.ltb_spec (j - M) 8); [lia|].
      rewrite !andb_false_r. reflexivity.
Qed.

Lemma leading_bits_succ (u : Z) (k : nat) :
  leading_bits u (S k)
  = Z.testbit u 7 :: leading_bits (Z.land (Z.shiftl u 1) 0xFF) k.
Proof.
  unfold leading_bits. cbn [seq map]. f_equal.
  rewrite <- seq_shift, map_map. apply map_ext. intros i.
  change 255 with (Z.ones 8).
  destruct (Z.ltb_spec (7 - Z.of_nat i) 0).
  - rewrite !Z.testbit_neg_r by lia. reflexivity.
  - rewrite Z.land_spec, Z.testbit_ones, Z.shiftl_spec by lia.
    destruct (Z.leb_spec 0 (7 - Z.of_nat i)); [|lia].
    destruct (Z.ltb_spec (7 - Z.of_nat i) 8); [|lia].
    cbn [andb]. rewrite andb_true_r. f_equal. lia.
Qed.

Lemma land_shiftl_byte (u : Z) (k : nat) :
  Z.land (Z.shiftl (Z.land (Z.shiftl u 1) 0xFF) (Z.of_nat k)) 0xFF
  = Z.land (Z.shiftl u (Z.of_nat (S k))) 0xFF.
Proof.
  apply Z.bits_inj'. intros j Hj. change 255 with (Z.ones 8).
  rewrite !Z.land_spec, !Z.testbit_ones, !Z.shiftl_spec by lia.
  destruct (Z.leb_spec 0 j); [|lia]. cbn [andb].
  destruct (Z.ltb_spec j 8); [|rewrite !andb_false_r; reflexivity].
  rewrite !andb_true_r.
  destruct (Z.ltb_spec (j - Z.of_nat k) 0).
  - rewrite !Z.testbit_neg_r by lia. reflexivity.
  - rewrite Z.land_spec, Z.testbit_ones, Z.shiftl_spec by lia.
    destruct (Z.leb_spec 0 (j - Z.of_nat k)); [|lia].
    destruct (Z.ltb_spec (j - Z.of_nat k) 8); [|lia].
    cbn [andb]. rewrite andb_true_r. f_equal. lia.
Qed.

(** [k] rounds on a register that holds a byte value consume its [k]
    leading bits. *)
Lemma feed_block_clean (k : nat) :
  forall reg u, 0 <= u < 256 ->
    Nat.iter k wround (Z.lxor reg (Z.shiftl u M))
    = Z.lxor (fold_left (bit_round poly (M + 8)) (leading_bits u k) reg)
             (Z.shiftl (Z.land (Z.shiftl u (Z.of_nat k)) 0xFF) M).
Proof.
  induction k as [|k IH]; intros reg u Hu.
  - cbn [Nat.iter leading_bits seq map fold_left].
    change (Z.of_nat 0) with 0. rewrite Z.shiftl_0_r.
    change 255 with (Z.ones 8). rewrite land_ones_small by (cbn; lia).
    reflexivity.
  - rewrite Nat.iter_succ_r, wround_feed_bit.
    rewrite IH by apply land_255_range.
    rewrite leading_bits_succ, land_shiftl_byte. reflexivity.
Qed.

(** The same for any integer in place of the byte, when at least one round
    is run: the first round drops what lies above the register. *)
Lemma feed_block (k : nat) (reg u : Z) :
  (k = 0%nat -> 0 <= u < 256) ->
  Nat.iter k wround (Z.lxor reg (Z.shiftl u M))
  = Z.lxor (fold_left (bit_round poly (M + 8)) (leading_bits u k) reg)
           (Z.shiftl (Z.land (Z.shiftl u (Z.of_nat k)) 0xFF) M).
Proof.
  intros Hu. destruct k as [|k].
  - apply feed_block_clean. apply Hu. reflexivity.
  - rewrite Nat.iter_succ_r, wround_feed_bit.
    rewrite feed_block_clean by apply land_255_range.
    rewrite leading_bits_succ, land_shiftl_byte. reflexivity.
Qed.

End BitRounds.

Lemma getitem_data_nth (data : list byte) (index : Z) :
  0 <= index < len data ->
  getitem (map byte_val data) index
  = Ok (nth (Z.to_nat index) (map byte_val data) 0) /\
  0 <= nth (Z.to_nat index) (map byte_val data) 0 < 256.
Proof.
  intros Hi. split.
  - unfold getitem, len in *. rewrite length_map.
    destruct (Z.ltb_spec index 0); [lia|].
    destruct (Z.leb_spec 0 index); [|lia].
    destruct (Z.ltb_spec index (Z.of_nat (List.length data))); [|lia].
    reflexivity.
  - destruct (nth_in_or_default (Z.to_nat index) (map byte_val data) 0)
      as [Hin | Hdef]; [|rewrite Hdef; lia].
    apply in_map_iff in Hin. destruct Hin as [b [<- _]]. apply byte_val_range.
Qed.

(** The end mask keeps the bits of a byte up to [last_bit], counted from
    the most significant. *)
Lemma end_mask_keeps (last_bit byte k : Z) :
  last_bit <= 7 -> 7 - last_bit <= k < 8 ->
  Z.testbit
    (Z.land byte (Z.land (Z.lnot (Z.shiftl 1 (7 - last_bit) - 1)) 0xFF)) k
  = Z.testbit byte k.
Proof.
  intros Hl Hk. rewrite mask_ones by lia. change 255 with (Z.ones 8).
  rewrite !Z.land_spec, Z.lnot_spec, !Z.testbit_ones by lia.
  destruct (Z.leb_spec 0 k); [|lia].
  destruct (Z.ltb_spec k (7 - last_bit)); [lia|].
  destruct (Z.ltb_spec k 8); [|lia].
  cbn [andb negb]. apply andb_true_r.
Qed.

Lemma range2_map (a b : Z) :
  range2 a b = map (fun k => a + Z.of_nat k) (seq 0 (Z.to_nat (b - a))).
Proof.
  unfold range2, range3. rewrite Z.div_1_r.
  replace (b - a + 1 - 1) with (b - a) by lia.
  apply map_ext. intros k. lia.
Qed.

Lemma range2_app (a m b : Z) :
  a <= m <= b -> range2 a b = range2 a m ++ range2 m b.
Proof.
  intros H. remember (Z.to_nat (m - a)) as n eqn:En.
  revert a H En. induction n as [|n IH]; intros a H En.
  - replace a with m by lia. rewrite (range2_nil m m) by lia. reflexivity.
  - rewrite (range2_cons a b), (range2_cons a m) by lia.
    cbn [app]. f_equal. apply IH; lia.
Qed.

Section WindowBits.

Variable self : CrcWindowed.t.
Hypothesis Hwf : windowed_wf self.
Variable data : list byte.
Variable poly : Z.

(** The window: the bits [s .. e - 1] of the buffer, at least one. *)
Variables s e : Z.
Hypothesis Hs : 0 <= s < e.
Hypothesis He : e <= 8 * len data.

Let first_byte := s / 8.
Let first_bit := s mod 8.
Let last_byte := (e - 1) / 8.
Let last_bit := (e - 1) mod 8.
Let end_mask := Z.land (Z.lnot (Z.shiftl 1 (7 - last_bit) - 1)) 0xFF.
Let M := CrcWindowed._msb_lshift self.
Let ref_in := CrcWindowed._ref_in self.

Let body (crc index : Z) : result Z :=
  snd (CrcWindowed.step self data poly first_byte first_bit last_byte last_bit
         end_mask crc index).

(** What the loop feeds for the byte at [index]: the bits of the window
    that lie in that byte. *)
Lemma window_byte_bits (index : Z) :
  first_byte <= index <= last_byte ->
  let byte := nth (Z.to_nat index) (map byte_val data) 0 in
  let lo := Z.max s (8 * index) in
  let hi := Z.min e (8 * index + 8) in
  exists v bw,
    window_byte ref_in first_byte first_bit last_byte last_bit end_mask
      index byte = (v, bw) /\
    bw = hi - lo /\ 1 <= bw /\ lowzero (8 - bw) v /\
    leading_bits v (Z.to_nat bw) = map (message_bit ref_in data) (range2 lo hi).
Proof.
  intros Hi byte lo hi.
  assert (Hfb : 0 <= first_bit < 8) by (apply Z.mod_pos_bound; lia).
  assert (Hlb : 0 <= last_bit < 8) by (apply Z.mod_pos_bound; lia).
  assert (Es : s = 8 * first_byte + first_bit)
    by (apply Z.div_mod; lia).
  assert (Ee : e - 1 = 8 * last_byte + last_bit)
    by (apply Z.div_mod; lia).
  pose proof (window_byte_low ref_in first_byte first_bit last_byte last_bit
                index byte (proj1 Hfb) ltac:(lia)) as Hlow.
  fold end_mask in Hlow.
  destruct (window_byte ref_in first_byte first_bit last_byte last_bit
              end_mask index byte) as [v bw] eqn:Ewb.
  exists v, bw. split; [reflexivity|].
  set (byte' := if ref_in then rev8 byte else byte).
  assert (Hbits : bw = hi - lo /\
                  forall j, 0 <= j < bw ->
                    Z.testbit v (7 - j)
                    = Z.testbit byte' (7 - (lo - 8 * index + j))).
  { unfold window_byte in Ewb. fold byte' in Ewb.
    destruct (Z.eqb_spec index last_byte) as [El|El],
             (Z.eqb_spec index first_byte) as [Ef|Ef];
      apply pair_equal_spec in Ewb; destruct Ewb as [<- <-];
      (split; [subst lo hi; lia|]); intros j Hj; subst lo hi.
    - rewrite Z.shiftl_spec by lia. unfold end_mask.
      rewrite end_mask_keeps by lia. f_equal. lia.
    - unfold end_mask. rewrite end_mask_keeps by lia. f_equal. lia.
    - rewrite Z.shiftl_spec by lia. f_equal. lia.
    - f_equal. lia. }
  destruct Hbits as [Ebw Hbits].
  split; [exact Ebw|]. split; [lia|]. split; [exact Hlow|].
  unfold leading_bits. rewrite range2_map, map_map.
  rewrite Ebw. apply map_ext_in. intros k Hk. apply in_seq in Hk.
  rewrite Hbits by lia.
  unfold message_bit. fold byte'.
  assert (Ediv : (lo + Z.of_nat k) / 8 = index)
    by (symmetry; apply (Z.div_unique _ 8 index (lo + Z.of_nat k - 8 * index));
        lia).
  assert (Emod : (lo + Z.of_nat k) mod 8 = lo - 8 * index + Z.of_nat k)
    by (symmetry; apply (Z.mod_unique _ 8 index); lia).
  rewrite Ediv, Emod. reflexivity.
Qed.

Let bits (lo hi : Z) : list bool :=
  map (message_bit ref_in data) (range2 lo hi).

(** A step of the loop runs the rounds for the bits of the window in its
    byte. *)
Lemma window_step_bits (crc index : Z) :
  first_byte <= index <= last_byte ->
  body crc index
  = Ok (fold_left (bit_round poly (M + 8))
          (bits (Z.max s (8 * index)) (Z.min e (8 * index + 8))) crc).
Proof.
  intros Hi. unfold body. rewrite snd_step.
  assert (Hidx : 0 <= index < len data).
  { subst first_byte last_byte. split.
    - apply Z.le_trans with (s / 8); [apply Z.div_pos; lia|lia].
    - assert ((e - 1) / 8 < len data); [|lia].
      apply Z.div_lt_upper_bound; lia. }
  destruct (getitem_data_nth data index Hidx) as [-> Hbyte]. cbn [bind].
  destruct (window_byte_bits index Hi) as [v [bw [Ewb [Ebw [Hbw [Hlow Hlb]]]]]].
  fold ref_in. rewrite Ewb.
  destruct Hwf as [HL HM Hone HW Hms Hcm]. fold M in HM, Hms, Hcm.
  fold M. rewrite lshift_nonneg by lia. cbn [bind].
  rewrite Hms, Hcm. replace (M + 7) with (M + 8 - 1) by lia.
  rewrite (feed_block poly M HM) by lia.
  rewrite Hlb. fold (bits (Z.max s (8 * index)) (Z.min e (8 * index + 8))).
  replace (Z.land (Z.shiftl v (Z.of_nat (Z.to_nat bw))) 255) with 0.
  - rewrite Z.shiftl_0_l, Z.lxor_0_r. reflexivity.
  - symmetry. apply Z.bits_inj'. intros j Hj. change 255 with (Z.ones 8).
    rewrite Z.land_spec, Z.testbit_ones, Z.shiftl_spec, Z.testbit_0_l by lia.
    destruct (Z.leb_spec 0 j); [|lia].
    destruct (Z.ltb_spec j 8); [|apply andb_false_r].
    destruct (Z.ltb_spec (j - Z.of_nat (Z.to_nat bw)) 0).
    + rewrite Z.testbit_neg_r by lia. reflexivity.
    + rewrite Hlow by lia. reflexivity.
Qed.

Lemma window_loop_bits (n : nat) :
  forall a crc,
    first_byte <= a -> a + Z.of_nat n = last_byte + 1 ->
    for_each (range2 a (last_byte + 1)) body crc
    = Ok (fold_left (bit_round poly (M + 8)) (bits (Z.max s (8 * a)) e) crc).
Proof.
  assert (Hfb : 0 <= first_bit < 8) by (apply Z.mod_pos_bound; lia).
  assert (Hlb : 0 <= last_bit < 8) by (apply Z.mod_pos_bound; lia).
  assert (Es : s = 8 * first_byte + first_bit)
    by (apply Z.div_mod; lia).
  assert (Ee : e - 1 = 8 * last_byte + last_bit)
    by (apply Z.div_mod; lia).
  induction n as [|n IH]; intros a crc Ha Hn.
  - rewrite range2_nil by lia. unfold bits.
    rewrite range2_nil by lia. reflexivity.
  - rewrite range2_cons by lia. cbn [for_each].
    rewrite window_step_bits by lia. cbn [bind].
    rewrite IH by lia. f_equal. rewrite <- fold_left_app. f_equal.
    unfold bits. rewrite <- map_app. f_equal.
    destruct (Z.eq_dec a last_byte) as [El|El].
    + rewrite (range2_nil (Z.max s (8 * (a + 1)))) by lia.
      rewrite app_nil_r. f_equal. lia.
    + replace (Z.max s (8 * (a + 1))) with (Z.min e (8 * a + 8)) by lia.
      symmetry. apply range2_app. lia.
Qed.

(** The loop of [calculate] over the bytes of the window runs one round for
    every bit of the window, in order. *)
Lemma window_loop_all (crc : Z) :
  for_each (range2 first_byte (last_byte + 1)) body crc
  = Ok (fold_left (bit_round poly (M + 8)) (bits s e) crc).
Proof.
  assert (Hfb : 0 <= first_bit < 8) by (apply Z.mod_pos_bound; lia).
  assert (Hlb : 0 <= last_bit < 8) by (apply Z.mod_pos_bound; lia).
  assert (Es : s = 8 * first_byte + first_bit)
    by (apply Z.div_mod; lia).
  assert (Ee : e - 1 = 8 * last_byte + last_bit)
    by (apply Z.div_mod; lia).
  rewrite (window_loop_bits (Z.to_nat (last_byte + 1 - first_byte))) by lia.
  do 3 f_equal. lia.
Qed.

End WindowBits.

(** On a window of at least one bit the engine runs one round of its
    register for each bit of the window, and reports the register. *)
Lemma windowed_bit_serial (self : CrcWindowed.t) (data : list byte)
    (start length : Z) (seed : option Z) :
  windowed_wf self ->
  0 <= start -> 1 <= length -> start + length <= 8 * len data ->
  snd (CrcWindowed.calculate self data start (Some length) seed)
  = Ok (Z.lxor
          (reported (CrcWindowed._ref_out self) (CrcWindowed._width self)
             (Z.shiftr
                (window_register self data start length
                   match seed with
                   | Some s => s
                   | None => CrcWindowed._default_seed self
                   end)
                (CrcWindowed._crc_lshift self)))
          (CrcWindowed._xor_out self)).
Proof.
  intros Hwf Hs Hl He.
  assert (Hr : ~ out_of_range data start (Some length)).
  { unfold out_of_range, window_length. change _BYTEBITS with 8. lia. }
  destruct (windowed_calculate_in_range self Hwf data start (Some length)
              seed Hr) as [crc [Hloop Hres]].
  cbn [window_length] in Hloop.
  rewrite (window_loop_all self Hwf data _ start (start + length)) in Hloop
    by lia.
  apply Ok_inj in Hloop. rewrite Hres, <- Hloop. reflexivity.
Qed.

Lemma bit_round_low (poly W L reg : Z) (b : bool) :
  lowzero L poly -> lowzero L reg -> lowzero L (bit_round poly W reg b).
Proof.
  intros Hp Hr j Hj. unfold bit_round.
  rewrite Z.land_spec, Z.lxor_spec, testbit_sel, Z.shiftl_spec, (Hp j)
    by lia.
  destruct (Z.eq_dec j 0) as [->|Hne].
  - rewrite Z.testbit_neg_r by lia. boolsimp.
  - rewrite Hr by lia. boolsimp.
Qed.

Lemma fold_bit_round_low (poly W L : Z) (bits : list bool) (reg : Z) :
  lowzero L poly -> lowzero L reg ->
  lowzero L (fold_left (bit_round poly W) bits reg).
Proof.
  intros Hp. revert reg. induction bits as [|b bits IH]; intros reg Hr.
  - exact Hr.
  - cbn [fold_left]. apply IH. apply bit_round_low; assumption.
Qed.

Lemma fold_bit_round_range (poly W : Z) (bits : list bool) (reg : Z) :
  0 <= W -> 0 <= reg < 2 ^ W ->
  0 <= fold_left (bit_round poly W) bits reg < 2 ^ W.
Proof.
  intros HW. revert reg. induction bits as [|b bits IH]; intros reg Hr.
  - exact Hr.
  - cbn [fold_left]. apply IH. unfold bit_round. apply land_ones_range. lia.
Qed.

Lemma fold_bit_round_range1 (poly W : Z) (bits : list bool) (reg : Z) :
  0 <= W -> bits <> [] ->
  0 <= fold_left (bit_round poly W) bits reg < 2 ^ W.
Proof.
  intros HW Hne. destruct bits as [|b bits]; [congruence|].
  cbn [fold_left]. apply fold_bit_round_range; [lia|].
  unfold bit_round. apply land_ones_range. lia.
Qed.

(** X21: the CRC of a window of at least one bit depends on the bits of the
    window only: two buffers that agree on them give the same CRC, whatever
    they hold before and after the window. *)
Theorem windowed_reads_window_only (params : CrcParams.t) (name : string)
    (w : CrcWindowed.t) (data1 data2 : list byte) (start length : Z)
    (seed : option Z) :
  create_windowed_todo params name = Ok w ->
  0 <= start -> 1 <= length ->
  start + length <= 8 * len data1 -> start + length <= 8 * len data2 ->
  (forall p, start <= p < start + length ->
     message_bit (CrcParams.reflect_in params) data1 p
     = message_bit (CrcParams.reflect_in params) data2 p) ->
  exists crc,
    snd (CrcWindowed.calculate w data1 start (Some length) seed) = Ok crc /\
    snd (CrcWindowed.calculate w data2 start (Some length) seed) = Ok crc.
Proof.
  intros Hw Hs Hl H1 H2 Hbits. unfold create_windowed_todo in Hw.
  pose proof (windowed_init_wf _ _ _ Hw) as Hwf.
  assert (Hin : CrcWindowed._ref_in w = CrcParams.reflect_in params).
  { destruct (Z.ltb_spec (CrcParams.width params) 0) as [Hneg|Hpos].
    - unfold CrcWindowed.init in Hw. rewrite lshift_neg in Hw by lia.
      discriminate.
    - rewrite windowed_init_ok in Hw by lia. apply Ok_inj in Hw.
      subst w. reflexivity. }
  eexists. split; [apply windowed_bit_serial; assumption|].
  rewrite windowed_bit_serial by assumption.
  do 4 f_equal. unfold window_register. f_equal.
  apply map_ext_in. intros p Hp. rewrite Hin. symmetry. apply Hbits.
  pose proof (range2_bounds start (start + length)) as Hb.
  rewrite Forall_forall in Hb. apply Hb. exact Hp.
Qed.

Lemma windowed_reads_window_only_witness :
  exists w,
    (create_windowed_todo crc8_params "" = Ok w /\
     0 <= 4 /\ 1 <= 8 /\
     4 + 8 <= 8 * len [x12; x34] /\ 4 + 8 <= 8 * len [xf2; x3f; xff] /\
     (forall p, 4 <= p < 4 + 8 ->
        message_bit (CrcParams.reflect_in crc8_params) [x12; x34] p
        = message_bit (CrcParams.reflect_in crc8_params) [xf2; x3f; xff] p)) /\
    exists crc,
      snd (CrcWindowed.calculate w [x12; x34] 4 (Some 8) None) = Ok crc /\
      snd (CrcWindowed.calculate w [xf2; x3f; xff] 4 (Some 8) None) = Ok crc.
Proof.
  assert (Hbits : forall p, 4 <= p < 4 + 8 ->
            message_bit (CrcParams.reflect_in crc8_params) [x12; x34] p
            = message_bit (CrcParams.reflect_in crc8_params)
                [xf2; x3f; xff] p).
  { intros p Hp.
    assert (Hc : p = 4 \/ p = 5 \/ p = 6 \/ p = 7 \/
                 p = 8 \/ p = 9 \/ p = 10 \/ p = 11) by lia.
    destruct Hc as [E|[E|[E|[E|[E|[E|[E|E]]]]]]]; subst p;
      vm_compute; reflexivity. }
  eexists. split.
  - split; [vm_compute; reflexivity|].
    repeat (split; [cbn; lia|]). exact Hbits.
  - apply (windowed_reads_window_only crc8_params "");
      [vm_compute; reflexivity | cbn; lia | cbn; lia | cbn; lia | cbn; lia
      | exact Hbits].
Defined.

(** X22: the seed argument of the windowed engine continues a calculation
    at any bit: the CRC of a window is the CRC of its second part seeded
    with the register left by its first part, which is the CRC of the first
    part XOR [xor_out], mirrored back when [reflect_out] is set. *)
Theorem windowed_seed_continues (params : CrcParams.t) (name : string)
    (w : CrcWindowed.t) (data : list byte) (start n1 n2 : Z)
    (seed : option Z) :
  create_windowed_todo params name = Ok w ->
  0 <= start -> 1 <= n1 -> 1 <= n2 -> start + n1 + n2 <= 8 * len data ->
  exists crc1 crc,
    snd (CrcWindowed.calculate w data start (Some n1) seed) = Ok crc1 /\
    snd (CrcWindowed.calculate w data start (Some (n1 + n2)) seed) = Ok crc /\
    snd (CrcWindowed.calculate w data (start + n1) (Some n2)
           (Some (reported (CrcParams.reflect_out params)
                    (CrcParams.width params)
                    (Z.lxor crc1 (CrcParams.xor_out params))))) = Ok crc.
Proof.
  intros Hw Hs Hn1 Hn2 He. unfold create_windowed_todo in Hw.
  pose proof (windowed_init_wf _ _ _ Hw) as Hwf.
  assert (Hpos : 0 <= CrcParams.width params).
  { destruct (Z.ltb_spec (CrcParams.width params) 0) as [Hneg|Hpos];
      [|exact Hpos].
    unfold CrcWindowed.init in Hw. rewrite lshift_neg in Hw by lia.
    discriminate. }
  assert (Hf : CrcWindowed._ref_out w = CrcParams.reflect_out params /\
               CrcWindowed._width w = CrcParams.width params /\
               CrcWindowed._xor_out w = CrcParams.xor_out params).
  { rewrite windowed_init_ok in Hw by lia. apply Ok_inj in Hw.
    subst w. repeat split. }
  destruct Hf as [Ero [Ewd Exo]].
  eexists. eexists.
  split; [apply windowed_bit_serial; (assumption || lia)|].
  split; [apply windowed_bit_serial; (assumption || lia)|].
  rewrite windowed_bit_serial by (assumption || lia).
  do 4 f_equal.
  rewrite <- Ero, <- Ewd, <- Exo.
  rewrite Z.lxor_assoc, Z.lxor_nilpotent, Z.lxor_0_r.
  pose proof Hwf as [HL HM Hone HW Hms Hcm].
  set (L := CrcWindowed._crc_lshift w) in *.
  set (M := CrcWindowed._msb_lshift w) in *.
  set (s0 := match seed with
             | Some s => s
             | None => CrcWindowed._default_seed w
             end).
  assert (Hne : map (message_bit (CrcWindowed._ref_in w) data)
                  (range2 start (start + n1)) <> []).
  { rewrite (range2_cons start) by lia. discriminate. }
  assert (Hr1 : 0 <= window_register w data start n1 s0 < 2 ^ (M + 8)).
  { unfold window_register. apply fold_bit_round_range1; [lia|exact Hne]. }
  assert (Hz1 : lowzero L (window_register w data start n1 s0)).
  { unfold window_register. fold L. apply fold_bit_round_low.
    - replace L with (0 + L) at 1 by lia.
      apply lowzero_shiftl; [lia|]. intros j Hj. lia.
    - replace L with (0 + L) at 1 by lia.
      apply lowzero_shiftl; [lia|]. intros j Hj. lia. }
  rewrite reported_involutive.
  - unfold window_register at 1. fold L M.
    rewrite shiftl_shiftr_lowzero by (lia || exact Hz1).
    unfold window_register. fold L M.
    rewrite (range2_app start (start + n1) (start + (n1 + n2))) by lia.
    rewrite map_app, fold_left_app.
    replace (start + n1 + n2) with (start + (n1 + n2)) by lia.
    reflexivity.
  - pose proof (shiftr_range _ (M + 8) L ltac:(lia) Hr1) as Hsr.
    replace (M + 8 - L) with (CrcWindowed._width w) in Hsr by lia.
    exact Hsr.
Qed.

Lemma windowed_seed_continues_witness :
  exists w,
    (create_windowed_todo crc8_params "" = Ok w /\
     0 <= 3 /\ 1 <= 5 /\ 1 <= 6 /\ 3 + 5 + 6 <= 8 * len [x12; x34]) /\
    exists crc1 crc,
      snd (CrcWindowed.calculate w [x12; x34] 3 (Some 5) None) = Ok crc1 /\
      snd (CrcWindowed.calculate w [x12; x34] 3 (Some (5 + 6)) None)
      = Ok crc /\
      snd (CrcWindowed.calculate w [x12; x34] (3 + 5) (Some 6)
             (Some (reported (CrcParams.reflect_out crc8_params)
                      (CrcParams.width crc8_params)
                      (Z.lxor crc1 (CrcParams.xor_out crc8_params)))))
      = Ok crc.
Proof.
  eexists. split.
  - split; [vm_compute; reflexivity|]. cbn. lia.
  - apply (windowed_seed_continues crc8_params "");
      [vm_compute; reflexivity | | | |]; cbn; lia.
Defined.

(** X23: an empty window that does not start at a byte boundary does not
    give the CRC of no data: the bits of the byte before the window are
    XORed into the seed above the register, so the value returned can
    exceed [width] bits. *)
Theorem windowed_empty_window_unaligned (params : CrcParams.t)
    (name : string) (w : CrcWindowed.t) (data : list byte) (a f : Z)
    (seed : option Z) :
  create_windowed_todo params name = Ok w ->
  0 <= a < len data -> 1 <= f <= 7 ->
  let byte := nth (Z.to_nat a) (map byte_val data) 0 in
  let byte := if CrcParams.reflect_in params then rev8 byte else byte in
  let crc := match seed with
             | Some s => s
             | None => CrcParams.seed params
             end in
  snd (CrcWindowed.calculate w data (8 * a + f) (Some 0) seed)
  = Ok (Z.lxor
          (reported (CrcParams.reflect_out params) (CrcParams.width params)
             (Z.lxor crc
                (Z.shiftl (Z.shiftr byte (8 - f)) (CrcParams.width params))))
          (CrcParams.xor_out params)).
Proof.
  intros Hw Ha Hf byte0 byte crc0. unfold create_windowed_todo in Hw.
  pose proof (windowed_init_wf _ _ _ Hw) as Hwf.
  assert (Hpos : 0 <= CrcParams.width params).
  { destruct (Z.ltb_spec (CrcParams.width params) 0) as [Hneg|Hpos];
      [|exact Hpos].
    unfold CrcWindowed.init in Hw. rewrite lshift_neg in Hw by lia.
    discriminate. }
  assert (Hflds : CrcWindowed._ref_out w = CrcParams.reflect_out params /\
                  CrcWindowed._width w = CrcParams.width params /\
                  CrcWindowed._xor_out w = CrcParams.xor_out params /\
                  CrcWindowed._ref_in w = CrcParams.reflect_in params /\
                  CrcWindowed._default_seed w = CrcParams.seed params).
  { rewrite windowed_init_ok in Hw by lia. apply Ok_inj in Hw.
    subst w. repeat split. }
  destruct Hflds as [Ero [Ewd [Exo [Eri Esd]]]].
  assert (Hr : ~ out_of_range data (8 * a + f) (Some 0)).
  { unfold out_of_range, window_length. change _BYTEBITS with 8. lia. }
  destruct (windowed_calculate_in_range w Hwf data (8 * a + f) (Some 0)
              seed Hr) as [crc [Hloop Hres]].
  cbn [window_length] in Hloop.
  assert (E1 : (8 * a + f) / 8 = a)
    by (symmetry; apply (Z.div_unique _ 8 a f); lia).
  assert (E2 : (8 * a + f) mod 8 = f)
    by (symmetry; apply (Z.mod_unique _ 8 a f); lia).
  assert (E3 : (8 * a + f + 0 - 1) / 8 = a)
    by (symmetry; apply (Z.div_unique _ 8 a (f - 1)); lia).
  assert (E4 : (8 * a + f + 0 - 1) mod 8 = f - 1)
    by (symmetry; apply (Z.mod_unique _ 8 a); lia).
  rewrite E1, E2, E3, E4 in Hloop.
  rewrite range2_cons, range2_nil in Hloop by lia.
  cbn [for_each] in Hloop. rewrite snd_step in Hloop.
  destruct (getitem_data_nth data a Ha) as [Hget Hbyte].
  rewrite Hget in Hloop. cbn [bind] in Hloop.
  unfold window_byte in Hloop. rewrite Z.eqb_refl in Hloop.
  pose proof Hwf as [HL HM Hone HW Hms Hcm].
  rewrite lshift_nonneg in Hloop by lia. cbn [bind] in Hloop.
  replace (Z.to_nat (f - 1 + 1 - f)) with 0%nat in Hloop by lia.
  change (Nat.iter 0 ?r ?x) with x in Hloop. apply Ok_inj in Hloop.
  rewrite Hres, <- Hloop, Ero, Ewd, Exo, Eri, Esd.
  fold byte0. fold byte. fold crc0.
  do 3 f_equal.
  set (L := CrcWindowed._crc_lshift w) in *.
  set (M := CrcWindowed._msb_lshift w) in *.
  rewrite Ewd in HW.
  assert (Hb : 0 <= byte < 256).
  { subst byte. destruct (CrcParams.reflect_in params);
      [apply rev8_range; exact Hbyte|exact Hbyte]. }
  rewrite Z.shiftr_lxor, shiftr_shiftl_same by lia. f_equal.
  apply Z.bits_inj'. intros j Hj.
  rewrite Z.shiftr_spec, (Z.shiftl_spec _ (CrcParams.width params) j),
    (Z.shiftl_spec _ M (j + L)) by lia.
  replace (j + L - M) with (j - CrcParams.width params + 8) by lia.
  set (k := j - CrcParams.width params).
  destruct (Z.ltb_spec k 0) as [Hlt|Hge].
  - rewrite (Z.testbit_neg_r _ k) by lia.
    destruct (Z.ltb_spec (k + 8) 0).
    + apply Z.testbit_neg_r. lia.
    + rewrite Z.shiftl_spec by lia.
      destruct (Z.ltb_spec (k + 8 - f) 0).
      * apply Z.testbit_neg_r. lia.
      * apply (lowzero_end_mask (f - 1) byte ltac:(lia)). lia.
  - rewrite Z.shiftl_spec, Z.shiftr_spec by lia.
    replace (k + (8 - f)) with (k + 8 - f) by lia.
    destruct (Z.ltb_spec (k + 8 - f) 8).
    + apply end_mask_keeps; lia.
    + rewrite Z.land_spec.
      rewrite (testbit_above byte 8) by (change (2 ^ 8) with 256; lia).
      reflexivity.
Qed.

Lemma windowed_empty_window_unaligned_witness :
  exists w,
    (create_windowed_todo crc8_params "" = Ok w /\
     0 <= 0 < len [xff] /\ 1 <= 3 <= 7) /\
    snd (CrcWindowed.calculate w [xff] (8 * 0 + 3) (Some 0) None)
    = Ok 0x700.
Proof.
  eexists. split.
  - split; [vm_compute; reflexivity|]. cbn. lia.
  - apply (windowed_empty_window_unaligned crc8_params "" _ [xff] 0 3 None);
      [vm_compute; reflexivity | cbn; lia | lia].
Defined.

(** ** The LSB-first generic engine with reflected input *)

Lemma bit_reverse_n_byte_shift (bv m : Z) :
  0 <= m -> 0 <= bv < 256 ->
  bit_reverse_n (Z.shiftl bv m) (m + 8) = rev8 bv.
Proof.
  intros Hm Hbv. rewrite (Z.add_comm m 8), bit_reverse_n_shiftl by lia.
  apply Z.bits_inj'. intros j Hj.
  rewrite bit_reverse_n_spec, rev8_spec by lia. f_equal.
Qed.

Section LsbfMirror.

Variables poly width seed xor_out : Z.
Variable ref_out : bool.
Variables name name' : string.
Hypothesis Hwidth : 1 <= width.

Let L := if width <? 8 then 8 - width else 0.
Let M := if width <? 8 then 0 else width - 8.
Let pr := bit_reverse_n poly width.

Let g : CrcGeneric.t :=
  {| CrcGeneric._poly := poly; CrcGeneric._width := width;
     CrcGeneric._default_seed := bit_reverse_n seed width;
     CrcGeneric._xor_out := xor_out;
     CrcGeneric._result_mask := Z.shiftl 1 width - 1;
     CrcGeneric._crc_lshift := L;
     CrcGeneric._msb_lshift := M;
     CrcGeneric._msbit_mask := Z.shiftl 1 (width + L - 1);
     CrcGeneric._crc_mask := Z.shiftl 1 (width + L) - 1;
     CrcGeneric._ref_in := false; CrcGeneric._ref_out := negb ref_out;
     CrcGeneric.name := name |}.

Let lsbf_body (crc : Z) (b : byte) : Z :=
  Z.land (repeat_n 8 (lsb_round pr) (Z.lxor crc (rev8 (byte_val b))))
         (Z.shiftl 1 width - 1).

Lemma lsbf_mirror_wf : generic_wf g /\ 0 <= L /\ 0 <= M /\ width + L = M + 8.
Proof.
  assert (Hinit := generic_init_ok poly width (bit_reverse_n seed width)
                     false (negb ref_out) xor_out name ltac:(lia)).
  fold L M in Hinit. fold g in Hinit.
  split; [exact (generic_init_wf _ _ _ _ _ _ _ _ Hinit)|].
  subst L M. destruct (Z.ltb_spec width 8); lia.
Qed.

(** Mirrored, the register of the MSB-first generic engine is the register
    of the LSB-first engine that reflects its input. *)
Lemma lsbf_mirror_loop (data : list byte) :
  forall crc,
    0 <= crc < 2 ^ (width + L) ->
    0 <= bit_reverse_n crc (width + L) < 2 ^ width ->
    exists crc',
      for_each data (generic_body g (Z.shiftl poly L)) crc = Ok crc' /\
      fold_left lsbf_body data (bit_reverse_n crc (width + L))
      = bit_reverse_n crc' (width + L) /\
      0 <= crc' < 2 ^ (width + L) /\
      0 <= bit_reverse_n crc' (width + L) < 2 ^ width.
Proof.
  destruct lsbf_mirror_wf as [Hwf [HL [HM HW]]].
  assert (Hpr : 0 <= pr < 2 ^ width) by (apply bit_reverse_n_range; lia).
  induction data as [|b data IH]; intros crc Hcrc Hl;
    cbn [for_each fold_left].
  - exists crc. repeat split; (reflexivity || lia).
  - pose proof (byte_val_range b) as Hb.
    pose proof (rev8_range _ Hb) as Hrb.
    rewrite (generic_body_eq g Hwf). cbn [bind].
    change (CrcGeneric._ref_in g) with false. cbv iota.
    change (CrcGeneric._msb_lshift g) with M.
    set (crc1 := Z.land _ (Z.ones (M + 8))).
    assert (Eref : bit_reverse_n crc1 (width + L)
                   = lsb_rounds8 pr
                       (Z.lxor (bit_reverse_n crc (width + L))
                          (rev8 (byte_val b)))).
    { subst crc1. rewrite HW.
      replace (M + 7) with (M + 8 - 1) by lia.
      pose proof (iter_msb_round_mask (Z.shiftl poly L) (M + 8) 8
                    (Z.lxor crc (Z.shiftl (byte_val b) M)) ltac:(lia)) as E.
      cbn [Nat.eqb] in E. rewrite <- E. clear E.
      rewrite reflect_iter by lia.
      rewrite <- HW at 1. rewrite bit_reverse_n_shiftl by lia.
      rewrite bit_reverse_n_lxor, bit_reverse_n_byte_shift by lia.
      reflexivity. }
    assert (Hr1 : 0 <= lsb_rounds8 pr
                         (Z.lxor (bit_reverse_n crc (width + L))
                            (rev8 (byte_val b))) < 2 ^ width).
    { rewrite <- (lsb_table_step pr width ltac:(lia) Hpr) by lia.
      apply land_ones_range. lia. }
    assert (Ebody : lsbf_body (bit_reverse_n crc (width + L)) b
                    = bit_reverse_n crc1 (width + L)).
    { unfold lsbf_body. rewrite Eref, mask_ones by lia.
      change (repeat_n 8 ?f ?x) with (lsb_rounds8 pr x).
      apply land_ones_small. exact Hr1. }
    rewrite Ebody. apply IH.
    + subst crc1. rewrite HW. apply land_ones_range. lia.
    + rewrite Eref. exact Hr1.
Qed.

Lemma lsbf_mirror_engines (data : list byte) :
  0 <= seed < 2 ^ width ->
  exists gl crc,
    create_generic_lsbf poly width seed true ref_out name' xor_out = Ok gl /\
    create_generic poly width (bit_reverse_n seed width) false (negb ref_out)
      name xor_out = Ok g /\
    CrcGeneric.calculate g data None = Ok crc /\
    CrcGenericLsbf.calculate gl data None = crc.
Proof.
  intros Hseed.
  destruct lsbf_mirror_wf as [Hwf [HL [HM HW]]].
  pose proof (bit_reverse_n_range seed width ltac:(lia)) as Hrs.
  assert (E0 : bit_reverse_n (Z.shiftl (bit_reverse_n seed width) L)
                 (width + L) = seed).
  { rewrite bit_reverse_n_shiftl by lia.
    apply bit_reverse_n_involutive. exact Hseed. }
  destruct (lsbf_mirror_loop data (Z.shiftl (bit_reverse_n seed width) L))
    as [crc [Hloop [Hfold [Hr Hm]]]].
  { apply shiftl_range; lia. }
  { rewrite E0. exact Hseed. }
  rewrite E0 in Hfold.
  eexists. eexists.
  split.
  { unfold create_generic_lsbf, CrcGenericLsbf.init.
    rewrite !lshift_nonneg by lia. reflexivity. }
  split.
  { unfold create_generic. rewrite generic_init_ok by lia. reflexivity. }
  split.
  { rewrite generic_calculate_eq by exact Hwf.
    change (CrcGeneric._crc_lshift g) with L.
    change (CrcGeneric._poly g) with poly.
    change (CrcGeneric._default_seed g) with (bit_reverse_n seed width).
    rewrite Hloop. cbn [bind]. reflexivity. }
  unfold CrcGenericLsbf.calculate.
  cbn [CrcGenericLsbf._seed CrcGenericLsbf._ref_in CrcGenericLsbf._poly
       CrcGenericLsbf._width CrcGenericLsbf._result_mask
       CrcGenericLsbf._ref_out CrcGenericLsbf._xor_out].
  fold pr. fold lsbf_body. rewrite Hfold.
  change (CrcGeneric._ref_out g) with (negb ref_out).
  change (CrcGeneric._width g) with width.
  change (CrcGeneric._xor_out g) with xor_out.
  change (CrcGeneric._crc_lshift g) with L.
  f_equal.
  pose proof (shiftr_range crc (width + L) L ltac:(lia) Hr) as Hsr.
  replace (width + L - L) with width in Hsr by lia.
  rewrite <- (bit_reverse_n_shiftr crc width L) by lia.
  destruct ref_out; cbn [negb reported].
  - apply bit_reverse_n_involutive. exact Hsr.
  - reflexivity.
Qed.

End LsbfMirror.

(** X24: told to reflect its input, the LSB-first generic engine reflects
    the polynomial itself and computes the MSB-first CRC in mirror image:
    it returns what the generic engine returns without input reflection,
    for the mirrored seed and the opposite [ref_out]. *)
Theorem lsbf_generic_reflected_input (poly width seed xor_out : Z)
    (ref_out : bool) (name name' : string) (data : list byte) :
  1 <= width -> 0 <= seed < 2 ^ width ->
  exists gl g crc,
    create_generic_lsbf poly width seed true ref_out name' xor_out = Ok gl /\
    create_generic poly width (bit_reverse_n seed width) false (negb ref_out)
      name xor_out = Ok g /\
    CrcGeneric.calculate g data None = Ok crc /\
    CrcGenericLsbf.calculate gl data None = crc.
Proof.
  intros Hw Hseed.
  destruct (lsbf_mirror_engines poly width seed xor_out ref_out name name'
              Hw data Hseed) as [gl [crc H]].
  exists gl. eexists. exists crc. exact H.
Qed.

Lemma lsbf_generic_reflected_input_witness :
  (1 <= 16 /\ 0 <= 0xFFFF < 2 ^ 16) /\
  exists gl g crc,
    create_generic_lsbf 0x1021 16 0xFFFF true false "" 0 = Ok gl /\
    create_generic 0x1021 16 (bit_reverse_n 0xFFFF 16) false (negb false)
      "" 0 = Ok g /\
    CrcGeneric.calculate g (ascii_bytes "123456789") None = Ok crc /\
    CrcGenericLsbf.calculate gl (ascii_bytes "123456789") None = crc.
Proof.
  split; [cbn; lia|].
  apply (lsbf_generic_reflected_input 0x1021 16 0xFFFF 0 false "" ""
           (ascii_bytes "123456789")); cbn; lia.
Defined.

(** ** The bit string of a byte string *)

Lemma string_length_append (s t : string) :
  String.length (s ++ t) = (String.length s + String.length t)%nat.
Proof.
  induction s as [|c s IH]; cbn [String.append String.length];
    [reflexivity|rewrite IH; reflexivity].
Qed.

Lemma string_append_inj (s1 s2 t1 t2 : string) :
  String.length s1 = String.length s2 ->
  (s1 ++ t1)%string = (s2 ++ t2)%string -> s1 = s2 /\ t1 = t2.
Proof.
  revert s2. induction s1 as [|c s1 IH]; intros [|d s2] Hlen H;
    try discriminate Hlen.
  - split; [reflexivity|exact H].
  - cbn [String.append] in H. injection H as Hc Hs.
    cbn [String.length] in Hlen.
    destruct (IH s2 ltac:(lia) Hs) as [-> ->]. subst d.
    split; reflexivity.
Qed.

Lemma format_08b_length (x : Z) : String.length (format_08b x) = 8%nat.
Proof. reflexivity. Qed.

Lemma digit_inj (a b : bool) :
  (if a then "1" else "0")%char = (if b then "1" else "0")%char -> a = b.
Proof. destruct a, b; intros H; (reflexivity || discriminate H). Qed.

Lemma format_08b_inj (x y : Z) :
  0 <= x < 256 -> 0 <= y < 256 -> format_08b x = format_08b y -> x = y.
Proof.
  intros Hx Hy H. unfold format_08b in H. cbn [fold_right] in H.
  injection H as H7 H6 H5 H4 H3 H2 H1 H0.
  apply digit_inj in H7, H6, H5, H4, H3, H2, H1, H0.
  apply Z.bits_inj'. intros j Hj.
  destruct (Z.ltb_spec j 8).
  - assert (Hc : j = 0 \/ j = 1 \/ j = 2 \/ j = 3 \/
                 j = 4 \/ j = 5 \/ j = 6 \/ j = 7) by lia.
    destruct Hc as [E|[E|[E|[E|[E|[E|[E|E]]]]]]]; subst j; assumption.
  - rewrite (testbit_above x 8), (testbit_above y 8)
      by (change (2 ^ 8) with 256; lia).
    reflexivity.
Qed.

Lemma byte_val_inj (a b : byte) : byte_val a = byte_val b -> a = b.
Proof.
  unfold byte_val. intros H. apply N2Z.inj in H.
  pose proof (Byte.of_to_N a) as Ha. pose proof (Byte.of_to_N b) as Hb.
  rewrite H in Ha. rewrite Ha in Hb. injection Hb as Hb. exact Hb.
Qed.

Section Join.

Variable sep : string.

Let digits (b : byte) : string := format_08b (byte_val b).

(** What [sep.join] puts after the first element. *)
Let rest (l : list byte) : string :=
  match l with
  | [] => EmptyString
  | _ :: _ => (sep ++ String.concat sep (map digits l))%string
  end.

Lemma join_cons (b : byte) (l : list byte) :
  String.concat sep (map digits (b :: l)) = (digits b ++ rest l)%string.
Proof.
  destruct l as [|c l]; cbn [map String.concat rest].
  - induction (digits b) as [|ch s IH]; cbn [String.append];
      [reflexivity|rewrite <- IH; reflexivity].
  - reflexivity.
Qed.

(** The length of the joined string: eight digits for every byte and a
    separator between two bytes. *)
Lemma join_length (l : list byte) :
  String.length (String.concat sep (map digits l))
  = (8 * List.length l + (List.length l - 1) * String.length sep)%nat.
Proof.
  induction l as [|b l IH].
  - reflexivity.
  - rewrite join_cons, string_length_append.
    unfold digits at 1. rewrite format_08b_length.
    destruct l as [|c l].
    + cbn [rest String.length List.length]. lia.
    + unfold rest. rewrite string_length_append, IH.
      cbn [List.length]. rewrite !Nat.sub_succ, !Nat.sub_0_r. lia.
Qed.

Lemma join_inj (l1 : list byte) :
  forall l2,
    String.concat sep (map digits l1) = String.concat sep (map digits l2) ->
    l1 = l2.
Proof.
  assert (Hlen : forall l1 l2 : list byte,
             String.concat sep (map digits l1)
             = String.concat sep (map digits l2) ->
             List.length l1 = List.length l2).
  { intros a b H. apply (f_equal String.length) in H.
    rewrite !join_length in H.
    destruct (Nat.lt_trichotomy (List.length a) (List.length b))
      as [Hlt|[Heq|Hgt]]; [|exact Heq|]; exfalso; nia. }
  induction l1 as [|b1 l1 IH]; intros [|b2 l2] H;
    try (apply Hlen in H; discriminate H).
  - reflexivity.
  - pose proof (Hlen _ _ H) as Hl. cbn [List.length] in Hl.
    rewrite !join_cons in H.
    apply string_append_inj in H;
      [|unfold digits; rewrite !format_08b_length; reflexivity].
    destruct H as [Hd Hr].
    apply format_08b_inj in Hd; try apply byte_val_range.
    apply byte_val_inj in Hd. subst b2. f_equal.
    destruct l1 as [|c1 l1], l2 as [|c2 l2]; try discriminate Hl.
    + reflexivity.
    + unfold rest in Hr. apply string_append_inj in Hr; [|reflexivity].
      apply IH. exact (proj2 Hr).
Qed.

End Join.

(** X25: the bit string determines the bytes: for one separator and one
    choice of prefix, [bytes_to_bit_string] gives different strings for
    different byte strings, whatever the separator is. *)
Theorem bytes_to_bit_string_injective (v1 v2 : list byte) (sep : string)
    (add_prefix : bool) :
  v1 <> v2 ->
  bytes_to_bit_string v1 sep add_prefix
  <> bytes_to_bit_string v2 sep add_prefix.
Proof.
  unfold bytes_to_bit_string. intros Hne H. apply Hne, (join_inj sep).
  destruct add_prefix; [|exact H].
  apply string_append_inj in H; [exact (proj2 H)|reflexivity].
Qed.

Lemma bytes_to_bit_string_injective_witness :
  ([x12; x34] <> [x12; x35]) /\
  (bytes_to_bit_string [x12; x34] "_" true
   <> bytes_to_bit_string [x12; x35] "_" true).
Proof.
  split; [discriminate|].
  apply (bytes_to_bit_string_injective [x12; x34] [x12; x35] "_" true).
  discriminate.
Defined.
